(** * Query language, cursor codec and SQL emitter of the sqlite-store query engine

    A shallow embedding of [query/language.go] (concrete syntax, [invert],
    [Normalise]), of the cursor codec ([EncodeCursor] / [DecodeCursor]), of the
    query builder ([pushArgument], [addPaginationArguments]) and of
    [TablesEvaluator.EvaluateAST], together with the properties of the
    specification that concern them. *)

From Stdlib Require Import String Ascii List Bool Arith NArith ZArith Lia Permutation Sorted.
From Stdlib.Strings Require Import Byte.
From Stdlib Require Import Floats.SpecFloat.
Import ListNotations.

Open Scope string_scope.
Open Scope list_scope.
Open Scope nat_scope.

Set Implicit Arguments.

(** ** Outcomes of a Go call

    A Go function of this package either returns, or panics (a nil pointer
    dereference, an index out of range, an explicit [panic]).  [OutOfFuel] is
    an artefact of the embedding of [Normalise]; the adequacy lemmas below show
    that it never reaches the caller. *)

Inductive result (A : Type) : Type :=
| Ok (a : A)
| Panic (msg : string)
| OutOfFuel.

Arguments Ok {A} a.
Arguments Panic {A} msg.
Arguments OutOfFuel {A}.

Definition bind {A B : Type} (r : result A) (k : A -> result B) : result B :=
  match r with
  | Ok a => k a
  | Panic m => Panic m
  | OutOfFuel => OutOfFuel
  end.

Notation "x <- r ;; k" := (bind r (fun x => k))
  (at level 61, r at next level, right associativity).

(** Left-to-right traversal of a slice by a call that may panic. *)
Fixpoint mapM {A B : Type} (f : A -> result B) (l : list A) : result (list B) :=
  match l with
  | [] => Ok []
  | a :: l' => b <- f a ;; bs <- mapM f l' ;; Ok (b :: bs)
  end.

Definition nil_deref : string := "invalid memory address or nil pointer dereference".

(** ** Literals and leaves *)

(** [Value]: the parser fills exactly one of [String] and [Number]; the other
    pointer is nil. *)
Inductive Value : Type :=
| VString (s : string)
| VNumber (n : N).

(** [*e.Value.String] *)
Definition deref_String (v : Value) : result string :=
  match v with
  | VString s => Ok s
  | VNumber _ => Panic nil_deref
  end.

Record Values : Type := mkValues { Strings : list string; Numbers : list N }.

Record Glob : Type := mkGlob
  { glob_Var : string; glob_IsNot : bool; glob_Value : string }.
Record LessThan : Type := mkLessThan { lt_Var : string; lt_Value : Value }.
Record LessOrEqualThan : Type := mkLessOrEqualThan { le_Var : string; le_Value : Value }.
Record GreaterThan : Type := mkGreaterThan { gt_Var : string; gt_Value : Value }.
Record GreaterOrEqualThan : Type :=
  mkGreaterOrEqualThan { ge_Var : string; ge_Value : Value }.
Record Equality : Type := mkEquality
  { eq_Var : string; eq_IsNot : bool; eq_Value : Value }.
Record Inclusion : Type := mkInclusion
  { in_Var : string; in_IsNot : bool; in_Values : Values }.

Definition KeyAttributeKey : string := "$key".
Definition CreatorAttributeKey : string := "$creator".
Definition OwnerAttributeKey : string := "$owner".
Definition ExpirationAttributeKey : string := "$expiration".
Definition SequenceAttributeKey : string := "$sequence".

(** [case KeyAttributeKey, OwnerAttributeKey, CreatorAttributeKey:] *)
Definition lowered_var (v : string) : bool :=
  String.eqb v KeyAttributeKey || String.eqb v OwnerAttributeKey
  || String.eqb v CreatorAttributeKey.

(** ** Concrete syntax (the tree built by the parser) *)

Inductive Expression : Type :=
| mkExpression (Or : OrExpression)
with OrExpression : Type :=
| mkOrExpression (Left : AndExpression) (Right : list OrRHS)
with OrRHS : Type :=
| mkOrRHS (Expr : AndExpression)
with AndExpression : Type :=
| mkAndExpression (Left : EqualExpr) (Right : list AndRHS)
with AndRHS : Type :=
| mkAndRHS (Expr : EqualExpr)
with EqualExpr : Type :=
| EParen (p : Paren)
| EAssign (a : Equality)
| EInclusion (i : Inclusion)
| ELessThan (l : LessThan)
| ELessOrEqualThan (l : LessOrEqualThan)
| EGreaterThan (g : GreaterThan)
| EGreaterOrEqualThan (g : GreaterOrEqualThan)
| EGlob (g : Glob)
with Paren : Type :=
| mkParen (IsNot : bool) (Nested : Expression).

Definition expr_Or (e : Expression) : OrExpression :=
  match e with mkExpression o => o end.
Definition or_Left (e : OrExpression) : AndExpression :=
  match e with mkOrExpression l _ => l end.
Definition or_Right (e : OrExpression) : list OrRHS :=
  match e with mkOrExpression _ r => r end.
Definition orrhs_Expr (e : OrRHS) : AndExpression :=
  match e with mkOrRHS a => a end.
Definition and_Left (e : AndExpression) : EqualExpr :=
  match e with mkAndExpression l _ => l end.
Definition and_Right (e : AndExpression) : list AndRHS :=
  match e with mkAndExpression _ r => r end.
Definition andrhs_Expr (e : AndRHS) : EqualExpr :=
  match e with mkAndRHS a => a end.
Definition paren_IsNot (p : Paren) : bool :=
  match p with mkParen b _ => b end.
Definition paren_Nested (p : Paren) : Expression :=
  match p with mkParen _ n => n end.

(** [TopLevel.Expression] is nil for the filters [$all] and [*]. *)
Record TopLevel : Type := mkTopLevel { top_Expression : option Expression }.

(** ** Normalised syntax *)

Inductive ASTTerm : Type :=
| TAssign (a : Equality)
| TInclusion (i : Inclusion)
| TLessThan (l : LessThan)
| TLessOrEqualThan (l : LessOrEqualThan)
| TGreaterThan (g : GreaterThan)
| TGreaterOrEqualThan (g : GreaterOrEqualThan)
| TGlob (g : Glob).

Record ASTAnd : Type := mkASTAnd { and_Terms : list ASTTerm }.
Record ASTOr : Type := mkASTOr { or_Terms : list ASTAnd }.
Record ASTExpr : Type := mkASTExpr { ast_Or : ASTOr }.
Record AST : Type := mkAST { ast_Expr : option ASTExpr }.

(** ** [invert]: one step of negation

    [invert] rewrites the outermost operator only: a parenthesis below it has
    its [IsNot] flag flipped and is left for [Normalise] to open. *)

Definition Paren_invert (e : Paren) : Paren :=
  mkParen (negb (paren_IsNot e)) (paren_Nested e).

Definition Glob_invert (e : Glob) : Glob :=
  mkGlob (glob_Var e) (negb (glob_IsNot e)) (glob_Value e).

Definition LessThan_invert (e : LessThan) : GreaterOrEqualThan :=
  mkGreaterOrEqualThan (lt_Var e) (lt_Value e).

Definition LessOrEqualThan_invert (e : LessOrEqualThan) : GreaterThan :=
  mkGreaterThan (le_Var e) (le_Value e).

Definition GreaterThan_invert (e : GreaterThan) : LessOrEqualThan :=
  mkLessOrEqualThan (gt_Var e) (gt_Value e).

Definition GreaterOrEqualThan_invert (e : GreaterOrEqualThan) : LessThan :=
  mkLessThan (ge_Var e) (ge_Value e).

Definition Equality_invert (e : Equality) : Equality :=
  mkEquality (eq_Var e) (negb (eq_IsNot e)) (eq_Value e).

Definition Inclusion_invert (e : Inclusion) : Inclusion :=
  mkInclusion (in_Var e) (negb (in_IsNot e)) (in_Values e).

Definition EqualExpr_invert (e : EqualExpr) : EqualExpr :=
  match e with
  | EParen p => EParen (Paren_invert p)
  | ELessThan l => EGreaterOrEqualThan (LessThan_invert l)
  | ELessOrEqualThan l => EGreaterThan (LessOrEqualThan_invert l)
  | EGreaterThan g => ELessOrEqualThan (GreaterThan_invert g)
  | EGreaterOrEqualThan g => ELessThan (GreaterOrEqualThan_invert g)
  | EGlob g => EGlob (Glob_invert g)
  | EAssign a => EAssign (Equality_invert a)
  | EInclusion i => EInclusion (Inclusion_invert i)
  end.

Definition AndRHS_invert (e : AndRHS) : OrRHS :=
  mkOrRHS (mkAndExpression (EqualExpr_invert (andrhs_Expr e)) []).

Definition AndExpression_invert (e : AndExpression) : OrExpression :=
  mkOrExpression
    (mkAndExpression (EqualExpr_invert (and_Left e)) [])
    (map AndRHS_invert (and_Right e)).

Definition OrRHS_invert (e : OrRHS) : AndRHS :=
  mkAndRHS
    (EParen (mkParen false (mkExpression (AndExpression_invert (orrhs_Expr e))))).

Definition OrExpression_invert (e : OrExpression) : AndExpression :=
  mkAndExpression
    (EParen (mkParen false (mkExpression (AndExpression_invert (or_Left e)))))
    (map OrRHS_invert (or_Right e)).

Definition Expression_invert (e : Expression) : result Expression :=
  let newLeft := OrExpression_invert (expr_Or e) in
  if Nat.eqb (length (and_Right newLeft)) 0 then
    match and_Left newLeft with
    | EParen p => Ok (paren_Nested p)
    | _ => Panic "This should never happen!"
    end
  else Ok (mkExpression (mkOrExpression newLeft [])).

(** ** [Normalise]: disjunctive normal form *)

Section Normaliser.

(** [strings.ToLower] of the Go library. *)
Variable ToLower : string -> string.

Definition Glob_Normalise (e : Glob) : Glob := e.

Definition LessThan_Normalise (e : LessThan) : result LessThan :=
  if lowered_var (lt_Var e) then
    s <- deref_String (lt_Value e) ;;
    Ok (mkLessThan (lt_Var e) (VString (ToLower s)))
  else Ok e.

Definition LessOrEqualThan_Normalise (e : LessOrEqualThan) : result LessOrEqualThan :=
  if lowered_var (le_Var e) then
    s <- deref_String (le_Value e) ;;
    Ok (mkLessOrEqualThan (le_Var e) (VString (ToLower s)))
  else Ok e.

Definition GreaterThan_Normalise (e : GreaterThan) : result GreaterThan :=
  if lowered_var (gt_Var e) then
    s <- deref_String (gt_Value e) ;;
    Ok (mkGreaterThan (gt_Var e) (VString (ToLower s)))
  else Ok e.

Definition GreaterOrEqualThan_Normalise (e : GreaterOrEqualThan)
  : result GreaterOrEqualThan :=
  if lowered_var (ge_Var e) then
    s <- deref_String (ge_Value e) ;;
    Ok (mkGreaterOrEqualThan (ge_Var e) (VString (ToLower s)))
  else Ok e.

Definition Equality_Normalise (e : Equality) : result Equality :=
  if lowered_var (eq_Var e) then
    s <- deref_String (eq_Value e) ;;
    Ok (mkEquality (eq_Var e) (eq_IsNot e) (VString (ToLower s)))
  else Ok e.

(** The rebuilt [Inclusion] literal names [Var] and [Values.Strings] only:
    [IsNot] and [Values.Numbers] take their zero values. *)
Definition Inclusion_Normalise (e : Inclusion) : Inclusion :=
  if lowered_var (in_Var e) then
    mkInclusion (in_Var e) false
      (mkValues (map ToLower (Strings (in_Values e))) [])
  else e.

Definition EqualExpr_Normalise (e : EqualExpr) : result ASTTerm :=
  match e with
  | EParen _ => Panic "Called EqualExpr::Normalise on a paren, this is a bug!"
  | ELessThan l => x <- LessThan_Normalise l ;; Ok (TLessThan x)
  | ELessOrEqualThan l => x <- LessOrEqualThan_Normalise l ;; Ok (TLessOrEqualThan x)
  | EGreaterThan g => x <- GreaterThan_Normalise g ;; Ok (TGreaterThan x)
  | EGreaterOrEqualThan g =>
      x <- GreaterOrEqualThan_Normalise g ;; Ok (TGreaterOrEqualThan x)
  | EGlob g => Ok (TGlob (Glob_Normalise g))
  | EAssign a => x <- Equality_Normalise a ;; Ok (TAssign x)
  | EInclusion i => Ok (TInclusion (Inclusion_Normalise i))
  end.

(** The cross product of [AndExpression.Normalise]: [ast] holds the
    conjunctions built so far, every one of them is extended by every
    alternative of the next conjunct. *)
Definition distribute (ast : list ASTAnd) (disjunctions : list (list ASTTerm))
  : list ASTAnd :=
  flat_map
    (fun conjunction =>
       map (fun terms => mkASTAnd (and_Terms conjunction ++ terms)) disjunctions)
    ast.

Definition crossProduct (terms : list (list (list ASTTerm))) : list ASTAnd :=
  fold_left distribute terms [mkASTAnd []].

Section OneLevel.

(** [Expression.Normalise] on the expressions nested in parentheses. *)
Variable Normalise_nested : Expression -> result ASTExpr.

Definition Paren_Normalise (e : Paren) : result ASTExpr :=
  if paren_IsNot e then
    nested <- Expression_invert (paren_Nested e) ;; Normalise_nested nested
  else Normalise_nested (paren_Nested e).

Definition EqualExpr_convertToTerms (e : EqualExpr) : result (list (list ASTTerm)) :=
  match e with
  | EParen p =>
      normalised <- Paren_Normalise p ;;
      Ok (map and_Terms (or_Terms (ast_Or normalised)))
  | _ => t <- EqualExpr_Normalise e ;; Ok [[t]]
  end.

Definition AndExpression_Normalise (e : AndExpression) : result (list ASTAnd) :=
  terms <- mapM EqualExpr_convertToTerms
             (and_Left e :: map andrhs_Expr (and_Right e)) ;;
  Ok (crossProduct terms).

Definition OrRHS_Normalise (e : OrRHS) : result (list ASTAnd) :=
  AndExpression_Normalise (orrhs_Expr e).

Definition OrExpression_Normalise (e : OrExpression) : result ASTOr :=
  terms <- AndExpression_Normalise (or_Left e) ;;
  rest <- mapM OrRHS_Normalise (or_Right e) ;;
  Ok (mkASTOr (terms ++ concat rest)).

Definition Expression_Normalise_body (e : Expression) : result ASTExpr :=
  normalised <- OrExpression_Normalise (expr_Or e) ;;
  Ok (mkASTExpr normalised).

End OneLevel.

(** The recursion of [Normalise] goes through [invert], whose result is not
    a subterm of its argument: it is embedded with a bound on the number of
    nested calls of [Expression.Normalise]. *)
Fixpoint Expression_Normalise_fuel (fuel : nat) (e : Expression) : result ASTExpr :=
  match fuel with
  | O => OutOfFuel
  | S fuel' => Expression_Normalise_body (Expression_Normalise_fuel fuel') e
  end.

End Normaliser.

(** Nesting depth of parentheses, the quantity that bounds the recursion. *)
Fixpoint depth_Expression (e : Expression) : nat :=
  match e with mkExpression o => depth_OrExpression o end
with depth_OrExpression (e : OrExpression) : nat :=
  match e with
  | mkOrExpression l r =>
      Nat.max (depth_AndExpression l) (list_max (map depth_OrRHS r))
  end
with depth_OrRHS (e : OrRHS) : nat :=
  match e with mkOrRHS a => depth_AndExpression a end
with depth_AndExpression (e : AndExpression) : nat :=
  match e with
  | mkAndExpression l r =>
      Nat.max (depth_EqualExpr l) (list_max (map depth_AndRHS r))
  end
with depth_AndRHS (e : AndRHS) : nat :=
  match e with mkAndRHS a => depth_EqualExpr a end
with depth_EqualExpr (e : EqualExpr) : nat :=
  match e with
  | EParen p => S (depth_Paren p)
  | _ => O
  end
with depth_Paren (e : Paren) : nat :=
  match e with mkParen _ n => depth_Expression n end.

(** [Expression.Normalise], with the bound that [Normalise_never_out_of_fuel]
    shows sufficient. *)
Definition Expression_Normalise (ToLower : string -> string) (e : Expression)
  : result ASTExpr :=
  Expression_Normalise_fuel ToLower (S (2 * depth_Expression e)) e.

Definition TopLevel_Normalise (ToLower : string -> string) (t : TopLevel)
  : result AST :=
  match top_Expression t with
  | Some e => x <- Expression_Normalise ToLower e ;; Ok (mkAST (Some x))
  | None => Ok (mkAST None)
  end.

(** [Parse]: the generated parser either rejects the text ([None], an error is
    returned and no tree is normalised) or yields a tree, which is normalised
    before [Parse] returns. *)
Definition Parse (ToLower : string -> string)
  (ParseString : string -> option TopLevel) (s : string) : result (option AST) :=
  match ParseString s with
  | None => Ok None
  | Some v => a <- TopLevel_Normalise ToLower v ;; Ok (Some a)
  end.

(** ** Truth of a filter under an assignment

    An assignment gives a truth value to every comparison of a variable with a
    literal.  It is closed: a variable is comparable with every literal, so
    that [x >= v] is the complement of [x < v] and [x > v] that of [x <= v]. *)
Record Assignment : Type := mkAssignment
  { holds_eq : string -> Value -> bool;
    holds_lt : string -> Value -> bool;
    holds_le : string -> Value -> bool;
    holds_glob : string -> string -> bool;
    holds_in : string -> Values -> bool }.

Section Truth.

Variable rho : Assignment.

Definition eval_Equality (e : Equality) : bool :=
  xorb (eq_IsNot e) (holds_eq rho (eq_Var e) (eq_Value e)).
Definition eval_Inclusion (e : Inclusion) : bool :=
  xorb (in_IsNot e) (holds_in rho (in_Var e) (in_Values e)).
Definition eval_Glob (e : Glob) : bool :=
  xorb (glob_IsNot e) (holds_glob rho (glob_Var e) (glob_Value e)).
Definition eval_LessThan (e : LessThan) : bool :=
  holds_lt rho (lt_Var e) (lt_Value e).
Definition eval_LessOrEqualThan (e : LessOrEqualThan) : bool :=
  holds_le rho (le_Var e) (le_Value e).
Definition eval_GreaterThan (e : GreaterThan) : bool :=
  negb (holds_le rho (gt_Var e) (gt_Value e)).
Definition eval_GreaterOrEqualThan (e : GreaterOrEqualThan) : bool :=
  negb (holds_lt rho (ge_Var e) (ge_Value e)).

Fixpoint eval_Expression (e : Expression) : bool :=
  match e with mkExpression o => eval_OrExpression o end
with eval_OrExpression (e : OrExpression) : bool :=
  match e with
  | mkOrExpression l r => eval_AndExpression l || existsb eval_OrRHS r
  end
with eval_OrRHS (e : OrRHS) : bool :=
  match e with mkOrRHS a => eval_AndExpression a end
with eval_AndExpression (e : AndExpression) : bool :=
  match e with
  | mkAndExpression l r => eval_EqualExpr l && forallb eval_AndRHS r
  end
with eval_AndRHS (e : AndRHS) : bool :=
  match e with mkAndRHS a => eval_EqualExpr a end
with eval_EqualExpr (e : EqualExpr) : bool :=
  match e with
  | EParen p => eval_Paren p
  | EAssign a => eval_Equality a
  | EInclusion i => eval_Inclusion i
  | ELessThan l => eval_LessThan l
  | ELessOrEqualThan l => eval_LessOrEqualThan l
  | EGreaterThan g => eval_GreaterThan g
  | EGreaterOrEqualThan g => eval_GreaterOrEqualThan g
  | EGlob g => eval_Glob g
  end
with eval_Paren (e : Paren) : bool :=
  match e with mkParen b n => xorb b (eval_Expression n) end.

(** [$all] and [*] hold of every entity. *)
Definition eval_TopLevel (t : TopLevel) : bool :=
  match top_Expression t with
  | Some e => eval_Expression e
  | None => true
  end.

Definition eval_ASTTerm (t : ASTTerm) : bool :=
  match t with
  | TAssign a => eval_Equality a
  | TInclusion i => eval_Inclusion i
  | TLessThan l => eval_LessThan l
  | TLessOrEqualThan l => eval_LessOrEqualThan l
  | TGreaterThan g => eval_GreaterThan g
  | TGreaterOrEqualThan g => eval_GreaterOrEqualThan g
  | TGlob g => eval_Glob g
  end.

Definition eval_ASTAnd (a : ASTAnd) : bool := forallb eval_ASTTerm (and_Terms a).
Definition eval_ASTOr (o : ASTOr) : bool := existsb eval_ASTAnd (or_Terms o).
Definition eval_ASTExpr (e : ASTExpr) : bool := eval_ASTOr (ast_Or e).
Definition eval_AST (a : AST) : bool :=
  match ast_Expr a with
  | Some e => eval_ASTExpr e
  | None => true
  end.

End Truth.

(** [Expression.invert] never takes its panicking branch: it returns the
    expression computed here. *)
Definition inverted (e : Expression) : Expression :=
  match or_Right (expr_Or e) with
  | [] => mkExpression (AndExpression_invert (or_Left (expr_Or e)))
  | _ :: _ => mkExpression (mkOrExpression (OrExpression_invert (expr_Or e)) [])
  end.


(** ** Auxiliary notions for the properties of [Normalise] *)

(** The members of [Left] and [Right], as one list. *)
Definition conjuncts (a : AndExpression) : list EqualExpr :=
  and_Left a :: map andrhs_Expr (and_Right a).
Definition disjuncts (o : OrExpression) : list AndExpression :=
  or_Left o :: map orrhs_Expr (or_Right o).

(** A run that stops for lack of fuel says nothing; any other result is the
    result. *)
Definition approx {A : Type} (r r' : result A) : Prop := r = OutOfFuel \/ r = r'.

(** The run ended: with a value or with a panic. *)
Definition returns {A} (r : result A) : Prop := r <> OutOfFuel.

(** The comparisons that [Normalise] reaches, each as it is when reached:
    [pol] says that an odd number of negated parentheses encloses it, in
    which case it has been inverted. *)
Fixpoint leaves_Expression (pol : bool) (e : Expression) : list EqualExpr :=
  match e with mkExpression o => leaves_OrExpression pol o end
with leaves_OrExpression (pol : bool) (e : OrExpression) : list EqualExpr :=
  match e with
  | mkOrExpression l r => leaves_AndExpression pol l ++ flat_map (leaves_OrRHS pol) r
  end
with leaves_OrRHS (pol : bool) (e : OrRHS) : list EqualExpr :=
  match e with mkOrRHS a => leaves_AndExpression pol a end
with leaves_AndExpression (pol : bool) (e : AndExpression) : list EqualExpr :=
  match e with
  | mkAndExpression l r => leaves_EqualExpr pol l ++ flat_map (leaves_AndRHS pol) r
  end
with leaves_AndRHS (pol : bool) (e : AndRHS) : list EqualExpr :=
  match e with mkAndRHS a => leaves_EqualExpr pol a end
with leaves_EqualExpr (pol : bool) (e : EqualExpr) : list EqualExpr :=
  match e with
  | EParen p => leaves_Paren pol p
  | _ => [if pol then EqualExpr_invert e else e]
  end
with leaves_Paren (pol : bool) (e : Paren) : list EqualExpr :=
  match e with mkParen b n => leaves_Expression (xorb pol b) n end.

(** [P] of the value of a run that ended without panic. *)
Definition lift {A} (P : A -> Prop) (r : result A) : Prop :=
  match r with Ok a => P a | Panic _ => False | OutOfFuel => True end.

(** [P] of the value, if there is one. *)
Definition whenOk {A} (P : A -> Prop) (r : result A) : Prop :=
  forall a, r = Ok a -> P a.

(** The truth of a disjunction of conjunctions of terms. *)
Definition eval_alternatives (rho : Assignment) (d : list (list ASTTerm)) : bool :=
  existsb (forallb (eval_ASTTerm rho)) d.

(** [v.String != nil] *)
Definition is_String (v : Value) : bool :=
  match v with VString _ => true | VNumber _ => false end.

(** The leaves on which [Normalise] neither panics nor loses a part of the
    leaf: on [$key], [$owner] and [$creator] the literal is a string, and an
    inclusion is not negated and lists no number. *)
Definition faithful_leaf (x : EqualExpr) : bool :=
  match x with
  | EParen _ => true
  | EAssign a => if lowered_var (eq_Var a) then is_String (eq_Value a) else true
  | EInclusion i =>
      if lowered_var (in_Var i)
      then negb (in_IsNot i)
           && match Numbers (in_Values i) with [] => true | _ :: _ => false end
      else true
  | ELessThan l => if lowered_var (lt_Var l) then is_String (lt_Value l) else true
  | ELessOrEqualThan l => if lowered_var (le_Var l) then is_String (le_Value l) else true
  | EGreaterThan g => if lowered_var (gt_Var g) then is_String (gt_Value g) else true
  | EGreaterOrEqualThan g =>
      if lowered_var (ge_Var g) then is_String (ge_Value g) else true
  | EGlob _ => true
  end.

(** The attributes [$key], [$owner] and [$creator] are compared without
    regard to case. *)
Definition case_insensitive (ToLower : string -> string) (rho : Assignment) : Prop :=
  forall v, lowered_var v = true ->
    (forall s, holds_eq rho v (VString (ToLower s)) = holds_eq rho v (VString s))
    /\ (forall s, holds_lt rho v (VString (ToLower s)) = holds_lt rho v (VString s))
    /\ (forall s, holds_le rho v (VString (ToLower s)) = holds_le rho v (VString s))
    /\ (forall ss, holds_in rho v (mkValues (map ToLower ss) [])
                   = holds_in rho v (mkValues ss [])).

(** Every leaf reached is a faithful one. *)
Definition faithful (pol : bool) (e : Expression) : Prop :=
  forallb faithful_leaf (leaves_Expression pol e) = true.

(** The expression that consists of one comparison. *)
Definition single (x : EqualExpr) : Expression :=
  mkExpression (mkOrExpression (mkAndExpression x []) []).


(** ** The shape of a normal form and the leaves that do not panic *)

(** At least one conjunction, each of at least one term. *)
Definition nonempty_alternatives (d : list (list ASTTerm)) : Prop :=
  d <> [] /\ Forall (fun ts => ts <> []) d.

(** The same, of the conjunctions of an [ASTOr]. *)
Definition nonempty_conjunctions (l : list ASTAnd) : Prop :=
  l <> [] /\ Forall (fun c => and_Terms c <> []) l.

(** A normal form: a disjunction of conjunctions of terms that has no empty
    level. Terms are comparisons by type: an [ASTTerm] holds no parenthesis. *)
Definition wf_ASTExpr (x : ASTExpr) : Prop :=
  nonempty_conjunctions (or_Terms (ast_Or x)).

(** The leaves on which [Normalise] does not dereference a nil string: on
    [$key], [$owner] and [$creator] the literal of a comparison is a
    string. *)
Definition defined_leaf (x : EqualExpr) : bool :=
  match x with
  | EAssign a => if lowered_var (eq_Var a) then is_String (eq_Value a) else true
  | ELessThan l => if lowered_var (lt_Var l) then is_String (lt_Value l) else true
  | ELessOrEqualThan l => if lowered_var (le_Var l) then is_String (le_Value l) else true
  | EGreaterThan g => if lowered_var (gt_Var g) then is_String (gt_Value g) else true
  | EGreaterOrEqualThan g =>
      if lowered_var (ge_Var g) then is_String (ge_Value g) else true
  | _ => true
  end.

(** ** What the grammar admits in a leaf

    The shape of the tree (disjunctions of conjunctions of atoms, a
    parenthesis around an expression) is that of the grammar rules; what is
    left to say is the token class of the variable and of the literals of
    each leaf.  [Ident] is given for ASCII text. *)

Definition is_letter (c : ascii) : bool :=
  let n := nat_of_ascii c in
  (((65 <=? n) && (n <=? 90)) || ((97 <=? n) && (n <=? 122)) || (n =? 95))%nat.

Definition is_digit (c : ascii) : bool :=
  let n := nat_of_ascii c in ((48 <=? n) && (n <=? 57))%nat.

Fixpoint all_chars (p : ascii -> bool) (s : string) : bool :=
  match s with
  | EmptyString => true
  | String c s' => p c && all_chars p s'
  end.

(** [[\p{L}_][\p{L}\p{N}_]*] *)
Definition Ident_token (s : string) : bool :=
  match s with
  | EmptyString => false
  | String c s' => is_letter c && all_chars (fun c => is_letter c || is_digit c) s'
  end.

(** [@(Ident | Key | Owner | Creator | Expiration | Sequence)] *)
Definition Var_token (s : string) : bool :=
  Ident_token s || String.eqb s KeyAttributeKey || String.eqb s OwnerAttributeKey
  || String.eqb s CreatorAttributeKey || String.eqb s ExpirationAttributeKey
  || String.eqb s SequenceAttributeKey.

Definition uint64_literal (n : N) : bool := (n <? 2 ^ 64)%N.

Definition Value_token (v : Value) : bool :=
  match v with
  | VString _ => true
  | VNumber n => uint64_literal n
  end.

Definition Values_token (v : Values) : bool :=
  match Strings v, Numbers v with
  | _ :: _, [] => true
  | [], _ :: _ => forallb uint64_literal (Numbers v)
  | _, _ => false
  end.

Definition accepted_leaf (x : EqualExpr) : bool :=
  match x with
  | EParen _ => true
  | EAssign a => Var_token (eq_Var a) && Value_token (eq_Value a)
  | EInclusion i => Var_token (in_Var i) && Values_token (in_Values i)
  | ELessThan l => Ident_token (lt_Var l) && Value_token (lt_Value l)
  | ELessOrEqualThan l => Ident_token (le_Var l) && Value_token (le_Value l)
  | EGreaterThan g => Ident_token (gt_Var g) && Value_token (gt_Value g)
  | EGreaterOrEqualThan g => Ident_token (ge_Var g) && Value_token (ge_Value g)
  | EGlob g => Ident_token (glob_Var g)
  end.

(** [invert] keeps the variable and the literal of a leaf, so the leaves may
    be read at either polarity. *)
Definition accepted_TopLevel (t : TopLevel) : bool :=
  match top_Expression t with
  | Some e => forallb accepted_leaf (leaves_Expression false e)
  | None => true
  end.

(** ** [strings.ToLower] on ASCII text, for the closed examples *)

Definition lower_ascii (c : ascii) : ascii :=
  let n := nat_of_ascii c in
  if ((65 <=? n) && (n <=? 90))%nat then ascii_of_nat (n + 32) else c.

Fixpoint ToLower_ascii (s : string) : string :=
  match s with
  | EmptyString => EmptyString
  | String c s' => String (lower_ascii c) (ToLower_ascii s')
  end.

(** ** Filters used as examples *)

(** [$owner = 5] *)
Definition owner_eq_5 : TopLevel :=
  mkTopLevel (Some (single (EAssign (mkEquality "$owner" false (VNumber 5))))).

(** [$key = 1] *)
Definition key_eq_1 : TopLevel :=
  mkTopLevel (Some (single (EAssign (mkEquality "$key" false (VNumber 1))))).

(** [$owner not in ("0xab")] *)
Definition owner_not_in : TopLevel :=
  mkTopLevel
    (Some (single (EInclusion (mkInclusion "$owner" true (mkValues ["0xab"] []))))).

(** [a = 1 && b = 2] *)
Definition a_and_b : Expression :=
  mkExpression
    (mkOrExpression
       (mkAndExpression (EAssign (mkEquality "a" false (VNumber 1)))
          [mkAndRHS (EAssign (mkEquality "b" false (VNumber 2)))])
       []).

(** [(a = 1) && (b = 2)] *)
Definition a_and_b_wrapped : Expression :=
  mkExpression
    (mkOrExpression
       (mkAndExpression
          (EParen (mkParen false (single (EAssign (mkEquality "a" false (VNumber 1))))))
          [mkAndRHS
             (EParen
                (mkParen false (single (EAssign (mkEquality "b" false (VNumber 2))))))])
       []).

(** Two expressions with the same disjuncts in the same order, the members of
    corresponding conjunctions being the same up to their order. *)
Definition same_up_to_conjunct_order (e e' : Expression) : Prop :=
  Forall2 (fun a a' => Permutation (conjuncts a) (conjuncts a'))
    (disjuncts (expr_Or e)) (disjuncts (expr_Or e')).

(** The assignment that makes every comparison true, and one that tells
    ["A"] from ["a"]. *)
Definition all_true : Assignment :=
  mkAssignment (fun _ _ => true) (fun _ _ => true) (fun _ _ => true)
    (fun _ _ => true) (fun _ _ => true).

(* ================================================================== *)
(** * Cursor codec *)
(* ================================================================== *)

(** ** Go values held in an interface

    [float64] is the binary64 format of the Standard Library's IEEE 754
    specification.  [json.Unmarshal] into [[]any] stores a number as a
    [float64], a string as a [string], an array as a [[]any], an object as a
    map; the other constructors are values a caller may put in a cursor. *)

Definition float64 : Type := spec_float.

#[local] Unset Elimination Schemes.

Inductive any : Type :=
| ANil
| ABool (b : bool)
| AFloat64 (f : float64)
| AUint64 (n : N)
| AInt64 (z : Z)
| AString (s : string)
| ABytes (b : list byte)
| AArray (l : list any)
| AObject (l : list (string * any)).

#[local] Set Elimination Schemes.

(** The [float64] nearest to an integer (ties to even), as the JSON decoder
    computes it from an integer literal. *)
Definition float64_of_Z (z : Z) : float64 := binary_normalize 53 1024 z 0 false.

(** The integer part of a finite [float64]. *)
Definition float64_trunc (f : float64) : option Z :=
  match f with
  | S754_zero _ => Some 0%Z
  | S754_finite s m e =>
      let v := (if 0 <=? e then Zpos m * 2 ^ e else Zpos m / 2 ^ (- e))%Z in
      Some (if s then (- v)%Z else v)
  | _ => None
  end.

(** ** Columns and options *)

Record Column : Type := mkColumn
  { Name : string; QualifiedName : string; IsBytes : bool }.

Record OrderBy : Type := mkOrderBy { ob_Column : Column; ob_Descending : bool }.

Record OrderByAnnotation : Type := mkOrderByAnnotation
  { oba_Name : string; oba_Type : string; oba_Descending : bool }.

Record CursorValue : Type := mkCursorValue
  { ColumnName : string; cv_Value : any; Descending : bool }.

Record Cursor : Type := mkCursor
  { BlockNumber : N; ColumnValues : list CursorValue }.

Record IncludeData : Type := mkIncludeData
  { inc_Key : bool;
    inc_Attributes : bool;
    inc_SyntheticAttributes : bool;
    inc_Payload : bool;
    inc_ContentType : bool;
    inc_Expiration : bool;
    inc_Owner : bool;
    inc_CreatedAtBlock : bool;
    inc_LastModifiedAtBlock : bool;
    inc_TransactionIndexInBlock : bool;
    inc_OperationIndexInTransaction : bool }.

Record QueryOptions : Type := mkQueryOptions
  { AtBlock : N;
    opt_IncludeData : IncludeData;
    Columns : list Column;
    opt_OrderBy : list OrderBy;
    OrderByAnnotations : list OrderByAnnotation;
    opt_Cursor : list CursorValue }.

(** [slices.BinarySearchFunc]: the loop halves the interval [[i, j)]; [fuel]
    bounds the number of iterations. *)
Fixpoint BinarySearch_loop (fuel : nat) (x : list Column) (target : string)
  (i j : nat) : nat :=
  match fuel with
  | O => i
  | S fuel' =>
      if (i <? j)%nat then
        let h := ((i + j) / 2)%nat in
        match nth_error x h with
        | Some c =>
            match String.compare (Name c) target with
            | Lt => BinarySearch_loop fuel' x target (h + 1) j
            | _ => BinarySearch_loop fuel' x target i h
            end
        | None => i
        end
      else i
  end.

Definition BinarySearchFunc (x : list Column) (target : string) : nat * bool :=
  let n := length x in
  let i := BinarySearch_loop n x target 0 n in
  (i,
   match nth_error x i with
   | Some c => match String.compare (Name c) target with Eq => true | _ => false end
   | None => false
   end).

(** [GetColumnIndex]: [None] stands for the error "unknown column". *)
Definition GetColumnIndex (opts : QueryOptions) (column : string) : option nat :=
  let (ix, found) := BinarySearchFunc (Columns opts) column in
  if found then Some ix else None.

(** ** [encoding/hex] *)

Definition hex_char (n : N) : ascii :=
  ascii_of_N (if n <? 10 then 48 + n else 87 + n)%N.

Definition hex_EncodeToString (bs : list byte) : string :=
  fold_right
    (fun b acc =>
       let n := Byte.to_N b in
       String (hex_char (n / 16)) (String (hex_char (n mod 16)) acc))
    EmptyString bs.

Definition fromHexChar (c : ascii) : option N :=
  let n := N_of_ascii c in
  if ((48 <=? n) && (n <=? 57))%N then Some (n - 48)%N
  else if ((97 <=? n) && (n <=? 102))%N then Some (n - 87)%N
  else if ((65 <=? n) && (n <=? 70))%N then Some (n - 55)%N
  else None.

(** [None] stands for the error of a malformed input (a character that is
    not a hexadecimal digit, an odd length). *)
Fixpoint hex_DecodeString (s : string) : option (list byte) :=
  match s with
  | EmptyString => Some []
  | String a (String b r) =>
      match fromHexChar a, fromHexChar b, hex_DecodeString r with
      | Some x, Some y, Some bs =>
          match Byte.of_N (16 * x + y) with
          | Some c => Some (c :: bs)
          | None => None
          end
      | _, _, _ => None
      end
  | String _ EmptyString => None
  end.

(** ** [EncodeCursor] and [DecodeCursor] *)

(** The errors returned by the package, by the message of the source. *)
Inductive GoError : Type :=
| ErrMarshalCursor        (* "error marshalling cursor", or the error of the final json.Marshal *)
| ErrColumnIndex          (* "could not find column index" *)
| ErrMarshal              (* "could not marshal cursor" *)
| ErrInvalidHex           (* "could not decode cursor" *)
| ErrInvalidJson          (* "could not unmarshal cursor" *)
| ErrInvalidBlockNumber   (* "invalid block number" *)
| ErrInvalidLength        (* "invalid length of cursor array" *)
| ErrUnknownColumnIndex   (* "unknown column index" *)
| ErrUnknownDescending    (* "unknown value for descending" *)
| ErrByteColumnNotString  (* "failed to decode cursor, byte column is not a string" *)
| ErrInvalidBase64        (* "failed to decode cursor" *)
| ErrOrderByType          (* "a type of either 'string' or 'numeric' needs to be provided ..." *)
| ErrPagination.          (* "error adding the pagination condition: error getting column index" *)

(** A Go result [(v, err)]. *)
Inductive errorOr (A : Type) : Type :=
| Returned (a : A)
| Failed (e : GoError).

Arguments Returned {A} a.
Arguments Failed {A} e.

Definition index_out_of_range_0 : string := "index out of range [0] with length 0".
Definition index_out_of_range_3 : string := "index out of range [3] with length 3".
Definition index_out_of_range_negative : string := "index out of range [-1]".

(** [slices.Chunk(s, 3)] *)
Fixpoint Chunk3 (l : list any) : list (list any) :=
  match l with
  | a :: b :: c :: r => [a; b; c] :: Chunk3 r
  | [] => []
  | short => [short]
  end.

(** [l[i]] for a signed index below [len(l)]: negative indices are out of
    range. *)
Definition index_Z {A : Type} (l : list A) (i : Z) : option A :=
  if (i <? 0)%Z then None else nth_error l (Z.to_nat i).

Section Codec.

(** [encoding/json] and [encoding/base64] are parameters: [json.Marshal] of
    the cursor struct (it is only logged) and of the [[]any] array,
    [json.Unmarshal] into a [[]any], [base64.StdEncoding].  [None] stands for
    the error of the call. *)
Variable json_Marshal_Cursor : Cursor -> option (list byte).
Variable json_Marshal : list any -> option (list byte).
Variable json_Unmarshal : list byte -> option (list any).
Variable base64_EncodeToString : list byte -> string.
Variable base64_DecodeString : string -> option (list byte).

(** The result of converting to an integer type a [float64] that the type
    cannot represent is implementation-dependent. *)
Variable uint64_of_unrepresentable : float64 -> N.
Variable int_of_unrepresentable : float64 -> Z.

(** [uint64(f)] *)
Definition uint64_of_float64 (f : float64) : N :=
  match float64_trunc f with
  | Some z =>
      if ((0 <=? z) && (z <? 2 ^ 64))%Z then Z.to_N z
      else uint64_of_unrepresentable f
  | None => uint64_of_unrepresentable f
  end.

(** [int(f)] *)
Definition int_of_float64 (f : float64) : Z :=
  match float64_trunc f with
  | Some z =>
      if ((- 2 ^ 63 <=? z) && (z <? 2 ^ 63))%Z then z
      else int_of_unrepresentable f
  | None => int_of_unrepresentable f
  end.

(** The triples appended to [encodedCursor]; [None] when a column name is
    unknown. *)
Fixpoint encode_values (opts : QueryOptions) (cvs : list CursorValue)
  : option (list any) :=
  match cvs with
  | [] => Some []
  | c :: r =>
      match GetColumnIndex opts (ColumnName c) with
      | None => None
      | Some columnIx =>
          match encode_values opts r with
          | None => None
          | Some rest =>
              Some (AUint64 (N.of_nat columnIx) :: cv_Value c
                      :: AUint64 (if Descending c then 1 else 0)%N :: rest)
          end
      end
  end.

Definition EncodeCursor (opts : QueryOptions) (cursor : Cursor) : errorOr string :=
  match json_Marshal_Cursor cursor with
  | None => Failed ErrMarshalCursor
  | Some _ =>
      match encode_values opts (ColumnValues cursor) with
      | None => Failed ErrColumnIndex
      | Some triples =>
          match json_Marshal (AUint64 (BlockNumber cursor) :: triples) with
          | None => Failed ErrMarshal
          | Some s => Returned (hex_EncodeToString s)
          end
      end
  end.

(** The body of the loop over the chunks. *)
Definition decode_chunk (opts : QueryOptions) (c : list any)
  : result (errorOr CursorValue) :=
  match c with
  | [c0; c1; c2] =>
      match c0 with
      | AFloat64 firstValue =>
          match c2 with
          | AFloat64 thirdValue =>
              let columnIx := int_of_float64 firstValue in
              if (Z.of_nat (length (Columns opts)) <=? columnIx)%Z
              then Ok (Failed ErrUnknownColumnIndex)
              else
                let descendingInt := int_of_float64 thirdValue in
                if ((descendingInt =? 0) || (descendingInt =? 1))%Z then
                  let descending := (descendingInt =? 1)%Z in
                  match index_Z (Columns opts) columnIx with
                  | None => Panic index_out_of_range_negative
                  | Some column =>
                      if IsBytes column then
                        match c1 with
                        | AString encoded =>
                            match base64_DecodeString encoded with
                            | Some decoded =>
                                Ok (Returned
                                      (mkCursorValue (Name column) (ABytes decoded)
                                         descending))
                            | None => Ok (Failed ErrInvalidBase64)
                            end
                        | _ => Ok (Failed ErrByteColumnNotString)
                        end
                      else Ok (Returned (mkCursorValue (Name column) c1 descending))
                  end
                else Ok (Failed ErrUnknownDescending)
          | _ => Panic index_out_of_range_3
          end
      | _ => Ok (Failed ErrUnknownColumnIndex)
      end
  | _ => Ok (Failed ErrInvalidLength)
  end.

Fixpoint decode_chunks (opts : QueryOptions) (chunks : list (list any))
  : result (errorOr (list CursorValue)) :=
  match chunks with
  | [] => Ok (Returned [])
  | c :: r =>
      match decode_chunk opts c with
      | Ok (Returned v) =>
          match decode_chunks opts r with
          | Ok (Returned vs) => Ok (Returned (v :: vs))
          | other => other
          end
      | Ok (Failed e) => Ok (Failed e)
      | Panic m => Panic m
      | OutOfFuel => OutOfFuel
      end
  end.

(** [DecodeCursor] returns [(nil, nil)] on the empty string. *)
Definition DecodeCursor (opts : QueryOptions) (cursorStr : string)
  : result (errorOr (option Cursor)) :=
  if (String.length cursorStr =? 0)%nat then Ok (Returned None)
  else
    match hex_DecodeString cursorStr with
    | None => Ok (Failed ErrInvalidHex)
    | Some bs =>
        match json_Unmarshal bs with
        | None => Ok (Failed ErrInvalidJson)
        | Some encoded =>
            match encoded with
            | [] => Panic index_out_of_range_0
            | AFloat64 firstValue :: rest =>
                match decode_chunks opts (Chunk3 rest) with
                | Ok (Returned values) =>
                    let cursor := mkCursor (uint64_of_float64 firstValue) values in
                    match json_Marshal_Cursor cursor with
                    | None => Ok (Failed ErrMarshalCursor)
                    | Some _ => Ok (Returned (Some cursor))
                    end
                | Ok (Failed e) => Ok (Failed e)
                | Panic m => Panic m
                | OutOfFuel => OutOfFuel
                end
            | _ :: _ => Ok (Failed ErrInvalidBlockNumber)
            end
        end
    end.

(** What [json.Unmarshal] returns for the text that [json.Marshal] wrote for
    a value: an integer comes back as the nearest [float64], a byte slice as
    the string of its base64 encoding, a [float64] and a (valid UTF-8) string
    as they are. *)
Fixpoint json_view (v : any) : any :=
  match v with
  | ANil => ANil
  | ABool b => ABool b
  | AFloat64 f => AFloat64 f
  | AUint64 n => AFloat64 (float64_of_Z (Z.of_N n))
  | AInt64 z => AFloat64 (float64_of_Z z)
  | AString s => AString s
  | ABytes b => AString (base64_EncodeToString b)
  | AArray l => AArray (map json_view l)
  | AObject l => AObject (map (fun kv => (fst kv, json_view (snd kv))) l)
  end.

End Codec.

(** [NewQueryOptions] leaves [Columns] sorted by [Name], without
    duplicates. *)
Definition sorted_by_name (cols : list Column) : Prop :=
  StronglySorted (fun a b => String.compare (Name a) (Name b) = Lt) cols.

(** A cursor value is valid for the options when its column is one of
    [Columns]; the value of a byte column is a byte slice, the value of
    another column is one that JSON returns as it is (a [float64], a string,
    a boolean, nil). *)
Definition valid_value (base64_EncodeToString : list byte -> string)
  (opts : QueryOptions) (c : CursorValue) : Prop :=
  exists ix col,
    nth_error (Columns opts) ix = Some col
    /\ Name col = ColumnName c
    /\ if IsBytes col then exists b, cv_Value c = ABytes b
       else json_view base64_EncodeToString (cv_Value c) = cv_Value c.

Definition valid_cursor (base64_EncodeToString : list byte -> string)
  (opts : QueryOptions) (x : Cursor) : Prop :=
  sorted_by_name (Columns opts)
  /\ (Z.of_nat (length (Columns opts)) < 2 ^ 53)%Z
  /\ Forall (valid_value base64_EncodeToString opts) (ColumnValues x).

(** What the theorems on the codec assume of [encoding/json] and
    [encoding/base64] at a cursor: the cursor can be marshalled; the text
    written for its array is not empty and is read back, value by value, as
    [json_view] says; the base64 text of its byte values decodes to them. *)
Definition libraries_invert_at
  (json_Marshal_Cursor : Cursor -> option (list byte))
  (json_Marshal : list any -> option (list byte))
  (json_Unmarshal : list byte -> option (list any))
  (base64_EncodeToString : list byte -> string)
  (base64_DecodeString : string -> option (list byte))
  (opts : QueryOptions) (x : Cursor) : Prop :=
  json_Marshal_Cursor x <> None
  /\ (forall triples,
         encode_values opts (ColumnValues x) = Some triples ->
         exists text,
           json_Marshal (AUint64 (BlockNumber x) :: triples) = Some text
           /\ text <> []
           /\ json_Unmarshal text
              = Some (map (json_view base64_EncodeToString)
                        (AUint64 (BlockNumber x) :: triples)))
  /\ Forall
       (fun c => forall b, cv_Value c = ABytes b ->
                           base64_DecodeString (base64_EncodeToString b) = Some b)
       (ColumnValues x).

(** ** Executable stand-ins for the libraries, for the closed examples

    [base64.StdEncoding] on well-formed input, and the fragment of JSON that
    the examples use: an array of integer literals and of strings without
    escapes. *)

Definition b64_char (n : N) : ascii :=
  ascii_of_N
    (if n <? 26 then 65 + n
     else if n <? 52 then 71 + n
     else if n <? 62 then n - 4
     else if n =? 62 then 43 else 47)%N.

Definition b64_value (c : ascii) : option N :=
  let n := N_of_ascii c in
  if ((65 <=? n) && (n <=? 90))%N then Some (n - 65)%N
  else if ((97 <=? n) && (n <=? 122))%N then Some (n - 71)%N
  else if ((48 <=? n) && (n <=? 57))%N then Some (n + 4)%N
  else if (n =? 43)%N then Some 62%N
  else if (n =? 47)%N then Some 63%N
  else None.

Definition pad_char : ascii := ascii_of_N 61.

Fixpoint std_base64_EncodeToString (bs : list byte) : string :=
  match bs with
  | a :: b :: c :: r =>
      let n := (Byte.to_N a * 65536 + Byte.to_N b * 256 + Byte.to_N c)%N in
      String (b64_char (n / 262144))
        (String (b64_char ((n / 4096) mod 64))
           (String (b64_char ((n / 64) mod 64))
              (String (b64_char (n mod 64)) (std_base64_EncodeToString r))))
  | [a; b] =>
      let n := (Byte.to_N a * 65536 + Byte.to_N b * 256)%N in
      String (b64_char (n / 262144))
        (String (b64_char ((n / 4096) mod 64))
           (String (b64_char ((n / 64) mod 64)) (String pad_char EmptyString)))
  | [a] =>
      let n := (Byte.to_N a * 65536)%N in
      String (b64_char (n / 262144))
        (String (b64_char ((n / 4096) mod 64))
           (String pad_char (String pad_char EmptyString)))
  | [] => EmptyString
  end.

Definition bytes_of_N (k : nat) (n : N) : option (list byte) :=
  match k with
  | 3 =>
      match Byte.of_N (n / 65536), Byte.of_N ((n / 256) mod 256),
            Byte.of_N (n mod 256) with
      | Some a, Some b, Some c => Some [a; b; c]
      | _, _, _ => None
      end
  | 2 =>
      match Byte.of_N (n / 65536), Byte.of_N ((n / 256) mod 256) with
      | Some a, Some b => Some [a; b]
      | _, _ => None
      end
  | _ =>
      match Byte.of_N (n / 65536) with
      | Some a => Some [a]
      | None => None
      end
  end.

Fixpoint std_base64_DecodeString (s : string) : option (list byte) :=
  match s with
  | EmptyString => Some []
  | String w (String x (String y (String z r))) =>
      match b64_value w, b64_value x with
      | Some vw, Some vx =>
          if Ascii.eqb y pad_char then
            if Ascii.eqb z pad_char then
              match r with
              | EmptyString => bytes_of_N 1 (vw * 262144 + vx * 4096)
              | _ => None
              end
            else None
          else
            match b64_value y with
            | Some vy =>
                if Ascii.eqb z pad_char then
                  match r with
                  | EmptyString => bytes_of_N 2 (vw * 262144 + vx * 4096 + vy * 64)
                  | _ => None
                  end
                else
                  match b64_value z, std_base64_DecodeString r with
                  | Some vz, Some rest =>
                      match bytes_of_N 3 (vw * 262144 + vx * 4096 + vy * 64 + vz) with
                      | Some l => Some (l ++ rest)
                      | None => None
                      end
                  | _, _ => None
                  end
            | None => None
            end
      | _, _ => None
      end
  | _ => None
  end.

Definition quote_char : ascii := ascii_of_N 34.

Definition N_of_digit (c : ascii) : N := (N_of_ascii c - 48)%N.

Fixpoint decimal_digits (fuel : nat) (n : N) (acc : string) : string :=
  match fuel with
  | O => acc
  | S fuel' =>
      let acc' := String (ascii_of_N (48 + n mod 10)) acc in
      if (n <? 10)%N then acc' else decimal_digits fuel' (n / 10)%N acc'
  end.

(** [%d] of a non-negative integer. *)
Definition decimal (n : N) : string := decimal_digits (S (N.to_nat (N.log2 n))) n EmptyString.

Definition plain_text (s : string) : bool :=
  all_chars
    (fun c => negb (Ascii.eqb c quote_char) && negb (Ascii.eqb c (ascii_of_N 92))
              && (32 <=? N_of_ascii c)%N && (N_of_ascii c <? 127)%N
              && negb (Ascii.eqb c (ascii_of_N 60)) && negb (Ascii.eqb c (ascii_of_N 62))
              && negb (Ascii.eqb c (ascii_of_N 38)))
    s.

Definition quoted (s : string) : string :=
  String quote_char (s ++ String quote_char EmptyString)%string.

Definition example_marshal_value (v : any) : option string :=
  match v with
  | AUint64 n => Some (decimal n)
  | AInt64 z =>
      Some (if (z <? 0)%Z then String (ascii_of_N 45) (decimal (Z.to_N (- z)))
            else decimal (Z.to_N z))
  | AFloat64 f =>
      match float64_trunc f with
      | Some z =>
          if (0 <=? z)%Z && (z <? 2 ^ 53)%Z && SFeqb f (float64_of_Z z)
          then Some (decimal (Z.to_N z)) else None
      | None => None
      end
  | AString s => if plain_text s then Some (quoted s) else None
  | ABytes b => Some (quoted (std_base64_EncodeToString b))
  | _ => None
  end.

Fixpoint example_marshal_values (l : list any) : option string :=
  match l with
  | [] => Some EmptyString
  | [v] => example_marshal_value v
  | v :: r =>
      match example_marshal_value v, example_marshal_values r with
      | Some s, Some t => Some (s ++ String (ascii_of_N 44) t)%string
      | _, _ => None
      end
  end.

Definition example_json_Marshal (l : list any) : option (list byte) :=
  match example_marshal_values l with
  | Some s =>
      Some (list_byte_of_string
              (String (ascii_of_N 91) (s ++ String (ascii_of_N 93) EmptyString)%string))
  | None => None
  end.

Definition example_json_Marshal_Cursor (c : Cursor) : option (list byte) :=
  example_json_Marshal (map cv_Value (ColumnValues c)).

Inductive json_state : Type :=
| JStart
| JValueOrEnd
| JValue
| JNumber (negative : bool) (digits : N)
| JString (reversed : list ascii)
| JAfterValue
| JDone.

Definition json_number (negative : bool) (digits : N) : any :=
  AFloat64 (float64_of_Z (if negative then (- Z.of_N digits)%Z else Z.of_N digits)).

Definition json_begin_value (c : ascii) : option json_state :=
  if Ascii.eqb c (ascii_of_N 45) then Some (JNumber true 0)
  else if is_digit c then Some (JNumber false (N_of_digit c))
  else if Ascii.eqb c quote_char then Some (JString [])
  else None.

Fixpoint example_json_parse (st : json_state) (acc : list any) (s : string)
  : option (list any) :=
  match s with
  | EmptyString => match st with JDone => Some (rev acc) | _ => None end
  | String c r =>
      match st with
      | JStart =>
          if Ascii.eqb c (ascii_of_N 91) then example_json_parse JValueOrEnd acc r
          else None
      | JValueOrEnd =>
          if Ascii.eqb c (ascii_of_N 93) then example_json_parse JDone acc r
          else match json_begin_value c with
               | Some st' => example_json_parse st' acc r
               | None => None
               end
      | JValue =>
          match json_begin_value c with
          | Some st' => example_json_parse st' acc r
          | None => None
          end
      | JNumber neg n =>
          if is_digit c then example_json_parse (JNumber neg (10 * n + N_of_digit c)) acc r
          else if Ascii.eqb c (ascii_of_N 44)
               then example_json_parse JValue (json_number neg n :: acc) r
          else if Ascii.eqb c (ascii_of_N 93)
               then example_json_parse JDone (json_number neg n :: acc) r
          else None
      | JString rs =>
          if Ascii.eqb c quote_char
          then example_json_parse JAfterValue
                 (AString (string_of_list_ascii (rev rs)) :: acc) r
          else example_json_parse (JString (c :: rs)) acc r
      | JAfterValue =>
          if Ascii.eqb c (ascii_of_N 44) then example_json_parse JValue acc r
          else if Ascii.eqb c (ascii_of_N 93) then example_json_parse JDone acc r
          else None
      | JDone => None
      end
  end.

Definition example_json_Unmarshal (text : list byte) : option (list any) :=
  example_json_parse JStart [] (string_of_list_byte text).

(** ** Options and cursors used as examples *)

Definition from_block_column : Column := mkColumn "from_block" "e.from_block" false.
Definition entity_key_column : Column := mkColumn "entity_key" "e.entity_key" true.

Definition no_IncludeData : IncludeData :=
  mkIncludeData false false false false false false false false false false false.

(** The options resolved from no include flag, no order-by annotation and no
    cursor, at block 7. *)
Definition plain_options : QueryOptions :=
  mkQueryOptions 7 no_IncludeData [entity_key_column; from_block_column]
    [mkOrderBy from_block_column false; mkOrderBy entity_key_column false] [] [].

(** Scenario 8 of the specification. *)
Definition scenario_cursor : Cursor :=
  mkCursor 10
    [mkCursorValue "from_block" (AFloat64 (float64_of_Z 42)) false;
     mkCursorValue "entity_key" (ABytes [xde; xad]) false].

(** The same cursor at block [2 ^ 53 + 1], and at the block that is read
    back. *)
Definition far_cursor : Cursor :=
  mkCursor 9007199254740993 (ColumnValues scenario_cursor).
Definition far_cursor_decoded : Cursor :=
  mkCursor 9007199254740992 (ColumnValues scenario_cursor).

Definition example_EncodeCursor : QueryOptions -> Cursor -> errorOr string :=
  EncodeCursor example_json_Marshal_Cursor example_json_Marshal.

Definition example_DecodeCursor
  : QueryOptions -> string -> result (errorOr (option Cursor)) :=
  DecodeCursor example_json_Marshal_Cursor example_json_Unmarshal
    std_base64_DecodeString (fun _ => 0%N) (fun _ => 0%Z).

(* ================================================================== *)
(** * Query builder and the CTE emitter *)
(* ================================================================== *)

Record SelectQuery : Type := mkSelectQuery { Query : string; Args : list any }.

(** [queryBuilder] is the text written so far; the counters are [uint32]. *)
Record QueryBuilder : Type := mkQueryBuilder
  { queryBuilder : string;
    args : list any;
    argsCount : N;
    tableCounter : N;
    needsComma : bool;
    needsWhere : bool;
    options : QueryOptions;
    sqlDialect : string }.

Definition QueryResultCountLimit : N := 200.

(** [strings.Join] *)
Definition strings_Join (elems : list string) (sep : string) : string :=
  String.concat sep elems.

Definition WriteString (b : QueryBuilder) (s : string) : QueryBuilder :=
  mkQueryBuilder (queryBuilder b ++ s)%string (args b) (argsCount b) (tableCounter b)
    (needsComma b) (needsWhere b) (options b) (sqlDialect b).

Definition set_needsComma (b : QueryBuilder) (v : bool) : QueryBuilder :=
  mkQueryBuilder (queryBuilder b) (args b) (argsCount b) (tableCounter b)
    v (needsWhere b) (options b) (sqlDialect b).

Definition set_needsWhere (b : QueryBuilder) (v : bool) : QueryBuilder :=
  mkQueryBuilder (queryBuilder b) (args b) (argsCount b) (tableCounter b)
    (needsComma b) v (options b) (sqlDialect b).

Definition uint32_succ (n : N) : N := ((n + 1) mod 2 ^ 32)%N.

Definition nextTableName (b : QueryBuilder) : string * QueryBuilder :=
  let c := uint32_succ (tableCounter b) in
  (("table_" ++ decimal c)%string,
   mkQueryBuilder (queryBuilder b) (args b) (argsCount b) c
     (needsComma b) (needsWhere b) (options b) (sqlDialect b)).

(** [pushArgument] appends the argument and returns its placeholder,
    [fmt.Sprintf("$%d", b.argsCount)]. *)
Definition pushArgument (b : QueryBuilder) (arg : any) : string * QueryBuilder :=
  let c := uint32_succ (argsCount b) in
  (("$" ++ decimal c)%string,
   mkQueryBuilder (queryBuilder b) (args b ++ [arg]) c (tableCounter b)
     (needsComma b) (needsWhere b) (options b) (sqlDialect b)).

Definition writeComma (b : QueryBuilder) : QueryBuilder :=
  if needsComma b then WriteString b ", " else set_needsComma b true.

(** The prefix of a constraint: [WHERE] for the first one, [AND] after. *)
Definition writeWhereOrAnd (b : QueryBuilder) : QueryBuilder :=
  if needsWhere b then set_needsWhere (WriteString b " WHERE ") false
  else WriteString b " AND ".

(** ** [addPaginationArguments] *)

(** The first loop: one argument per cursor value, in order. *)
Fixpoint pushCursorArguments (b : QueryBuilder) (cursor : list CursorValue)
  : list string * QueryBuilder :=
  match cursor with
  | [] => ([], b)
  | val :: r =>
      let (arg, b1) := pushArgument b (cv_Value val) in
      let (rest, b2) := pushCursorArguments b1 r in
      (arg :: rest, b2)
  end.

(** The column that [b.options.Columns[columnIx]] reads once
    [GetColumnIndex] has returned [columnIx]; [None] is the error of
    [GetColumnIndex] (an index that it returns is in range,
    [GetColumnIndex_sound]). *)
Definition lookupColumn (opts : QueryOptions) (name : string) : option Column :=
  match GetColumnIndex opts name with
  | Some columnIx => nth_error (Columns opts) columnIx
  | None => None
  end.

(** The inner loop for row [i], from column [j] on: [rest] pairs the cursor
    values from index [j] with their placeholders. *)
Fixpoint subcondition (opts : QueryOptions) (i j : nat)
  (rest : list (CursorValue * string)) : option (list string) :=
  match rest with
  | [] => Some []
  | (from, arg) :: r =>
      if i <? j then Some []
      else
        let operator :=
          if j <? i then "=" else if Descending from then "<" else ">" in
        match lookupColumn opts (ColumnName from) with
        | None => None
        | Some column =>
            match subcondition opts i (S j) r with
            | None => None
            | Some l =>
                Some ((QualifiedName column ++ " " ++ operator ++ " " ++ arg)%string
                        :: l)
            end
        end
  end.

(** The outer loop, over the rows [is]. *)
Fixpoint paginationConditions (opts : QueryOptions)
  (pairs : list (CursorValue * string)) (rows : list nat) : option (list string) :=
  match rows with
  | [] => Some []
  | i :: r =>
      match subcondition opts i 0 pairs with
      | None => None
      | Some sub =>
          match paginationConditions opts pairs r with
          | None => None
          | Some l => Some (("(" ++ strings_Join sub " AND " ++ ")")%string :: l)
          end
      end
  end.

(** The builder after the call, and whether an error was returned: on an
    error the arguments have been pushed and nothing has been written. *)
Definition addPaginationArguments (b : QueryBuilder) : QueryBuilder * option GoError :=
  let cursor := opt_Cursor (options b) in
  if 0 <? length cursor then
    let (placeholders, b1) := pushCursorArguments b cursor in
    match paginationConditions (options b) (combine cursor placeholders)
            (seq 0 (length cursor)) with
    | None => (b1, Some ErrPagination)
    | Some conditions =>
        let paginationCondition := strings_Join conditions " OR " in
        let b2 := writeWhereOrAnd b1 in
        (WriteString (WriteString (WriteString b2 "(") paginationCondition) ")", None)
    end
  else (b, None).

(** ** Leaves as common table expressions *)

Definition createLeafQuery (b : QueryBuilder) (query : string) : string * QueryBuilder :=
  let (tableName, b1) := nextTableName b in
  let b2 := writeComma b1 in
  (tableName,
   WriteString (WriteString (WriteString (WriteString b2 tableName) " AS (") query) ")").

Definition createAnnotationQuery (b : QueryBuilder) (attributeType whereClause : string)
  : string * QueryBuilder :=
  let tableName :=
    if String.eqb attributeType "numeric" then "numeric_attributes"
    else "string_attributes" in
  let (blockArg, b1) := pushArgument b (AUint64 (AtBlock (options b))) in
  createLeafQuery b1
    (strings_Join
       ["SELECT a.entity_key, a.from_block FROM";
        tableName;
        "AS a";
        "WHERE";
        whereClause;
        ("AND " ++ blockArg ++ " BETWEEN a.from_block AND a.to_block - 1")%string]
       " ").

(** The argument and the attribute table of a literal. *)
Definition pushValue (b : QueryBuilder) (v : Value) : string * string * QueryBuilder :=
  match v with
  | VString s => let (valArg, b1) := pushArgument b (AString s) in ("string", valArg, b1)
  | VNumber n => let (valArg, b1) := pushArgument b (AUint64 n) in ("numeric", valArg, b1)
  end.

(** The Evaluate method of the four ordered comparisons, which differ by the
    operator only. *)
Definition comparison_Evaluate (operator : string) (var : string) (value : Value)
  (b : QueryBuilder) : string * QueryBuilder :=
  let (varArg, b1) := pushArgument b (AString var) in
  let '(attrType, valArg, b2) := pushValue b1 value in
  createAnnotationQuery b2 attrType
    ("a.key = " ++ varArg ++ " AND a.value " ++ operator ++ " " ++ valArg)%string.

Definition Glob_Evaluate (e : Glob) (b : QueryBuilder) : string * QueryBuilder :=
  let (varArg, b1) := pushArgument b (AString (glob_Var e)) in
  let (valArg, b2) := pushArgument b1 (AString (glob_Value e)) in
  let op := if glob_IsNot e then "NOT GLOB" else "GLOB" in
  createAnnotationQuery b2 "string"
    ("a.key = " ++ varArg ++ " AND a.value " ++ op ++ " " ++ valArg)%string.

Definition LessThan_Evaluate (e : LessThan) : QueryBuilder -> string * QueryBuilder :=
  comparison_Evaluate "<" (lt_Var e) (lt_Value e).
Definition LessOrEqualThan_Evaluate (e : LessOrEqualThan)
  : QueryBuilder -> string * QueryBuilder :=
  comparison_Evaluate "<=" (le_Var e) (le_Value e).
Definition GreaterThan_Evaluate (e : GreaterThan) : QueryBuilder -> string * QueryBuilder :=
  comparison_Evaluate ">" (gt_Var e) (gt_Value e).
Definition GreaterOrEqualThan_Evaluate (e : GreaterOrEqualThan)
  : QueryBuilder -> string * QueryBuilder :=
  comparison_Evaluate ">=" (ge_Var e) (ge_Value e).
Definition Equality_Evaluate (e : Equality) : QueryBuilder -> string * QueryBuilder :=
  comparison_Evaluate (if eq_IsNot e then "!=" else "=") (eq_Var e) (eq_Value e).

Fixpoint pushArguments (b : QueryBuilder) (vals : list any)
  : list string * QueryBuilder :=
  match vals with
  | [] => ([], b)
  | v :: r =>
      let (arg, b1) := pushArgument b v in
      let (rest, b2) := pushArguments b1 r in
      (arg :: rest, b2)
  end.

Section Emitter.

Variable ToLower : string -> string.

Definition Inclusion_Evaluate (e : Inclusion) (b : QueryBuilder) : string * QueryBuilder :=
  let '(attrType, (values, b1)) :=
    if 0 <? length (Strings (in_Values e)) then
      ("string",
       pushArguments b
         (map (fun value =>
                 if String.eqb (in_Var e) OwnerAttributeKey
                    || String.eqb (in_Var e) CreatorAttributeKey
                    || String.eqb (in_Var e) KeyAttributeKey
                 then AString (ToLower value) else AString value)
            (Strings (in_Values e))))
    else ("numeric", pushArguments b (map AUint64 (Numbers (in_Values e)))) in
  let paramStr := strings_Join values ", " in
  let condition :=
    if in_IsNot e then ("a.value NOT IN (" ++ paramStr ++ ")")%string
    else ("a.value IN (" ++ paramStr ++ ")")%string in
  let (keyArg, b2) := pushArgument b1 (AString (in_Var e)) in
  createAnnotationQuery b2 attrType ("a.key = " ++ keyArg ++ " AND " ++ condition)%string.

Definition EvaluateTerm (expr : ASTTerm) (b : QueryBuilder) : string * QueryBuilder :=
  match expr with
  | TLessThan l => LessThan_Evaluate l b
  | TLessOrEqualThan l => LessOrEqualThan_Evaluate l b
  | TGreaterThan g => GreaterThan_Evaluate g b
  | TGreaterOrEqualThan g => GreaterOrEqualThan_Evaluate g b
  | TGlob g => Glob_Evaluate g b
  | TAssign a => Equality_Evaluate a b
  | TInclusion i => Inclusion_Evaluate i b
  end.

(** The loop of [EvaluateAnd] and of [EvaluateOr] over [Terms[1:]]: the
    running result [leftTable] is combined with the table of each term by
    [operator]. *)
Fixpoint combineTables {T : Type} (evaluate : T -> QueryBuilder -> string * QueryBuilder)
  (operator : string) (rest : list T) (leftTable : string) (b : QueryBuilder)
  : string * QueryBuilder :=
  match rest with
  | [] => (leftTable, b)
  | rhs :: r =>
      let (rightTable, b1) := evaluate rhs b in
      let (tableName, b2) := nextTableName b1 in
      let b3 := writeComma b2 in
      let b4 :=
        WriteString
          (WriteString
             (WriteString
                (WriteString
                   (WriteString
                      (WriteString (WriteString (WriteString b3 tableName) " AS (")
                         "SELECT * FROM ")
                      leftTable)
                   operator)
                "SELECT * FROM ")
             rightTable)
          ")" in
      combineTables evaluate operator r tableName b4
  end.

Definition EvaluateAnd (expr : ASTAnd) (b : QueryBuilder)
  : result (string * QueryBuilder) :=
  match and_Terms expr with
  | [] => Panic index_out_of_range_0
  | t :: rest =>
      let (leftTable, b1) := EvaluateTerm t b in
      Ok (combineTables EvaluateTerm " INTERSECT " rest leftTable b1)
  end.

(** [EvaluateOr]'s loop, with the panic of [EvaluateAnd] propagated. *)
Fixpoint combineConjunctions (rest : list ASTAnd) (leftTable : string)
  (b : QueryBuilder) : result (string * QueryBuilder) :=
  match rest with
  | [] => Ok (leftTable, b)
  | rhs :: r =>
      p <- EvaluateAnd rhs b ;;
      let (rightTable, b1) := p in
      let (tableName, b2) := nextTableName b1 in
      let b3 := writeComma b2 in
      let b4 :=
        WriteString
          (WriteString
             (WriteString
                (WriteString
                   (WriteString
                      (WriteString (WriteString (WriteString b3 tableName) " AS (")
                         "SELECT * FROM ")
                      leftTable)
                   " UNION ")
                "SELECT * FROM ")
             rightTable)
          ")" in
      combineConjunctions r tableName b4
  end.

Definition EvaluateOr (expr : ASTOr) (b : QueryBuilder)
  : result (string * QueryBuilder) :=
  match or_Terms expr with
  | [] => Panic index_out_of_range_0
  | t :: rest =>
      p <- EvaluateAnd t b ;;
      let (leftTable, b1) := p in
      combineConjunctions rest leftTable b1
  end.

Definition EvaluateExpr (expr : ASTExpr) (b : QueryBuilder)
  : result (string * QueryBuilder) :=
  EvaluateOr (ast_Or expr) (WriteString b "WITH ").

(** ** [columnString] and the order-by joins *)

Definition selector (c : Column) : string :=
  (QualifiedName c ++ " AS " ++ Name c)%string.

Definition columnString (opts : QueryOptions) : string :=
  match Columns opts with
  | [] => "1"
  | _ :: _ => strings_Join (map selector (Columns opts)) ", "
  end.

(** The loop over [OrderByAnnotations], from index [i]: [None] is the error of
    an annotation whose type is neither ["string"] nor ["numeric"]. *)
Fixpoint orderByJoins (i : nat) (annotations : list OrderByAnnotation)
  (b : QueryBuilder) : option QueryBuilder :=
  match annotations with
  | [] => Some b
  | orderBy :: r =>
      let tableName :=
        if String.eqb (oba_Type orderBy) "string" then Some "string_attributes"
        else if String.eqb (oba_Type orderBy) "numeric" then Some "numeric_attributes"
        else None in
      match tableName with
      | None => None
      | Some tableName =>
          let sortingTable := ("arkiv_annotation_sorting" ++ decimal (N.of_nat i))%string in
          let (keyPlaceholder, b1) := pushArgument b (AString (oba_Name orderBy)) in
          orderByJoins (S i) r
            (WriteString b1
               (" LEFT JOIN " ++ tableName ++ " AS " ++ sortingTable
                ++ " ON " ++ sortingTable ++ ".entity_key = e.entity_key"
                ++ " AND " ++ sortingTable ++ ".from_block = e.from_block"
                ++ " AND " ++ sortingTable ++ ".key = " ++ keyPlaceholder)%string)
      end
  end.

Definition orderColumn (o : OrderBy) : string :=
  (Name (ob_Column o) ++ (if ob_Descending o then " DESC" else EmptyString))%string.

(** ** [TablesEvaluator.EvaluateAST] *)

Definition EvaluateAST (ast : AST) (opts : QueryOptions)
  : result (errorOr SelectQuery) :=
  let builder := mkQueryBuilder EmptyString [] 0 0 false true opts EmptyString in
  selected <-
    match ast_Expr ast with
    | Some expr =>
        p <- EvaluateExpr expr builder ;;
        let (keys, b1) := p in
        Ok (WriteString b1
              (strings_Join
                 [" SELECT"; columnString opts; "FROM"; keys;
                  "AS keys INNER JOIN payloads AS e INDEXED BY payloads_entity_key_index ON keys.entity_key = e.entity_key AND keys.from_block = e.from_block"]
                 " "))
    | None =>
        Ok (WriteString builder
              (strings_Join ["SELECT"; columnString opts; "FROM payloads AS e"] " "))
    end ;;
  match orderByJoins 0 (OrderByAnnotations opts) selected with
  | None => Ok (Failed ErrOrderByType)
  | Some joined =>
      match addPaginationArguments joined with
      | (_, Some _) => Ok (Failed ErrPagination)
      | (paged, None) =>
          let b1 := writeWhereOrAnd paged in
          let (blockArg, b2) := pushArgument b1 (AUint64 (AtBlock (options b1))) in
          let b3 :=
            WriteString b2 (blockArg ++ " BETWEEN e.from_block AND e.to_block - 1")%string in
          let b4 := WriteString b3 " ORDER BY " in
          let b5 :=
            WriteString b4 (strings_Join (map orderColumn (opt_OrderBy (options b4))) ", ") in
          let b6 := WriteString b5 (" LIMIT " ++ decimal QueryResultCountLimit)%string in
          Ok (Returned (mkSelectQuery (queryBuilder b6) (args b6)))
      end
  end.

End Emitter.

(** ** [NewQueryOptions] *)

Record InternalQueryOptions : Type := mkInternalQueryOptions
  { iq_AtBlock : option N;
    iq_IncludeData : IncludeData;
    iq_OrderBy : list OrderByAnnotation;
    iq_Cursor : string }.

(** [slices.SortFunc(queryOptions.Columns, Column.Compare)]: the names are
    distinct, so the sorted slice is the one that insertion yields. *)
Fixpoint insert_by_name (c : Column) (l : list Column) : list Column :=
  match l with
  | [] => [c]
  | d :: r =>
      match String.compare (Name c) (Name d) with
      | Gt => d :: insert_by_name c r
      | _ => c :: l
      end
  end.

Definition SortColumns (l : list Column) : list Column :=
  fold_right insert_by_name [] l.

Definition sortingColumn (i : nat) : Column :=
  mkColumn ("arkiv_annotation_sorting" ++ decimal (N.of_nat i) ++ "_value")%string
    ("arkiv_annotation_sorting" ++ decimal (N.of_nat i) ++ ".value")%string false.

Definition included (flag : bool) (cols : list Column) : list Column :=
  if flag then cols else [].

Definition resolvedColumns (inc : IncludeData) (orderBy : list OrderByAnnotation)
  : list Column :=
  [mkColumn "from_block" "e.from_block" false;
   mkColumn "entity_key" "e.entity_key" true]
  ++ included (inc_Payload inc) [mkColumn "payload" "e.payload" false]
  ++ included (inc_ContentType inc) [mkColumn "content_type" "e.content_type" false]
  ++ included (inc_Attributes inc)
       [mkColumn "string_attributes" "e.string_attributes" false;
        mkColumn "numeric_attributes" "e.numeric_attributes" false]
  ++ map sortingColumn (seq 0 (length orderBy))
  ++ included (inc_Owner inc) [mkColumn "owner" "ownerAttrs.Value" false]
  ++ included (inc_Expiration inc) [mkColumn "expires_at" "expirationAttrs.Value" false]
  ++ included (inc_CreatedAtBlock inc)
       [mkColumn "created_at_block" "createdAtBlockAttrs.Value" false]
  ++ included
       (inc_LastModifiedAtBlock inc || inc_TransactionIndexInBlock inc
        || inc_OperationIndexInTransaction inc)
       [mkColumn "sequence" "sequenceAttrs.Value" false].

Fixpoint resolvedOrderBy (i : nat) (annotations : list OrderByAnnotation) : list OrderBy :=
  match annotations with
  | [] =>
      [mkOrderBy (mkColumn "from_block" "e.from_block" false) false;
       mkOrderBy (mkColumn "entity_key" "e.entity_key" true) false]
  | o :: r => mkOrderBy (sortingColumn i) (oba_Descending o) :: resolvedOrderBy (S i) r
  end.

Section Resolver.

Variable json_Marshal_Cursor : Cursor -> option (list byte).
Variable json_Unmarshal : list byte -> option (list any).
Variable base64_DecodeString : string -> option (list byte).
Variable uint64_of_unrepresentable : float64 -> N.
Variable int_of_unrepresentable : float64 -> Z.

Definition NewQueryOptions (latestHead : N) (options : InternalQueryOptions)
  : result (errorOr QueryOptions) :=
  let columns :=
    SortColumns (resolvedColumns (iq_IncludeData options) (iq_OrderBy options)) in
  let orderBy := resolvedOrderBy 0 (iq_OrderBy options) in
  let queryOptions :=
    mkQueryOptions latestHead (iq_IncludeData options) columns orderBy
      (iq_OrderBy options) [] in
  let override (q : QueryOptions) : QueryOptions :=
    match iq_AtBlock options with
    | Some atBlock =>
        mkQueryOptions atBlock (opt_IncludeData q) (Columns q) (opt_OrderBy q)
          (OrderByAnnotations q) (opt_Cursor q)
    | None => q
    end in
  if String.length (iq_Cursor options) =? 0 then Ok (Returned (override queryOptions))
  else
    decoded <- DecodeCursor json_Marshal_Cursor json_Unmarshal base64_DecodeString
                 uint64_of_unrepresentable int_of_unrepresentable queryOptions
                 (iq_Cursor options) ;;
    match decoded with
    | Failed e => Ok (Failed e)
    | Returned None => Panic nil_deref
    | Returned (Some cursor) =>
        Ok (Returned
              (override
                 (mkQueryOptions (BlockNumber cursor) (iq_IncludeData options) columns
                    orderBy (iq_OrderBy options) (ColumnValues cursor))))
    end.

End Resolver.

(** ** The keyset predicate, as a structure

    The text that [addPaginationArguments] writes is the rendering of a
    disjunction of conjunctions of comparisons of a column with a
    placeholder. *)

Inductive Operator : Type := OpEq | OpLt | OpGt.

Definition operator_text (o : Operator) : string :=
  match o with OpEq => "=" | OpLt => "<" | OpGt => ">" end.

Record Comparison : Type := mkComparison
  { cmp_Column : string; cmp_Operator : Operator; cmp_Placeholder : N }.

Record KeysetColumn : Type := mkKeysetColumn
  { ks_Column : string; ks_Descending : bool }.

Definition placeholder (n : N) : string := ("$" ++ decimal n)%string.

Definition render_Comparison (c : Comparison) : string :=
  (cmp_Column c ++ " " ++ operator_text (cmp_Operator c) ++ " "
   ++ placeholder (cmp_Placeholder c))%string.

Definition render_row (r : list Comparison) : string :=
  ("(" ++ strings_Join (map render_Comparison r) " AND " ++ ")")%string.

Definition render_rows (rows : list (list Comparison)) : string :=
  strings_Join (map render_row rows) " OR ".

Definition direction (d : bool) : Operator := if d then OpLt else OpGt.

(** [(c1 OP1 $k) OR (c1 = $k AND c2 OP2 $k+1) OR ...]: [equalities] are the
    comparisons [c = $n] of the columns already passed. *)
Fixpoint keyset_rows (equalities : list Comparison) (cols : list KeysetColumn)
  (k : N) : list (list Comparison) :=
  match cols with
  | [] => []
  | c :: r =>
      (equalities ++ [mkComparison (ks_Column c) (direction (ks_Descending c)) k])
        :: keyset_rows (equalities ++ [mkComparison (ks_Column c) OpEq k]) r (k + 1)%N
  end.

(** The row of [keyset_rows] at distance [d]: equalities on the first [d]
    columns, then the comparison in the direction of the next one. *)
Fixpoint row_upto (d : nat) (cols : list KeysetColumn) (k : N) {struct cols}
  : list Comparison :=
  match cols with
  | [] => []
  | c :: r =>
      match d with
      | 0 => [mkComparison (ks_Column c) (direction (ks_Descending c)) k]
      | S d' => mkComparison (ks_Column c) OpEq k :: row_upto d' r (k + 1)%N
      end
  end.

(** [$k], [$k+1], ... *)
Fixpoint placeholders_from (k : N) (n : nat) : list string :=
  match n with
  | 0 => []
  | S n' => placeholder k :: placeholders_from (k + 1)%N n'
  end.

(** The qualified column and the direction of each cursor value; [None] when
    a column name is unknown. *)
Fixpoint keyset_columns (opts : QueryOptions) (cursor : list CursorValue)
  : option (list KeysetColumn) :=
  match cursor with
  | [] => Some []
  | c :: r =>
      match lookupColumn opts (ColumnName c), keyset_columns opts r with
      | Some column, Some l => Some (mkKeysetColumn (QualifiedName column) (Descending c) :: l)
      | _, _ => None
      end
  end.

Section KeysetSemantics.

(** The values of a result row, by qualified column, and the outcome of
    comparing one of them with an argument of the statement. *)
Variable V : Type.
Variable compare_value : V -> any -> comparison.
Variable row : string -> V.

(** [$n] is the [n]-th argument. *)
Definition argument (arguments : list any) (n : N) : option any :=
  match n with
  | 0%N => None
  | _ => nth_error arguments (N.to_nat n - 1)
  end.

Definition holds_Comparison (arguments : list any) (c : Comparison) : bool :=
  match argument arguments (cmp_Placeholder c) with
  | Some v =>
      match cmp_Operator c, compare_value (row (cmp_Column c)) v with
      | OpEq, Eq => true
      | OpLt, Lt => true
      | OpGt, Gt => true
      | _, _ => false
      end
  | None => false
  end.

Definition holds_rows (arguments : list any) (rows : list (list Comparison)) : bool :=
  existsb (forallb (holds_Comparison arguments)) rows.

(** The row comes strictly after the cursor in the lexicographic order of the
    columns, each read in its direction: at the first column where they
    differ, the row is greater (ascending) or smaller (descending). *)
Fixpoint succeeds (cols : list KeysetColumn) (values : list any) : bool :=
  match cols, values with
  | c :: cols', v :: values' =>
      match compare_value (row (ks_Column c)) v with
      | Eq => succeeds cols' values'
      | Lt => ks_Descending c
      | Gt => negb (ks_Descending c)
      end
  | _, _ => false
  end.

End KeysetSemantics.

(** The invariant of a builder whose counter has not wrapped. *)
Definition counts_arguments (b : QueryBuilder) : Prop :=
  argsCount b = N.of_nat (length (args b)).

(** A builder on [plain_options] that has scenario 8's cursor. *)
Definition scenario_builder : QueryBuilder :=
  mkQueryBuilder "SELECT 1 FROM payloads AS e" [] 0 0 false true
    (mkQueryOptions 10 no_IncludeData (Columns plain_options) (opt_OrderBy plain_options)
       [] (ColumnValues scenario_cursor))
    EmptyString.

(** The same builder without a cursor. *)
Definition plain_builder : QueryBuilder :=
  mkQueryBuilder "SELECT 1 FROM payloads AS e" [] 0 0 false true plain_options
    EmptyString.

(** The statement that the specification gives for [$all], for a selection
    [cols] and a placeholder. *)
Definition all_statement (cols placeholder : string) : string :=
  ("SELECT " ++ cols ++ " FROM payloads AS e WHERE " ++ placeholder
   ++ " BETWEEN e.from_block AND e.to_block - 1 ORDER BY from_block, entity_key LIMIT 200")%string.

(* ================================================================== *)
(** * Further notions: columns, cursors and statements *)
(* ================================================================== *)

(** ** Reading back what [%d] wrote *)

(** The number written by the leading decimal digits of [s], continuing
    from [a]. *)
Fixpoint read_digits (s : string) (a : N) : N :=
  match s with
  | EmptyString => a
  | String c r => if is_digit c then read_digits r (10 * a + N_of_digit c)%N else a
  end.

Fixpoint drop_chars (n : nat) (s : string) : string :=
  match n, s with
  | S n', String _ r => drop_chars n' r
  | _, _ => s
  end.

(** The index [i] in the name [arkiv_annotation_sorting<i>_value]. *)
Definition sorting_index (name : string) : N := read_digits (drop_chars 24 name) 0.

Definition starts_with_a (name : string) : bool :=
  match name with
  | String c _ => Ascii.eqb c (ascii_of_N 97)
  | EmptyString => false
  end.

(** ** The columns that [NewQueryOptions] appends *)

(** Before and after the columns of the order-by annotations. *)
Definition columns_before (inc : IncludeData) : list Column :=
  [mkColumn "from_block" "e.from_block" false;
   mkColumn "entity_key" "e.entity_key" true]
  ++ included (inc_Payload inc) [mkColumn "payload" "e.payload" false]
  ++ included (inc_ContentType inc) [mkColumn "content_type" "e.content_type" false]
  ++ included (inc_Attributes inc)
       [mkColumn "string_attributes" "e.string_attributes" false;
        mkColumn "numeric_attributes" "e.numeric_attributes" false].

Definition columns_after (inc : IncludeData) : list Column :=
  included (inc_Owner inc) [mkColumn "owner" "ownerAttrs.Value" false]
  ++ included (inc_Expiration inc) [mkColumn "expires_at" "expirationAttrs.Value" false]
  ++ included (inc_CreatedAtBlock inc)
       [mkColumn "created_at_block" "createdAtBlockAttrs.Value" false]
  ++ included
       (inc_LastModifiedAtBlock inc || inc_TransactionIndexInBlock inc
        || inc_OperationIndexInTransaction inc)
       [mkColumn "sequence" "sequenceAttrs.Value" false].

(** A list of strings without repetition, decided. *)
Fixpoint distinct_strings (l : list string) : bool :=
  match l with
  | [] => true
  | x :: r => negb (existsb (String.eqb x) r) && distinct_strings r
  end.

(** The column of a cursor value is one of [Columns]; a value of a byte
    column is a byte slice. *)
Definition known_column (opts : QueryOptions) (c : CursorValue) : Prop :=
  exists ix col,
    nth_error (Columns opts) ix = Some col /\ Name col = ColumnName c
    /\ (IsBytes col = true -> exists b, cv_Value c = ABytes b).

(** The type of an order-by annotation is one that the emitters accept. *)
Definition annotation_typed (o : OrderByAnnotation) : bool :=
  String.eqb (oba_Type o) "string" || String.eqb (oba_Type o) "numeric".

(** ** Requests and cursors used as examples *)

(** A request for the payload, ordered by the numeric annotation [price],
    descending. *)
Definition priced_request : InternalQueryOptions :=
  mkInternalQueryOptions None
    (mkIncludeData false false false true false false false false false false false)
    [mkOrderByAnnotation "price" "numeric" true] EmptyString.

(** The options resolved from [priced_request] at head block 7. *)
Definition priced_options : QueryOptions :=
  mkQueryOptions 7
    (mkIncludeData false false false true false false false false false false false)
    [sortingColumn 0; entity_key_column; from_block_column;
     mkColumn "payload" "e.payload" false]
    [mkOrderBy (sortingColumn 0) true; mkOrderBy from_block_column false;
     mkOrderBy entity_key_column false]
    [mkOrderByAnnotation "price" "numeric" true] [].

(** A request ordered by two annotations, the first descending, and the
    options resolved from it at head block 7. *)
Definition ranked_request : InternalQueryOptions :=
  mkInternalQueryOptions None
    (mkIncludeData false false false true false false false false false false false)
    [mkOrderByAnnotation "price" "numeric" true;
     mkOrderByAnnotation "name" "string" false] EmptyString.

Definition ranked_options : QueryOptions :=
  mkQueryOptions 7
    (mkIncludeData false false false true false false false false false false false)
    [sortingColumn 0; sortingColumn 1; entity_key_column; from_block_column;
     mkColumn "payload" "e.payload" false]
    [mkOrderBy (sortingColumn 0) true; mkOrderBy (sortingColumn 1) false;
     mkOrderBy from_block_column false; mkOrderBy entity_key_column false]
    [mkOrderByAnnotation "price" "numeric" true;
     mkOrderByAnnotation "name" "string" false] [].

(** The request of the next page of scenario 8, and the options resolved
    from it. *)
Definition scenario_request : InternalQueryOptions :=
  mkInternalQueryOptions None no_IncludeData []
    "5b31302c312c34322c302c302c223371303d222c305d".

Definition scenario_options : QueryOptions :=
  mkQueryOptions 10 no_IncludeData (Columns plain_options) (opt_OrderBy plain_options)
    [] (ColumnValues scenario_cursor).

(** A cursor on a column that [plain_options] does not select. *)
Definition payload_cursor : Cursor :=
  mkCursor 3 [mkCursorValue "payload" (AString "x") false].

Definition example_NewQueryOptions
  : N -> InternalQueryOptions -> result (errorOr QueryOptions) :=
  NewQueryOptions example_json_Marshal_Cursor example_json_Unmarshal
    std_base64_DecodeString (fun _ => 0%N) (fun _ => 0%Z).

(** A cursor on the order-by columns of [priced_options]. *)
Definition priced_cursor : Cursor :=
  mkCursor 7
    [mkCursorValue "arkiv_annotation_sorting0_value" (AFloat64 (float64_of_Z 5)) true;
     mkCursorValue "from_block" (AFloat64 (float64_of_Z 3)) false;
     mkCursorValue "entity_key" (ABytes [xde; xad]) false].

(** ** What a step of an emitter leaves as it is *)

(** The options, the dialect and the [WHERE] flag of the builder. *)
Definition frame (b b' : QueryBuilder) : Prop :=
  options b' = options b /\ needsWhere b' = needsWhere b
  /\ sqlDialect b' = sqlDialect b.

(** The normal form of [a = 1 && b = 2]. *)
Definition a_and_b_ast : AST :=
  mkAST (Some (mkASTExpr (mkASTOr
    [mkASTAnd [TAssign (mkEquality "a" false (VNumber 1));
               TAssign (mkEquality "b" false (VNumber 2))]]))).

(** ** A filter and an assignment used as examples *)

(** [$owner = "0xAB" || !(a = 2)] *)
Definition owner_or_not_a : Expression :=
  mkExpression
    (mkOrExpression
       (mkAndExpression (EAssign (mkEquality "$owner" false (VString "0xAB"))) [])
       [mkOrRHS
          (mkAndExpression
             (EParen (mkParen true
                (single (EAssign (mkEquality "a" false (VNumber 2))))))
             [])]).

(** The entity whose owner is [0xab], in any case, and whose attribute [a]
    is 1. *)
Definition owner_is_ab : Assignment :=
  mkAssignment
    (fun v x =>
       match x with
       | VString s => String.eqb v "$owner" && String.eqb (ToLower_ascii s) "0xab"
       | VNumber n => String.eqb v "a" && N.eqb n 1
       end)
    (fun _ _ => false) (fun _ _ => false) (fun _ _ => false) (fun _ _ => false).

(** [!(a = 1 || $key = 1)] *)
Definition not_a_or_key : Expression :=
  single
    (EParen (mkParen true
       (mkExpression
          (mkOrExpression
             (mkAndExpression (EAssign (mkEquality "a" false (VNumber 1))) [])
             [mkOrRHS
                (mkAndExpression (EAssign (mkEquality "$key" false (VNumber 1))) [])])))).

(* ================================================================== *)
(** * The EXISTS emitter *)
(* ================================================================== *)

(** The text that [addTermConditions] writes for a term, from the
    placeholders of its key and its value. *)
Definition exists_condition (attrType key operation value : string) : string :=
  let attrTable :=
    if String.eqb attrType "numeric" then "numeric_attributes"
    else "string_attributes" in
  let attrIndex :=
    if String.eqb attrType "numeric" then "numeric_attributes_entity_kv_idx"
    else "string_attributes_entity_kv_idx" in
  strings_Join
    ["EXISTS ("; "SELECT 1"; "FROM"; attrTable; "AS a"; "INDEXED BY"; attrIndex;
     "WHERE"; "a.entity_key = e.entity_key"; "AND a.from_block = e.from_block";
     "AND a.key ="; key; "AND a.value"; operation; value; ")"]
    " ".

(** The branches of [addTermConditions] for a comparison with one literal:
    the key is pushed first, then the literal. *)
Definition addComparison (operation var : string) (value : Value) (b : QueryBuilder)
  : QueryBuilder :=
  let (key, b1) := pushArgument b (AString var) in
  let '(attrType, valArg, b2) := pushValue b1 value in
  WriteString b2 (exists_condition attrType key operation valArg).

Section ExistsEmitter.

Variable ToLower : string -> string.

(** The values that an inclusion pushes: the strings when there are some
    (lower-cased for [$owner], [$creator] and [$key]), the numbers
    otherwise. *)
Definition inclusion_arguments (e : Inclusion) : list any :=
  if 0 <? length (Strings (in_Values e)) then
    map (fun value =>
           if String.eqb (in_Var e) OwnerAttributeKey
              || String.eqb (in_Var e) CreatorAttributeKey
              || String.eqb (in_Var e) KeyAttributeKey
           then AString (ToLower value) else AString value)
      (Strings (in_Values e))
  else map AUint64 (Numbers (in_Values e)).

Definition inclusion_type (e : Inclusion) : string :=
  if 0 <? length (Strings (in_Values e)) then "string" else "numeric".

(** [addTermConditions]. An [ASTTerm] holds exactly one leaf, so the final
    [else] of the source, the error of an unnormalised expression, has no
    case here. *)
Definition addTermConditions (term : ASTTerm) (b : QueryBuilder) : QueryBuilder :=
  match term with
  | TAssign e =>
      addComparison (if eq_IsNot e then "!=" else "=") (eq_Var e) (eq_Value e) b
  | TInclusion e =>
      let (key, b1) := pushArgument b (AString (in_Var e)) in
      let (values, b2) := pushArguments b1 (inclusion_arguments e) in
      let paramStr := strings_Join values ", " in
      WriteString b2
        (exists_condition (inclusion_type e) key
           (if in_IsNot e then "NOT IN" else "IN") ("(" ++ paramStr ++ ")")%string)
  | TLessThan e => addComparison "<" (lt_Var e) (lt_Value e) b
  | TLessOrEqualThan e => addComparison "<=" (le_Var e) (le_Value e) b
  | TGreaterThan e => addComparison ">" (gt_Var e) (gt_Value e) b
  | TGreaterOrEqualThan e => addComparison ">=" (ge_Var e) (ge_Value e) b
  | TGlob e =>
      let (key, b1) := pushArgument b (AString (glob_Var e)) in
      let (value, b2) := pushArgument b1 (AString (glob_Value e)) in
      WriteString b2
        (exists_condition "string" key (if glob_IsNot e then "NOT GLOB" else "GLOB")
           value)
  end.

(** The loop of [addAndConditions] over [Terms[1:]]. *)
Fixpoint addMoreTerms (rest : list ASTTerm) (b : QueryBuilder) : QueryBuilder :=
  match rest with
  | [] => b
  | r :: rest' => addMoreTerms rest' (addTermConditions r (WriteString b " AND "))
  end.

Definition addAndConditions (expr : ASTAnd) (b : QueryBuilder) : result QueryBuilder :=
  match and_Terms expr with
  | [] => Panic index_out_of_range_0
  | t :: rest => Ok (addMoreTerms rest (addTermConditions t b))
  end.

(** The loop of [addOrConditions] over [Terms[1:]]. *)
Fixpoint addMoreConjunctions (rest : list ASTAnd) (b : QueryBuilder)
  : result QueryBuilder :=
  match rest with
  | [] => Ok b
  | r :: rest' =>
      b1 <- addAndConditions r (WriteString b ") OR (") ;;
      addMoreConjunctions rest' b1
  end.

Definition addOrConditions (expr : ASTOr) (b : QueryBuilder) : result QueryBuilder :=
  match or_Terms expr with
  | [] => Panic index_out_of_range_0
  | t :: rest =>
      b1 <- addAndConditions t (WriteString b " AND (") ;;
      b2 <- addMoreConjunctions rest b1 ;;
      Ok (WriteString b2 ")")
  end.

(** The joins of the order-by annotations, with the index that the EXISTS
    strategy names. *)
Fixpoint orderByJoins_indexed (i : nat) (annotations : list OrderByAnnotation)
  (b : QueryBuilder) : option QueryBuilder :=
  match annotations with
  | [] => Some b
  | orderBy :: r =>
      let tables :=
        if String.eqb (oba_Type orderBy) "string"
        then Some ("string_attributes", "string_attributes_entity_kv_idx")
        else if String.eqb (oba_Type orderBy) "numeric"
             then Some ("numeric_attributes", "numeric_attributes_entity_kv_idx")
             else None in
      match tables with
      | None => None
      | Some (tableName, indexName) =>
          let sortingTable := ("arkiv_annotation_sorting" ++ decimal (N.of_nat i))%string in
          let (keyPlaceholder, b1) := pushArgument b (AString (oba_Name orderBy)) in
          orderByJoins_indexed (S i) r
            (WriteString b1
               (" LEFT JOIN " ++ tableName ++ " AS " ++ sortingTable
                ++ " INDEXED BY " ++ indexName
                ++ " ON " ++ sortingTable ++ ".entity_key = e.entity_key"
                ++ " AND " ++ sortingTable ++ ".from_block = e.from_block"
                ++ " AND " ++ sortingTable ++ ".key = " ++ keyPlaceholder)%string)
      end
  end.

(** [ExistsEvaluator.EvaluateAST] *)
Definition Exists_EvaluateAST (ast : AST) (opts : QueryOptions)
  : result (errorOr SelectQuery) :=
  let builder := mkQueryBuilder EmptyString [] 0 0 false true opts EmptyString in
  let selected :=
    WriteString builder
      (strings_Join ["SELECT"; columnString opts; "FROM payloads AS e"] " ") in
  match orderByJoins_indexed 0 (OrderByAnnotations opts) selected with
  | None => Ok (Failed ErrOrderByType)
  | Some joined =>
      match addPaginationArguments joined with
      | (_, Some _) => Ok (Failed ErrPagination)
      | (paged, None) =>
          let b1 := writeWhereOrAnd paged in
          let (blockArg, b2) := pushArgument b1 (AUint64 (AtBlock (options b1))) in
          let b3 :=
            WriteString b2 (blockArg ++ " BETWEEN e.from_block AND e.to_block - 1")%string in
          filtered <-
            match ast_Expr ast with
            | Some expr => addOrConditions (ast_Or expr) b3
            | None => Ok b3
            end ;;
          let b4 := WriteString filtered " ORDER BY " in
          let b5 :=
            WriteString b4 (strings_Join (map orderColumn (opt_OrderBy (options b4))) ", ") in
          let b6 := WriteString b5 (" LIMIT " ++ decimal QueryResultCountLimit)%string in
          Ok (Returned (mkSelectQuery (queryBuilder b6) (args b6)))
      end
  end.

End ExistsEmitter.

(** ** The text and the arguments of the EXISTS conditions, in closed form *)

(** The argument counter after [n] more arguments. *)
Fixpoint advance (c : N) (n : nat) : N :=
  match n with
  | 0 => c
  | S n' => advance (uint32_succ c) n'
  end.

(** The placeholders of the [n] arguments pushed after counter [c]. *)
Fixpoint placeholders_after (c : N) (n : nat) : list string :=
  match n with
  | 0 => []
  | S n' => placeholder (uint32_succ c) :: placeholders_after (uint32_succ c) n'
  end.

(** A builder that has written [text] and pushed [arguments]. *)
Definition extend (b : QueryBuilder) (text : string) (arguments : list any)
  : QueryBuilder :=
  mkQueryBuilder (queryBuilder b ++ text)%string (args b ++ arguments)
    (advance (argsCount b) (length arguments)) (tableCounter b) (needsComma b)
    (needsWhere b) (options b) (sqlDialect b).

Definition value_argument (v : Value) : any :=
  match v with VString s => AString s | VNumber n => AUint64 n end.

Definition value_type (v : Value) : string :=
  match v with VString _ => "string" | VNumber _ => "numeric" end.

Section ExistsText.

Variable ToLower : string -> string.

(** The arguments of a term, in the order in which they are pushed. *)
Definition term_arguments (t : ASTTerm) : list any :=
  match t with
  | TAssign e => [AString (eq_Var e); value_argument (eq_Value e)]
  | TInclusion e => AString (in_Var e) :: inclusion_arguments ToLower e
  | TLessThan e => [AString (lt_Var e); value_argument (lt_Value e)]
  | TLessOrEqualThan e => [AString (le_Var e); value_argument (le_Value e)]
  | TGreaterThan e => [AString (gt_Var e); value_argument (gt_Value e)]
  | TGreaterOrEqualThan e => [AString (ge_Var e); value_argument (ge_Value e)]
  | TGlob e => [AString (glob_Var e); AString (glob_Value e)]
  end.

Definition comparison_condition (operation : string) (value : Value) (c : N) : string :=
  exists_condition (value_type value) (placeholder (advance c 1)) operation
    (placeholder (advance c 2)).

(** The condition of a term whose arguments come after counter [c]. *)
Definition term_condition (t : ASTTerm) (c : N) : string :=
  match t with
  | TAssign e =>
      comparison_condition (if eq_IsNot e then "!=" else "=") (eq_Value e) c
  | TInclusion e =>
      exists_condition (inclusion_type e) (placeholder (advance c 1))
        (if in_IsNot e then "NOT IN" else "IN")
        ("(" ++ strings_Join
                  (placeholders_after (advance c 1)
                     (length (inclusion_arguments ToLower e))) ", "
         ++ ")")%string
  | TLessThan e => comparison_condition "<" (lt_Value e) c
  | TLessOrEqualThan e => comparison_condition "<=" (le_Value e) c
  | TGreaterThan e => comparison_condition ">" (gt_Value e) c
  | TGreaterOrEqualThan e => comparison_condition ">=" (ge_Value e) c
  | TGlob e =>
      exists_condition "string" (placeholder (advance c 1))
        (if glob_IsNot e then "NOT GLOB" else "GLOB") (placeholder (advance c 2))
  end.

Fixpoint condition_texts (terms : list ASTTerm) (c : N) : list string :=
  match terms with
  | [] => []
  | t :: r =>
      term_condition t c :: condition_texts r (advance c (length (term_arguments t)))
  end.

Definition conjunction_arguments (a : ASTAnd) : list any :=
  flat_map term_arguments (and_Terms a).

(** [c1 AND c2 AND ...] *)
Definition conjunction_text (a : ASTAnd) (c : N) : string :=
  strings_Join (condition_texts (and_Terms a) c) " AND ".

Fixpoint disjunction_texts (l : list ASTAnd) (c : N) : list string :=
  match l with
  | [] => []
  | a :: r =>
      conjunction_text a c
        :: disjunction_texts r (advance c (length (conjunction_arguments a)))
  end.

(** What [addOrConditions] appends: every conjunction in parentheses of its
    own, the disjunction as a whole in none. *)
Definition disjunction_text (x : ASTOr) (c : N) : string :=
  (" AND (" ++ strings_Join (disjunction_texts (or_Terms x) c) ") OR (" ++ ")")%string.

Definition disjunction_arguments (x : ASTOr) : list any :=
  flat_map conjunction_arguments (or_Terms x).

End ExistsText.

(** Every element of [l] after the separator [sep]. *)
Fixpoint prefixed (sep : string) (l : list string) : string :=
  match l with
  | [] => EmptyString
  | x :: r => (sep ++ x ++ prefixed sep r)%string
  end.

(** The counter of a builder that started empty: it has advanced once per
    argument. *)
Definition counted (b : QueryBuilder) : Prop :=
  argsCount b = advance 0 (length (args b)).

(** The end of a statement: the order and the limit. *)
Definition order_and_limit (opts : QueryOptions) : string :=
  (" ORDER BY " ++ strings_Join (map orderColumn (opt_OrderBy opts)) ", "
   ++ " LIMIT " ++ decimal QueryResultCountLimit)%string.

(** The normal form of [a = 1 || b = "x"]. *)
Definition a_or_b_expr : ASTExpr :=
  mkASTExpr (mkASTOr
    [mkASTAnd [TAssign (mkEquality "a" false (VNumber 1))];
     mkASTAnd [TAssign (mkEquality "b" false (VString "x"))]]).

(* ================================================================== *)
(** * [store.Uint64] *)
(* ================================================================== *)

(** The errors of [Scan], by the message of the source. *)
Inductive ScanError : Type :=
| ErrScanNegative      (* "cannot scan negative value %d into Uint64" *)
| ErrScanFloatRange    (* "value %f out of range for Uint64" *)
| ErrScanParse         (* "cannot parse %q as Uint64" *)
| ErrScanRange         (* "value %s out of range for Uint64" *)
| ErrScanType.         (* "cannot scan type %T into Uint64" *)

(** What [Scan] leaves in the receiver, or its error. *)
Inductive scanned : Type :=
| Scanned (u : N)
| ScanFailed (e : ScanError).

Definition MaxUint64 : Z := (2 ^ 64 - 1)%Z.

Section Scan.

(** [SetString(s, 10)] of [big.Int]; [None] when the text is not a decimal
    integer. *)
Variable big_SetString : string -> option Z.
Variable uint64_of_unrepresentable : float64 -> N.

(** The branches for a string and for a byte slice. *)
Definition scan_decimal (v : string) : scanned :=
  match big_SetString v with
  | None => ScanFailed ErrScanParse
  | Some bi =>
      if ((bi <? 0) || (MaxUint64 <? bi))%Z then ScanFailed ErrScanRange
      else Scanned (Z.to_N bi)
  end.

(** [Scan]. An [int64] is held by [AInt64]; the comparison of the float
    with the bound is the one of IEEE 754, false on a NaN. *)
Definition Uint64_Scan (src : any) : scanned :=
  match src with
  | ANil => Scanned 0
  | AInt64 v => if (v <? 0)%Z then ScanFailed ErrScanNegative else Scanned (Z.to_N v)
  | AFloat64 v =>
      if SFltb v (S754_zero false) || SFltb (float64_of_Z MaxUint64) v
      then ScanFailed ErrScanFloatRange
      else Scanned (uint64_of_float64 uint64_of_unrepresentable v)
  | AString v => scan_decimal v
  | ABytes v => scan_decimal (string_of_list_byte v)
  | _ => ScanFailed ErrScanType
  end.

End Scan.

(** [Value]: [int64(u)], which wraps from [2 ^ 63] on. *)
Definition Uint64_Value (u : N) : Z :=
  if (u <? 2 ^ 63)%N then Z.of_N u else (Z.of_N u - 2 ^ 64)%Z.

(* ================================================================== *)
(** * The common table expressions, as a structure *)
(* ================================================================== *)

Inductive SetOperator : Type := Intersect | Union.

Definition set_operator_text (o : SetOperator) : string :=
  match o with Intersect => " INTERSECT " | Union => " UNION " end.

(** A table is a leaf, the rows of one term whose arguments come after
    counter [c], or the combination of two tables defined before it. *)
Inductive TableBody : Type :=
| BLeaf (t : ASTTerm) (c : N)
| BCombine (o : SetOperator) (left right : string).

Record TableDef : Type := mkTableDef { td_name : string; td_body : TableBody }.

Definition table_name (k : N) : string := ("table_" ++ decimal k)%string.

(** The query of [createAnnotationQuery]. *)
Definition annotation_query (attributeType whereClause blockArg : string) : string :=
  strings_Join
    ["SELECT a.entity_key, a.from_block FROM";
     (if String.eqb attributeType "numeric" then "numeric_attributes"
      else "string_attributes");
     "AS a";
     "WHERE";
     whereClause;
     ("AND " ++ blockArg ++ " BETWEEN a.from_block AND a.to_block - 1")%string]
    " ".

Definition comparison_query (operator : string) (value : Value) (c : N) : string :=
  annotation_query (value_type value)
    ("a.key = " ++ placeholder (advance c 1) ++ " AND a.value " ++ operator ++ " "
     ++ placeholder (advance c 2))
    (placeholder (advance c 3)).

Section TablesText.

Variable ToLower : string -> string.
Variable atBlock : N.

(** The arguments of the leaf of a term, in the order in which the CTE
    strategy pushes them: an inclusion pushes its values before its key;
    every leaf ends with the block. *)
Definition leaf_arguments (t : ASTTerm) : list any :=
  match t with
  | TAssign e => [AString (eq_Var e); value_argument (eq_Value e); AUint64 atBlock]
  | TInclusion e =>
      inclusion_arguments ToLower e ++ [AString (in_Var e); AUint64 atBlock]
  | TLessThan e => [AString (lt_Var e); value_argument (lt_Value e); AUint64 atBlock]
  | TLessOrEqualThan e =>
      [AString (le_Var e); value_argument (le_Value e); AUint64 atBlock]
  | TGreaterThan e => [AString (gt_Var e); value_argument (gt_Value e); AUint64 atBlock]
  | TGreaterOrEqualThan e =>
      [AString (ge_Var e); value_argument (ge_Value e); AUint64 atBlock]
  | TGlob e => [AString (glob_Var e); AString (glob_Value e); AUint64 atBlock]
  end.

(** The query of the leaf of a term whose arguments come after counter
    [c]. *)
Definition leaf_query (t : ASTTerm) (c : N) : string :=
  match t with
  | TAssign e => comparison_query (if eq_IsNot e then "!=" else "=") (eq_Value e) c
  | TInclusion e =>
      let n := length (inclusion_arguments ToLower e) in
      let paramStr := strings_Join (placeholders_after c n) ", " in
      annotation_query (inclusion_type e)
        ("a.key = " ++ placeholder (advance c (n + 1)) ++ " AND "
         ++ (if in_IsNot e then "a.value NOT IN (" ++ paramStr ++ ")"
             else "a.value IN (" ++ paramStr ++ ")"))
        (placeholder (advance c (n + 2)))
  | TLessThan e => comparison_query "<" (lt_Value e) c
  | TLessOrEqualThan e => comparison_query "<=" (le_Value e) c
  | TGreaterThan e => comparison_query ">" (gt_Value e) c
  | TGreaterOrEqualThan e => comparison_query ">=" (ge_Value e) c
  | TGlob e =>
      annotation_query "string"
        ("a.key = " ++ placeholder (advance c 1) ++ " AND a.value "
         ++ (if glob_IsNot e then "NOT GLOB" else "GLOB") ++ " "
         ++ placeholder (advance c 2))
        (placeholder (advance c 3))
  end.

Definition render_body (b : TableBody) : string :=
  match b with
  | BLeaf t c => leaf_query t c
  | BCombine o lhs rhs =>
      ("SELECT * FROM " ++ lhs ++ set_operator_text o ++ "SELECT * FROM " ++ rhs)
  end%string.

Definition render_table (d : TableDef) : string :=
  (td_name d ++ " AS (" ++ render_body (td_body d) ++ ")")%string.

(** The tables of [Terms[1:]] of a conjunction: for each term its leaf,
    then the intersection of the running result [left] with it. *)
Fixpoint compile_more_terms (rest : list ASTTerm) (left : string) (tc c : N)
  : list TableDef :=
  match rest with
  | [] => []
  | t :: r =>
      let leaf := table_name (advance tc 1) in
      let combined := table_name (advance tc 2) in
      mkTableDef leaf (BLeaf t c)
        :: mkTableDef combined (BCombine Intersect left leaf)
        :: compile_more_terms r combined (advance tc 2)
             (advance c (length (leaf_arguments t)))
  end.

(** The tables of a conjunction, for table counter [tc] and argument counter
    [c]. *)
Definition compile_and (a : ASTAnd) (tc c : N) : list TableDef :=
  match and_Terms a with
  | [] => []
  | t :: rest =>
      mkTableDef (table_name (advance tc 1)) (BLeaf t c)
        :: compile_more_terms rest (table_name (advance tc 1)) (advance tc 1)
             (advance c (length (leaf_arguments t)))
  end.

(** The table that holds the result: the last one defined. *)
Definition last_name (defs : list TableDef) (default : string) : string :=
  last (map td_name defs) default.

Definition and_arguments (a : ASTAnd) : list any :=
  flat_map leaf_arguments (and_Terms a).

(** The tables of [Terms[1:]] of a disjunction: for each conjunction its
    tables, then the union of the running result with its result. *)
Fixpoint compile_more_conjunctions (rest : list ASTAnd) (left : string) (tc c : N)
  : list TableDef :=
  match rest with
  | [] => []
  | a :: r =>
      let tables := compile_and a tc c in
      let tc1 := advance tc (length tables) in
      let combined := table_name (advance tc1 1) in
      tables
        ++ mkTableDef combined (BCombine Union left (last_name tables EmptyString))
        :: compile_more_conjunctions r combined (advance tc1 1)
             (advance c (length (and_arguments a)))
  end.

Definition compile_or (x : ASTOr) (tc c : N) : list TableDef :=
  match or_Terms x with
  | [] => []
  | a :: rest =>
      let tables := compile_and a tc c in
      tables
        ++ compile_more_conjunctions rest (last_name tables EmptyString)
             (advance tc (length tables)) (advance c (length (and_arguments a)))
  end.

Definition or_arguments (x : ASTOr) : list any :=
  flat_map and_arguments (or_Terms x).

(** [WITH t1 AS (...), t2 AS (...), ...] *)
Definition with_clause (defs : list TableDef) : string :=
  ("WITH " ++ strings_Join (map render_table defs) ", ")%string.

End TablesText.

(** ** The rows of the tables *)

Section TablesRows.

(** The truth of the terms at one entity and block. *)
Variable rho : Assignment.

Definition body_rows (env : string -> bool) (b : TableBody) : bool :=
  match b with
  | BLeaf t _ => eval_ASTTerm rho t
  | BCombine Intersect lhs rhs => env lhs && env rhs
  | BCombine Union lhs rhs => env lhs || env rhs
  end.

(** Whether the entity is a row of each table, after the definitions
    [defs], read in order: a later definition of a name hides an earlier
    one. *)
Fixpoint table_rows (defs : list TableDef) (env : string -> bool) : string -> bool :=
  match defs with
  | [] => env
  | d :: r =>
      table_rows r
        (fun n => if String.eqb n (td_name d) then body_rows env (td_body d) else env n)
  end.

End TablesRows.

(** The number of terms of a normal form. *)
Definition term_count (x : ASTOr) : nat :=
  length (flat_map and_Terms (or_Terms x)).

(** ** A builder that has defined tables *)

Section Defined.

Variable ToLower : string -> string.

(** The definitions [defs] after what the builder has written: separated by
    commas, the first one after a comma when [comma] says that one is
    needed. *)
Definition tables_text (comma : bool) (defs : list TableDef) : string :=
  match defs with
  | [] => EmptyString
  | d :: r =>
      ((if comma then ", " else EmptyString) ++ render_table ToLower d
       ++ prefixed ", " (map (render_table ToLower) r))%string
  end.

Definition define (b : QueryBuilder) (defs : list TableDef) (arguments : list any)
  : QueryBuilder :=
  mkQueryBuilder (queryBuilder b ++ tables_text (needsComma b) defs)%string
    (args b ++ arguments)
    (advance (argsCount b) (length arguments))
    (advance (tableCounter b) (length defs))
    (needsComma b || (0 <? length defs))
    (needsWhere b) (options b) (sqlDialect b).

End Defined.

(** The tables are named in the order in which they are defined: the
    [k]-th one, from 0, by the counter advanced [k + 1] times. *)
Definition names_from (tc : N) (defs : list TableDef) : Prop :=
  forall k d, nth_error defs k = Some d -> td_name d = table_name (advance tc (S k)).
(* ================================================================== *)
(** * Properties *)
(* ================================================================== *)

(** ** [invert] *)

Lemma eval_EqualExpr_invert (rho : Assignment) (a : EqualExpr) :
  eval_EqualExpr rho (EqualExpr_invert a) = negb (eval_EqualExpr rho a).
Proof.
  destruct a as [[b n]|a|i|l|l|g|g|g]; simpl;
    unfold eval_Equality, eval_Inclusion, eval_Glob, eval_LessThan,
      eval_LessOrEqualThan, eval_GreaterThan, eval_GreaterOrEqualThan; simpl;
    try rewrite negb_involutive; try reflexivity;
    rewrite negb_xorb_l; reflexivity.
Qed.

Lemma eval_AndExpression_invert (rho : Assignment) (a : AndExpression) :
  eval_OrExpression rho (AndExpression_invert a) = negb (eval_AndExpression rho a).
Proof.
  destruct a as [l r]. unfold AndExpression_invert. simpl.
  rewrite andb_true_r, negb_andb, eval_EqualExpr_invert. f_equal.
  induction r as [|[x] r IH]; simpl; [reflexivity|].
  rewrite andb_true_r, negb_andb, eval_EqualExpr_invert, IH. reflexivity.
Qed.

Lemma eval_wrapped (rho : Assignment) (o : OrExpression) :
  eval_EqualExpr rho (EParen (mkParen false (mkExpression o)))
  = eval_OrExpression rho o.
Proof. reflexivity. Qed.

Lemma eval_OrExpression_invert (rho : Assignment) (o : OrExpression) :
  eval_AndExpression rho (OrExpression_invert o) = negb (eval_OrExpression rho o).
Proof.
  destruct o as [l r]. unfold OrExpression_invert.
  change (eval_EqualExpr rho
            (EParen (mkParen false (mkExpression (AndExpression_invert l))))
          && forallb (eval_AndRHS rho) (map OrRHS_invert r)
          = negb (eval_AndExpression rho l || existsb (eval_OrRHS rho) r)).
  rewrite eval_wrapped, negb_orb, eval_AndExpression_invert. f_equal.
  induction r as [|[x] r IH]; [reflexivity|].
  change (eval_EqualExpr rho
            (EParen (mkParen false (mkExpression (AndExpression_invert x))))
          && forallb (eval_AndRHS rho) (map OrRHS_invert r)
          = negb (eval_AndExpression rho x || existsb (eval_OrRHS rho) r)).
  rewrite eval_wrapped, negb_orb, eval_AndExpression_invert, IH. reflexivity.
Qed.

Lemma Expression_invert_Ok (e : Expression) : Expression_invert e = Ok (inverted e).
Proof.
  destruct e as [[l [|x r]]]; reflexivity.
Qed.

Lemma eval_inverted (rho : Assignment) (e : Expression) :
  eval_Expression rho (inverted e) = negb (eval_Expression rho e).
Proof.
  destruct e as [[l [|x r]]]; unfold inverted; cbn [expr_Or or_Right or_Left].
  - change (eval_OrExpression rho (AndExpression_invert l)
            = negb (eval_AndExpression rho l || false)).
    rewrite orb_false_r. apply eval_AndExpression_invert.
  - change (eval_AndExpression rho (OrExpression_invert (mkOrExpression l (x :: r)))
            || false
            = negb (eval_OrExpression rho (mkOrExpression l (x :: r)))).
    rewrite orb_false_r. apply eval_OrExpression_invert.
Qed.

(** C3. [Invert] returns, for every expression, an expression whose truth
    value under every assignment is the negation of the original's, and it
    is built by De Morgan's laws, one level deep.  The negation of a
    disjunction is the conjunction of the negated disjuncts, each in a
    parenthesis that is not negated, in their order; the negation of a
    conjunction is the disjunction of the negated conjuncts, in their order;
    the negation of an expression that is a single conjunction is the latter
    disjunction itself, and that of any other expression the former
    conjunction.  On a leaf the [IsNot] flag of an equality, a glob or an
    inclusion is flipped, [<] is exchanged with [>=] and [<=] with [>], the
    variable and the literal being kept; a parenthesis has its [IsNot] flag
    flipped and its content kept. *)
Theorem Invert_is_negation (rho : Assignment) :
  (forall e : Expression,
      exists e', Expression_invert e = Ok e'
                 /\ eval_Expression rho e' = negb (eval_Expression rho e))
  /\ (forall o : OrExpression,
        eval_AndExpression rho (OrExpression_invert o)
        = negb (eval_OrExpression rho o))
  /\ (forall a : AndExpression,
        eval_OrExpression rho (AndExpression_invert a)
        = negb (eval_AndExpression rho a))
  /\ (forall a : EqualExpr,
        eval_EqualExpr rho (EqualExpr_invert a) = negb (eval_EqualExpr rho a))
  /\ (forall a : Equality,
        EqualExpr_invert (EAssign a)
        = EAssign (mkEquality (eq_Var a) (negb (eq_IsNot a)) (eq_Value a)))
  /\ (forall g : Glob,
        EqualExpr_invert (EGlob g)
        = EGlob (mkGlob (glob_Var g) (negb (glob_IsNot g)) (glob_Value g)))
  /\ (forall i : Inclusion,
        EqualExpr_invert (EInclusion i)
        = EInclusion (mkInclusion (in_Var i) (negb (in_IsNot i)) (in_Values i)))
  /\ (forall l : LessThan,
        EqualExpr_invert (ELessThan l)
        = EGreaterOrEqualThan (mkGreaterOrEqualThan (lt_Var l) (lt_Value l)))
  /\ (forall g : GreaterOrEqualThan,
        EqualExpr_invert (EGreaterOrEqualThan g)
        = ELessThan (mkLessThan (ge_Var g) (ge_Value g)))
  /\ (forall l : LessOrEqualThan,
        EqualExpr_invert (ELessOrEqualThan l)
        = EGreaterThan (mkGreaterThan (le_Var l) (le_Value l)))
  /\ (forall g : GreaterThan,
        EqualExpr_invert (EGreaterThan g)
        = ELessOrEqualThan (mkLessOrEqualThan (gt_Var g) (gt_Value g)))
  /\ (forall p : Paren,
        EqualExpr_invert (EParen p)
        = EParen (mkParen (negb (paren_IsNot p)) (paren_Nested p)))
  /\ (forall a : AndExpression,
        disjuncts (AndExpression_invert a)
        = map (fun x => mkAndExpression (EqualExpr_invert x) []) (conjuncts a))
  /\ (forall o : OrExpression,
        conjuncts (OrExpression_invert o)
        = map (fun a =>
                 EParen (mkParen false (mkExpression (AndExpression_invert a))))
              (disjuncts o))
  /\ (forall e : Expression,
        Expression_invert e
        = Ok (mkExpression
                match or_Right (expr_Or e) with
                | [] => AndExpression_invert (or_Left (expr_Or e))
                | _ :: _ => mkOrExpression (OrExpression_invert (expr_Or e)) []
                end)).
Proof.
  split.
  { intro e. exists (inverted e). split.
    - apply Expression_invert_Ok.
    - apply eval_inverted. }
  split; [apply eval_OrExpression_invert|].
  split; [apply eval_AndExpression_invert|].
  split; [apply eval_EqualExpr_invert|].
  do 7 (split; [reflexivity|]).
  split; [reflexivity|].
  split.
  { intros [l r]. unfold conjuncts, disjuncts, AndExpression_invert.
    cbn [or_Left or_Right and_Left and_Right map]. f_equal.
    rewrite !map_map. reflexivity. }
  split.
  { intros [l r]. unfold conjuncts, disjuncts, OrExpression_invert.
    cbn [or_Left or_Right and_Left and_Right map]. f_equal.
    rewrite !map_map. reflexivity. }
  intros [[l [|x r]]]; reflexivity.
Qed.


Lemma approx_refl {A} (r : result A) : approx r r.
Proof. right; reflexivity. Qed.

Lemma approx_bind {A B} (r r' : result A) (k k' : A -> result B) :
  approx r r' -> (forall a, approx (k a) (k' a)) -> approx (bind r k) (bind r' k').
Proof.
  intros [->| ->] Hk; [left; reflexivity|].
  destruct r'; simpl; auto using approx_refl.
Qed.

Lemma approx_mapM {A B} (f g : A -> result B) (l : list A) :
  (forall a, approx (f a) (g a)) -> approx (mapM f l) (mapM g l).
Proof.
  intros H. induction l as [|a l IH]; simpl; [apply approx_refl|].
  apply approx_bind; [apply H|]. intros b.
  apply approx_bind; [apply IH|]. intros; apply approx_refl.
Qed.

Lemma mapM_map {A B C} (f : B -> result C) (g : A -> B) (l : list A) :
  mapM f (map g l) = mapM (fun a => f (g a)) l.
Proof. induction l as [|a l IH]; simpl; [reflexivity|]. rewrite IH. reflexivity. Qed.

Lemma mapM_ext {A B} (f g : A -> result B) (l : list A) :
  (forall a, In a l -> f a = g a) -> mapM f l = mapM g l.
Proof.
  induction l as [|a l IH]; simpl; intros H; [reflexivity|].
  rewrite (H a) by auto. rewrite IH by auto. reflexivity.
Qed.

Section Body.
Variable ToLower : string -> string.
Variable f : Expression -> result ASTExpr.

Lemma AndExpression_Normalise_eq (a : AndExpression) :
  AndExpression_Normalise ToLower f a
  = (terms <- mapM (EqualExpr_convertToTerms ToLower f) (conjuncts a) ;;
     Ok (crossProduct terms)).
Proof. reflexivity. Qed.

Lemma OrExpression_Normalise_eq (o : OrExpression) :
  OrExpression_Normalise ToLower f o
  = (ts <- mapM (AndExpression_Normalise ToLower f) (disjuncts o) ;;
     Ok (mkASTOr (concat ts))).
Proof.
  unfold OrExpression_Normalise, disjuncts. simpl mapM.
  destruct (AndExpression_Normalise ToLower f (or_Left o)); simpl; try reflexivity.
  rewrite mapM_map.
  change (fun a0 => AndExpression_Normalise ToLower f (orrhs_Expr a0))
    with (OrRHS_Normalise ToLower f).
  destruct (mapM (OrRHS_Normalise ToLower f) (or_Right o)); reflexivity.
Qed.
End Body.

Section Mono.
Variable ToLower : string -> string.
Local Abbreviation N := (Expression_Normalise_fuel ToLower).
Local Abbreviation conv := (EqualExpr_convertToTerms ToLower).
Local Abbreviation body := (Expression_Normalise_body ToLower).

Lemma body_approx (f g : Expression -> result ASTExpr) (e : Expression) :
  (forall x, approx (f x) (g x)) -> approx (body f e) (body g e).
Proof.
  intros H. unfold Expression_Normalise_body.
  apply approx_bind; [|intros; apply approx_refl].
  rewrite !OrExpression_Normalise_eq.
  apply approx_bind; [|intros; apply approx_refl].
  apply approx_mapM. intros a. rewrite !AndExpression_Normalise_eq.
  apply approx_bind; [|intros; apply approx_refl].
  apply approx_mapM. intros [p|?|?|?|?|?|?|?]; try apply approx_refl.
  unfold EqualExpr_convertToTerms.
  apply approx_bind; [|intros; apply approx_refl].
  unfold Paren_Normalise. destruct (paren_IsNot p); [|apply H].
  apply approx_bind; [apply approx_refl|]. intros; apply H.
Qed.

Lemma Normalise_fuel_S (n : nat) (e : Expression) : approx (N n e) (N (S n) e).
Proof.
  revert e. induction n as [|n IH]; intros e; [left; reflexivity|].
  change (approx (body (N n) e) (body (N (S n)) e)).
  apply body_approx. exact IH.
Qed.

Lemma Normalise_fuel_mono (n m : nat) (e : Expression) :
  n <= m -> approx (N n e) (N m e).
Proof.
  induction 1 as [|m Hle IH]; [apply approx_refl|].
  destruct IH as [IH|IH]; [left; exact IH|].
  rewrite IH. apply Normalise_fuel_S.
Qed.
End Mono.

Lemma returns_bind {A B} (r : result A) (k : A -> result B) :
  returns r -> (forall a, r = Ok a -> returns (k a)) -> returns (bind r k).
Proof.
  unfold returns. destruct r; simpl; intros H Hk; auto. discriminate.
Qed.

Lemma returns_mapM {A B} (f : A -> result B) (l : list A) :
  (forall a, In a l -> returns (f a)) -> returns (mapM f l).
Proof.
  induction l as [|a l IH]; intros H; simpl; [discriminate|].
  apply returns_bind; [apply H; left; reflexivity|]. intros b _.
  apply returns_bind; [apply IH; intros; apply H; right; assumption|].
  intros; discriminate.
Qed.

Lemma depth_AndExpression_eq a :
  depth_AndExpression a = list_max (map depth_EqualExpr (conjuncts a)).
Proof.
  destruct a as [l r]. unfold conjuncts. simpl.
  f_equal. f_equal. induction r as [|[x] r IH]; simpl; [reflexivity|].
  rewrite IH. reflexivity.
Qed.

Lemma depth_OrExpression_eq o :
  depth_OrExpression o = list_max (map depth_AndExpression (disjuncts o)).
Proof.
  destruct o as [l r]. unfold disjuncts. simpl.
  f_equal. f_equal. induction r as [|[x] r IH]; simpl; [reflexivity|].
  rewrite IH. reflexivity.
Qed.

Lemma list_max_In (f : EqualExpr -> nat) l x : In x l -> f x <= list_max (map f l).
Proof.
  induction l as [|y l IH]; simpl; intros []; subst; lia || (specialize (IH H); lia).
Qed.

Lemma list_max_In_gen {A} (f : A -> nat) l x : In x l -> f x <= list_max (map f l).
Proof.
  induction l as [|y l IH]; simpl; intros []; subst; lia || (specialize (IH H); lia).
Qed.

Lemma depth_conjunct a x : In x (conjuncts a) -> depth_EqualExpr x <= depth_AndExpression a.
Proof. rewrite depth_AndExpression_eq. apply list_max_In_gen. Qed.

Lemma depth_disjunct o a : In a (disjuncts o) -> depth_AndExpression a <= depth_OrExpression o.
Proof. rewrite depth_OrExpression_eq. apply list_max_In_gen. Qed.

Section Adequacy.
Variable ToLower : string -> string.
Local Abbreviation N := (Expression_Normalise_fuel ToLower).
Local Abbreviation conv := (EqualExpr_convertToTerms ToLower).
Local Abbreviation body := (Expression_Normalise_body ToLower).

Lemma body_returns (f : Expression -> result ASTExpr) (e : Expression) :
  (forall a x, In a (disjuncts (expr_Or e)) -> In x (conjuncts a) ->
               returns (conv f x)) ->
  returns (body f e).
Proof.
  intros H. unfold Expression_Normalise_body.
  apply returns_bind; [|intros; discriminate].
  rewrite OrExpression_Normalise_eq.
  apply returns_bind; [|intros; discriminate].
  apply returns_mapM. intros a Ha. rewrite AndExpression_Normalise_eq.
  apply returns_bind; [|intros; discriminate].
  apply returns_mapM. intros x Hx. eapply H; eassumption.
Qed.

Lemma conv_leaf_returns (f : Expression -> result ASTExpr) (x : EqualExpr) :
  depth_EqualExpr x = 0 -> returns (conv f x).
Proof.
  destruct x; intros H; try discriminate H;
    unfold returns, EqualExpr_convertToTerms, EqualExpr_Normalise,
      Equality_Normalise, LessThan_Normalise,
      LessOrEqualThan_Normalise, GreaterThan_Normalise,
      GreaterOrEqualThan_Normalise, deref_String;
    repeat match goal with
      | |- context [if ?b then _ else _] => destruct b
      | |- context [match ?v with VString _ => _ | VNumber _ => _ end] => destruct v
      end; simpl; discriminate.
Qed.

Lemma conv_paren_returns (f : Expression -> result ASTExpr) (b : bool) (y : Expression) :
  returns (f (if b then inverted y else y)) ->
  returns (conv f (EParen (mkParen b y))).
Proof.
  intros H. simpl. apply returns_bind; [|intros; discriminate].
  unfold Paren_Normalise. simpl. destruct b; [|exact H].
  rewrite Expression_invert_Ok. exact H.
Qed.

Lemma adequacy (n : nat) :
  (forall e, 2 * depth_Expression e < n -> returns (N n e))
  /\ (forall a, 2 * depth_AndExpression a < n ->
                returns (N n (mkExpression (AndExpression_invert a))))
  /\ (forall e, 2 * depth_Expression e + 1 < n -> returns (N n (inverted e))).
Proof.
  induction n as [|n (IHa & IHc & IHb)].
  { repeat split; intros; lia. }
  assert (Hatom : forall x d, depth_EqualExpr x <= d -> 2 * d < S n ->
                              returns (conv (N n) x)
                              /\ returns (conv (N n) (EqualExpr_invert x))).
  { intros [[b y]|?|?|?|?|?|?|?] d Hd Hn;
      try (split; apply conv_leaf_returns; reflexivity).
    simpl in Hd. split.
    - apply conv_paren_returns. destruct b; [apply IHb|apply IHa]; lia.
    - unfold EqualExpr_invert, Paren_invert. simpl.
      apply conv_paren_returns. destruct b; simpl; [apply IHa|apply IHb]; lia. }
  assert (Hc : forall a, 2 * depth_AndExpression a < S n ->
                returns (N (S n) (mkExpression (AndExpression_invert a)))).
  { intros a Ha. apply body_returns. intros a' x Ha' Hx.
    unfold AndExpression_invert, disjuncts in Ha'. simpl in Ha'.
    rewrite map_map in Ha'.
    assert (exists y, In y (conjuncts a) /\ a' = mkAndExpression (EqualExpr_invert y) [])
      as (y & Hy & ->).
    { destruct Ha' as [<-|Ha'].
      - exists (and_Left a). split; [left|]; reflexivity.
      - apply in_map_iff in Ha' as (z & <- & Hz).
        exists (andrhs_Expr z). split; [|reflexivity].
        right. apply in_map. exact Hz. }
    destruct Hx as [<-|[]]. simpl.
    eapply Hatom; [apply depth_conjunct; eassumption|exact Ha]. }
  split; [|split; [exact Hc|]].
  - intros [o] He. simpl in He. apply body_returns. intros a x Ha Hx.
    simpl in Ha.
    eapply Hatom; [|exact He].
    etransitivity; [apply depth_conjunct; eassumption|].
    apply depth_disjunct; assumption.
  - intros [o] He. simpl in He. unfold inverted. simpl.
    destruct (or_Right o) eqn:Hr.
    + apply Hc. pose proof (@depth_disjunct o (or_Left o) (or_introl eq_refl)). lia.
    + apply body_returns. intros a x Ha Hx. simpl in Ha.
      destruct Ha as [<-|[]].
      unfold OrExpression_invert, conjuncts in Hx. simpl in Hx.
      rewrite map_map in Hx.
      assert (exists a', In a' (disjuncts o)
                /\ x = EParen (mkParen false (mkExpression (AndExpression_invert a'))))
        as (a' & Ha' & ->).
      { destruct Hx as [<-|Hx].
        - exists (or_Left o). split; [left|]; reflexivity.
        - apply in_map_iff in Hx as (z & <- & Hz).
          exists (orrhs_Expr z). split; [|reflexivity].
          right. apply in_map. exact Hz. }
      apply conv_paren_returns. apply IHc.
      pose proof (@depth_disjunct o a' Ha'). lia.
Qed.

Lemma Normalise_returns (e : Expression) :
  returns (Expression_Normalise ToLower e).
Proof. apply (adequacy (S (2 * depth_Expression e))). lia. Qed.

Lemma Normalise_fuel_stable (n : nat) (e : Expression) :
  2 * depth_Expression e < n -> N n e = Expression_Normalise ToLower e.
Proof.
  intros H. unfold Expression_Normalise.
  destruct (Normalise_fuel_mono ToLower e (n := S (2 * depth_Expression e)) (m := n))
    as [Hf|Hf]; [lia| |symmetry; exact Hf].
  exfalso. exact (Normalise_returns e Hf).
Qed.
End Adequacy.


Lemma lift_bind {A B} (P : A -> Prop) (Q : B -> Prop) r (k : A -> result B) :
  lift P r -> (forall a, P a -> lift Q (k a)) -> lift Q (bind r k).
Proof. destruct r; simpl; auto. Qed.

Lemma lift_mapM {A B} (P : A -> B -> Prop) (f : A -> result B) (l : list A) :
  (forall a, In a l -> lift (P a) (f a)) -> lift (Forall2 P l) (mapM f l).
Proof.
  induction l as [|a l IH]; intros H; simpl; [constructor|].
  eapply lift_bind; [apply H; left; reflexivity|]. intros b Hb.
  eapply lift_bind; [apply IH; intros; apply H; right; assumption|].
  intros bs Hbs. simpl. constructor; assumption.
Qed.

Lemma whenOk_bind {A B} (P : A -> Prop) (Q : B -> Prop) r (k : A -> result B) :
  whenOk P r -> (forall a, P a -> whenOk Q (k a)) -> whenOk Q (bind r k).
Proof. unfold whenOk. destruct r; simpl; intros; try discriminate. eauto. Qed.

Lemma whenOk_mapM {A B} (P : A -> B -> Prop) (f : A -> result B) (l : list A) :
  (forall a, In a l -> whenOk (P a) (f a)) -> whenOk (Forall2 P l) (mapM f l).
Proof.
  induction l as [|a l IH]; intros H; simpl.
  - intros ? [= <-]. constructor.
  - eapply whenOk_bind; [apply H; left; reflexivity|]. intros b Hb.
    eapply whenOk_bind; [apply IH; intros; apply H; right; assumption|].
    intros bs Hbs ? [= <-]. constructor; assumption.
Qed.

Section CrossProduct.
Variable rho : Assignment.
Lemma eval_extend c d :
  existsb (eval_ASTAnd rho)
    (map (fun terms => mkASTAnd (and_Terms c ++ terms)) d)
  = eval_ASTAnd rho c && eval_alternatives rho d.
Proof.
  unfold eval_alternatives.
  induction d as [|ts d IHd]; simpl; [rewrite andb_false_r; reflexivity|].
  rewrite IHd. unfold eval_ASTAnd. simpl. rewrite forallb_app.
  rewrite andb_orb_distrib_r. reflexivity.
Qed.

Lemma eval_distribute ast d :
  existsb (eval_ASTAnd rho) (distribute ast d)
  = existsb (eval_ASTAnd rho) ast && eval_alternatives rho d.
Proof.
  unfold distribute. induction ast as [|c ast IH]; simpl; [reflexivity|].
  rewrite existsb_app, IH, andb_orb_distrib_l, eval_extend. reflexivity.
Qed.

Lemma eval_fold_distribute terms ast :
  existsb (eval_ASTAnd rho) (fold_left distribute terms ast)
  = existsb (eval_ASTAnd rho) ast && forallb (eval_alternatives rho) terms.
Proof.
  revert ast. induction terms as [|d terms IH]; intros ast; simpl.
  - rewrite andb_true_r. reflexivity.
  - rewrite IH, eval_distribute, andb_assoc. reflexivity.
Qed.

Lemma eval_crossProduct terms :
  existsb (eval_ASTAnd rho) (crossProduct terms) = forallb (eval_alternatives rho) terms.
Proof. unfold crossProduct. rewrite eval_fold_distribute. reflexivity. Qed.

Lemma eval_conjuncts a :
  eval_AndExpression rho a = forallb (eval_EqualExpr rho) (conjuncts a).
Proof.
  destruct a as [l r]. unfold conjuncts. simpl. f_equal.
  induction r as [|[x] r IH]; simpl; [reflexivity|]. rewrite IH. reflexivity.
Qed.

Lemma eval_disjuncts o :
  eval_OrExpression rho o = existsb (eval_AndExpression rho) (disjuncts o).
Proof.
  destruct o as [l r]. unfold disjuncts. simpl. f_equal.
  induction r as [|[x] r IH]; simpl; [reflexivity|]. rewrite IH. reflexivity.
Qed.
End CrossProduct.

Lemma leaves_conjuncts pol a :
  leaves_AndExpression pol a = flat_map (leaves_EqualExpr pol) (conjuncts a).
Proof.
  destruct a as [l r]. unfold conjuncts. simpl. f_equal.
  induction r as [|[x] r IH]; simpl; [reflexivity|]. rewrite IH. reflexivity.
Qed.

Lemma leaves_disjuncts pol o :
  leaves_OrExpression pol o = flat_map (leaves_AndExpression pol) (disjuncts o).
Proof.
  destruct o as [l r]. unfold disjuncts. simpl. f_equal.
  induction r as [|[x] r IH]; simpl; [reflexivity|]. rewrite IH. reflexivity.
Qed.

Lemma leaves_EqualExpr_invert x :
  leaves_EqualExpr false (EqualExpr_invert x) = leaves_EqualExpr true x.
Proof. destruct x as [[b y]|?|?|?|?|?|?|?]; reflexivity. Qed.

Lemma leaves_AndExpression_invert a :
  leaves_OrExpression false (AndExpression_invert a) = leaves_AndExpression true a.
Proof.
  destruct a as [l r]. unfold AndExpression_invert.
  cbn [and_Left and_Right leaves_OrExpression leaves_AndExpression flat_map].
  rewrite app_nil_r, leaves_EqualExpr_invert. f_equal.
  induction r as [|[x] r IH]; [reflexivity|].
  cbn [map flat_map AndRHS_invert andrhs_Expr leaves_OrRHS leaves_AndRHS
         leaves_AndExpression].
  rewrite app_nil_r, leaves_EqualExpr_invert, IH. reflexivity.
Qed.

Lemma leaves_OrExpression_invert o :
  leaves_AndExpression false (OrExpression_invert o) = leaves_OrExpression true o.
Proof.
  destruct o as [l r]. unfold OrExpression_invert.
  cbn [or_Left or_Right leaves_OrExpression leaves_AndExpression leaves_EqualExpr
         leaves_Paren leaves_Expression xorb].
  rewrite leaves_AndExpression_invert. f_equal.
  induction r as [|[x] r IH]; [reflexivity|].
  cbn [map flat_map OrRHS_invert orrhs_Expr leaves_OrRHS leaves_AndRHS
         leaves_EqualExpr leaves_Paren leaves_Expression xorb].
  rewrite leaves_AndExpression_invert, IH. reflexivity.
Qed.

Lemma leaves_inverted e :
  leaves_Expression false (inverted e) = leaves_Expression true e.
Proof.
  destruct e as [[l [|x r]]]; unfold inverted; cbn [expr_Or or_Right or_Left].
  - cbn [leaves_Expression leaves_OrExpression flat_map].
    rewrite app_nil_r. apply leaves_AndExpression_invert.
  - cbn [leaves_Expression]. 
    change (leaves_AndExpression false (OrExpression_invert (mkOrExpression l (x :: r))) ++ []
            = leaves_OrExpression true (mkOrExpression l (x :: r))).
    rewrite app_nil_r. apply leaves_OrExpression_invert.
Qed.

Section Sound.
Variable ToLower : string -> string.
Variable rho : Assignment.
Hypothesis Hci : case_insensitive ToLower rho.
Local Abbreviation N := (Expression_Normalise_fuel ToLower).
Local Abbreviation conv := (EqualExpr_convertToTerms ToLower).
Local Abbreviation body := (Expression_Normalise_body ToLower).

Lemma leaf_sound (x : EqualExpr) :
  depth_EqualExpr x = 0 -> faithful_leaf x = true ->
  lift (fun t => eval_ASTTerm rho t = eval_EqualExpr rho x)
       (EqualExpr_Normalise ToLower x).
Proof.
  destruct x as [p|[v b [s|k]]|[v b [ss ns]]|[v [s|k]]|[v [s|k]]|[v [s|k]]
                |[v [s|k]]|g];
    intros Hd Hf; try discriminate Hd;
    unfold EqualExpr_Normalise, Equality_Normalise, Inclusion_Normalise,
      LessThan_Normalise, LessOrEqualThan_Normalise, GreaterThan_Normalise,
      GreaterOrEqualThan_Normalise, Glob_Normalise; simpl in *;
    try reflexivity;
    destruct (lowered_var v) eqn:Hv; simpl; try reflexivity;
    try discriminate Hf;
    destruct (Hci v Hv) as (H1 & H2 & H3 & H4);
    unfold eval_Equality, eval_Inclusion, eval_LessThan, eval_LessOrEqualThan,
      eval_GreaterThan, eval_GreaterOrEqualThan; simpl;
    rewrite ?H1, ?H2, ?H3; try reflexivity.
  destruct b; try discriminate Hf. destruct ns; try discriminate Hf.
  rewrite H4. reflexivity.
Qed.

Lemma eval_concat (ts : list (list ASTAnd)) :
  existsb (eval_ASTAnd rho) (concat ts) = existsb (existsb (eval_ASTAnd rho)) ts.
Proof.
  induction ts as [|t ts IH]; simpl; [reflexivity|].
  rewrite existsb_app, IH. reflexivity.
Qed.

Lemma existsb_Forall2 {A B} (f : A -> bool) (g : B -> bool) l l' :
  Forall2 (fun a b => g b = f a) l l' -> existsb g l' = existsb f l.
Proof. induction 1; simpl; congruence. Qed.

Lemma forallb_Forall2 {A B} (f : A -> bool) (g : B -> bool) l l' :
  Forall2 (fun a b => g b = f a) l l' -> forallb g l' = forallb f l.
Proof. induction 1; simpl; congruence. Qed.

Lemma body_sound (f : Expression -> result ASTExpr) (e : Expression) :
  (forall a x, In a (disjuncts (expr_Or e)) -> In x (conjuncts a) ->
     lift (fun d => eval_alternatives rho d = eval_EqualExpr rho x) (conv f x)) ->
  lift (fun ast => eval_ASTExpr rho ast = eval_Expression rho e) (body f e).
Proof.
  intros H. unfold Expression_Normalise_body.
  rewrite OrExpression_Normalise_eq.
  eapply lift_bind with
    (P := fun o => eval_ASTOr rho o = eval_OrExpression rho (expr_Or e));
    [|intros o Ho; simpl; destruct e; exact Ho].
  eapply lift_bind;
    [apply lift_mapM with
       (P := fun a t => existsb (eval_ASTAnd rho) t = eval_AndExpression rho a)|].
  - intros a Ha. rewrite AndExpression_Normalise_eq.
    eapply lift_bind;
      [apply lift_mapM with
         (P := fun x d => eval_alternatives rho d = eval_EqualExpr rho x)|].
    + intros x Hx. eapply H; eassumption.
    + intros terms Hterms. simpl.
      rewrite eval_crossProduct, eval_conjuncts.
      apply forallb_Forall2. exact Hterms.
  - intros ts Hts. simpl. unfold eval_ASTOr. simpl.
    rewrite eval_concat, eval_disjuncts.
    apply existsb_Forall2. exact Hts.
Qed.

Lemma faithful_atom pol e a x :
  faithful pol e -> In a (disjuncts (expr_Or e)) -> In x (conjuncts a) ->
  forallb faithful_leaf (leaves_EqualExpr pol x) = true.
Proof.
  unfold faithful. destruct e as [o]. simpl.
  rewrite leaves_disjuncts. intros H Ha Hx.
  rewrite forallb_forall in *. intros y Hy. apply H.
  apply in_flat_map. exists a. split; [exact Ha|].
  rewrite leaves_conjuncts. apply in_flat_map. exists x. split; assumption.
Qed.

Lemma Normalise_fuel_sound (n : nat) (e : Expression) :
  faithful false e ->
  lift (fun ast => eval_ASTExpr rho ast = eval_Expression rho e) (N n e).
Proof.
  revert e. induction n as [|n IH]; intros e He; [exact I|].
  apply body_sound. intros a x Ha Hx.
  pose proof (faithful_atom He Ha Hx) as Hf.
  destruct x as [[b y]|?|?|?|?|?|?|?].
  2-8: cbn [leaves_EqualExpr forallb] in Hf; rewrite andb_true_r in Hf;
    unfold EqualExpr_convertToTerms;
    (eapply lift_bind; [apply leaf_sound; [reflexivity|exact Hf]|]);
    intros t Ht; simpl; rewrite orb_false_r, andb_true_r; exact Ht.
  simpl in Hf. unfold EqualExpr_convertToTerms.
  eapply lift_bind with
    (P := fun ast => eval_ASTExpr rho ast = xorb b (eval_Expression rho y)).
  - unfold Paren_Normalise. cbn [paren_IsNot paren_Nested]. destruct b.
    + rewrite Expression_invert_Ok. cbn [bind].
      rewrite xorb_true_l, <- eval_inverted. apply IH.
      unfold faithful. rewrite leaves_inverted. exact Hf.
    + rewrite xorb_false_l. apply IH. exact Hf.
  - intros ast Hast. simpl. rewrite <- Hast.
    unfold eval_alternatives, eval_ASTExpr, eval_ASTOr.
    induction (or_Terms (ast_Or ast)) as [|c cs IHcs]; simpl; [reflexivity|].
    rewrite IHcs. reflexivity.
Qed.
End Sound.


Section Unfold.
Variable ToLower : string -> string.
Local Abbreviation N := (Expression_Normalise_fuel ToLower).
Local Abbreviation NN := (Expression_Normalise ToLower).
Local Abbreviation conv := (EqualExpr_convertToTerms ToLower).
Local Abbreviation body := (Expression_Normalise_body ToLower).

Lemma Normalise_fuel_agree (n : nat) (e : Expression) :
  returns (N n e) -> N n e = NN e.
Proof.
  intros Hn. pose proof (Normalise_returns ToLower e) as He.
  unfold Expression_Normalise in *.
  set (k := S (2 * depth_Expression e)) in *.
  destruct (Normalise_fuel_mono ToLower e (Nat.le_max_l n k)) as [H|H];
    [contradiction|].
  destruct (Normalise_fuel_mono ToLower e (Nat.le_max_r n k)) as [H'|H'];
    [contradiction|].
  congruence.
Qed.

Lemma body_ext (f g : Expression -> result ASTExpr) (e : Expression) :
  (forall a x, In a (disjuncts (expr_Or e)) -> In x (conjuncts a) ->
               conv f x = conv g x) ->
  body f e = body g e.
Proof.
  intros H. unfold Expression_Normalise_body. f_equal.
  rewrite !OrExpression_Normalise_eq. f_equal.
  apply mapM_ext. intros a Ha. rewrite !AndExpression_Normalise_eq. f_equal.
  apply mapM_ext. intros x Hx. eapply H; eassumption.
Qed.

(** The embedding satisfies the recursive equation of the source. *)
Lemma Expression_Normalise_unfold (e : Expression) :
  NN e = body NN e.
Proof.
  unfold Expression_Normalise at 1.
  change (body (N (2 * depth_Expression e)) e = body NN e).
  apply body_ext. intros a x Ha Hx.
  assert (Hd : depth_EqualExpr x <= depth_Expression e).
  { destruct e as [o]. cbn [expr_Or depth_Expression] in *.
    etransitivity; [apply depth_conjunct; eassumption|].
    apply depth_disjunct; assumption. }
  destruct x as [[b y]|?|?|?|?|?|?|?]; try reflexivity.
  simpl in Hd. unfold EqualExpr_convertToTerms. f_equal.
  unfold Paren_Normalise. cbn [paren_IsNot paren_Nested].
  destruct b.
  - rewrite Expression_invert_Ok. cbn [bind].
    apply Normalise_fuel_agree. apply adequacy. lia.
  - apply Normalise_fuel_agree. apply adequacy. lia.
Qed.
End Unfold.

Lemma EqualExpr_invert_involutive (x : EqualExpr) :
  EqualExpr_invert (EqualExpr_invert x) = x.
Proof.
  destruct x as [[b y]|[v b w]|[v b w]|[v w]|[v w]|[v w]|[v w]|[v b w]];
    unfold EqualExpr_invert, Paren_invert, Equality_invert, Inclusion_invert,
      LessThan_invert, LessOrEqualThan_invert, GreaterThan_invert,
      GreaterOrEqualThan_invert, Glob_invert; simpl;
    rewrite ?negb_involutive; reflexivity.
Qed.

Lemma bind_Ok_r {A} (r : result A) : bind r (fun a => Ok a) = r.
Proof. destruct r; reflexivity. Qed.

Lemma bind_assoc {A B C} (r : result A) (k : A -> result B) (h : B -> result C) :
  bind (bind r k) h = bind r (fun a => bind (k a) h).
Proof. destruct r; reflexivity. Qed.

Lemma bind_ext {A B} (r : result A) (k k' : A -> result B) :
  (forall a, k a = k' a) -> bind r k = bind r k'.
Proof. intros H. destruct r; simpl; auto. Qed.

Lemma crossProduct_one (d : list (list ASTTerm)) :
  crossProduct [d] = map mkASTAnd d.
Proof.
  unfold crossProduct, distribute. simpl. rewrite app_nil_r. reflexivity.
Qed.

Lemma map_and_Terms_mkASTAnd (d : list (list ASTTerm)) :
  map and_Terms (map mkASTAnd d) = d.
Proof. rewrite map_map. simpl. apply map_id. Qed.

Lemma map_mkASTAnd_and_Terms (l : list ASTAnd) :
  map mkASTAnd (map and_Terms l) = l.
Proof.
  rewrite map_map. induction l as [|[c] l IH]; simpl; [reflexivity|].
  rewrite IH. reflexivity.
Qed.

Section DoubleInversion.
Variable ToLower : string -> string.
Local Abbreviation NN := (Expression_Normalise ToLower).
Local Abbreviation conv := (EqualExpr_convertToTerms ToLower NN).
Local Abbreviation AN := (AndExpression_Normalise ToLower NN).

Lemma Normalise_disjuncts (o : OrExpression) :
  NN (mkExpression o)
  = (ts <- mapM AN (disjuncts o) ;; Ok (mkASTExpr (mkASTOr (concat ts)))).
Proof.
  rewrite Expression_Normalise_unfold. unfold Expression_Normalise_body.
  cbn [expr_Or]. rewrite OrExpression_Normalise_eq, bind_assoc. reflexivity.
Qed.

Lemma Normalise_one_disjunct (a : AndExpression) :
  NN (mkExpression (mkOrExpression a []))
  = (ts <- AN a ;; Ok (mkASTExpr (mkASTOr ts))).
Proof.
  rewrite Normalise_disjuncts. unfold disjuncts. cbn [or_Left or_Right map mapM].
  rewrite bind_assoc. apply bind_ext. intros ts. simpl.
  rewrite app_nil_r. reflexivity.
Qed.

Lemma AndExpression_Normalise_one (x : EqualExpr) :
  AN (mkAndExpression x []) = (d <- conv x ;; Ok (map mkASTAnd d)).
Proof.
  rewrite AndExpression_Normalise_eq. unfold conjuncts.
  cbn [and_Left and_Right map mapM]. rewrite bind_assoc.
  apply bind_ext. intros d. simpl. rewrite crossProduct_one. reflexivity.
Qed.

Lemma conv_paren (b : bool) (z : Expression) :
  conv (EParen (mkParen b z))
  = (r <- NN (if b then inverted z else z) ;;
     Ok (map and_Terms (or_Terms (ast_Or r)))).
Proof.
  unfold EqualExpr_convertToTerms, Paren_Normalise.
  cbn [paren_IsNot paren_Nested]. destruct b; [|reflexivity].
  rewrite Expression_invert_Ok. reflexivity.
Qed.

Lemma conv_wrapped (x : EqualExpr) :
  conv (EParen (mkParen false (single x))) = conv x.
Proof.
  rewrite conv_paren. unfold single.
  rewrite Normalise_one_disjunct, AndExpression_Normalise_one, !bind_assoc.
  rewrite <- (bind_Ok_r (conv x)) at 2. apply bind_ext. intros d. simpl.
  rewrite map_and_Terms_mkASTAnd. reflexivity.
Qed.

Lemma conjuncts_OrExpression_invert (o : OrExpression) :
  conjuncts (OrExpression_invert o)
  = map (fun a => EParen (mkParen false (mkExpression (AndExpression_invert a))))
        (disjuncts o).
Proof.
  destruct o as [l r]. unfold conjuncts, disjuncts, OrExpression_invert.
  cbn [or_Left or_Right and_Left and_Right map]. f_equal.
  rewrite !map_map. reflexivity.
Qed.

Lemma disjuncts_AndExpression_invert (a : AndExpression) :
  disjuncts (AndExpression_invert a)
  = map (fun x => mkAndExpression (EqualExpr_invert x) []) (conjuncts a).
Proof.
  destruct a as [l r]. unfold conjuncts, disjuncts, AndExpression_invert.
  cbn [or_Left or_Right and_Left and_Right map]. f_equal.
  rewrite !map_map. reflexivity.
Qed.

Lemma double_inversion_one_disjunct (a : AndExpression) :
  NN (inverted (inverted (mkExpression (mkOrExpression a []))))
  = NN (mkExpression (mkOrExpression a [])).
Proof.
  destruct a as [x [|y r]].
  - unfold inverted, AndExpression_invert. simpl.
    rewrite EqualExpr_invert_involutive. reflexivity.
  - set (a := mkAndExpression x (y :: r)).
    assert (H : inverted (inverted (mkExpression (mkOrExpression a [])))
                = mkExpression
                    (mkOrExpression (OrExpression_invert (AndExpression_invert a)) []))
      by reflexivity.
    rewrite H. rewrite !Normalise_one_disjunct. f_equal.
    rewrite !AndExpression_Normalise_eq. f_equal.
    rewrite conjuncts_OrExpression_invert, disjuncts_AndExpression_invert.
    rewrite map_map, mapM_map. apply mapM_ext. intros z _.
    unfold AndExpression_invert. cbn [and_Left and_Right map].
    rewrite EqualExpr_invert_involutive. apply conv_wrapped.
Qed.

Lemma Normalise_inverted_inverted (e : Expression) :
  NN (inverted (inverted e)) = NN e.
Proof.
  destruct e as [[a [|b r]]]; [apply double_inversion_one_disjunct|].
  set (o := mkOrExpression a (b :: r)).
  assert (H : inverted (inverted (mkExpression o))
              = mkExpression (AndExpression_invert (OrExpression_invert o)))
    by reflexivity.
  rewrite H, !Normalise_disjuncts. f_equal.
  rewrite disjuncts_AndExpression_invert, conjuncts_OrExpression_invert.
  rewrite map_map, mapM_map. apply mapM_ext. intros c _.
  rewrite AndExpression_Normalise_one.
  change (EqualExpr_invert
            (EParen (mkParen false (mkExpression (AndExpression_invert c)))))
    with (EParen (mkParen true (inverted (mkExpression (mkOrExpression c []))))).
  rewrite conv_paren, double_inversion_one_disjunct, Normalise_one_disjunct.
  rewrite !bind_assoc. rewrite <- (bind_Ok_r (AN c)) at 2.
  apply bind_ext. intros ts. simpl. rewrite map_mkASTAnd_and_Terms. reflexivity.
Qed.
End DoubleInversion.

(** ** Shape of the normal form *)

Lemma distribute_nonempty (ast : list ASTAnd) (d : list (list ASTTerm)) :
  ast <> [] -> d <> [] -> distribute ast d <> [].
Proof.
  destruct ast as [|c ast]; [congruence|]. destruct d as [|ts d]; [congruence|].
  intros _ _. unfold distribute. simpl. discriminate.
Qed.

Lemma distribute_conjunctions (ast : list ASTAnd) (d : list (list ASTTerm)) :
  Forall (fun ts => ts <> []) d ->
  Forall (fun c => and_Terms c <> []) (distribute ast d).
Proof.
  intros Hd. unfold distribute. apply Forall_flat_map.
  apply Forall_forall. intros c _. apply Forall_map.
  eapply Forall_impl; [|exact Hd]. intros ts Hts. simpl.
  destruct (and_Terms c); [exact Hts|discriminate].
Qed.

Lemma fold_distribute_nonempty (terms : list (list (list ASTTerm))) (ast : list ASTAnd) :
  Forall nonempty_alternatives terms -> ast <> [] ->
  fold_left distribute terms ast <> [].
Proof.
  revert ast. induction terms as [|d terms IH]; intros ast Ht Hast; [exact Hast|].
  inversion Ht as [|? ? [Hd _] Ht']; subst. simpl. apply IH; [exact Ht'|].
  apply distribute_nonempty; assumption.
Qed.

Lemma fold_distribute_conjunctions (terms : list (list (list ASTTerm)))
  (ast : list ASTAnd) :
  Forall nonempty_alternatives terms ->
  Forall (fun c => and_Terms c <> []) ast ->
  Forall (fun c => and_Terms c <> []) (fold_left distribute terms ast).
Proof.
  revert ast. induction terms as [|d terms IH]; intros ast Ht Hast; [exact Hast|].
  inversion Ht as [|? ? [_ Hd] Ht']; subst. simpl. apply IH; [exact Ht'|].
  apply distribute_conjunctions; assumption.
Qed.

Lemma crossProduct_nonempty (terms : list (list (list ASTTerm))) :
  terms <> [] -> Forall nonempty_alternatives terms ->
  nonempty_conjunctions (crossProduct terms).
Proof.
  intros Hne Ht. unfold crossProduct. split.
  - apply fold_distribute_nonempty; [exact Ht|discriminate].
  - destruct terms as [|d terms]; [congruence|]. cbn [fold_left].
    inversion Ht as [|? ? [_ Hd] Ht']; subst.
    apply fold_distribute_conjunctions; [exact Ht'|].
    apply distribute_conjunctions; assumption.
Qed.

Lemma Forall2_nonempty {A B} (P : A -> B -> Prop) (l : list A) (l' : list B) :
  Forall2 P l l' -> l <> [] -> l' <> [].
Proof. destruct 1; [congruence|discriminate]. Qed.

Lemma Forall2_Forall_r {A B} (P : A -> B -> Prop) (Q : B -> Prop)
  (l : list A) (l' : list B) :
  Forall2 P l l' -> (forall a b, P a b -> Q b) -> Forall Q l'.
Proof. induction 1; intros H'; constructor; eauto. Qed.

Lemma concat_nonempty_conjunctions (ts : list (list ASTAnd)) :
  ts <> [] -> Forall nonempty_conjunctions ts -> nonempty_conjunctions (concat ts).
Proof.
  intros Hne H. split.
  - destruct ts as [|t ts]; [congruence|]. inversion H as [|? ? [Ht _] _]; subst.
    simpl. destruct t; [congruence|discriminate].
  - apply Forall_concat. eapply Forall_impl; [|exact H]. intros t [_ Ht]. exact Ht.
Qed.

Section Shape.
Variable ToLower : string -> string.

Lemma body_shape (f : Expression -> result ASTExpr) (e : Expression) :
  (forall x, whenOk wf_ASTExpr (f x)) ->
  whenOk wf_ASTExpr (Expression_Normalise_body ToLower f e).
Proof.
  intros Hf. unfold Expression_Normalise_body.
  rewrite OrExpression_Normalise_eq.
  eapply whenOk_bind with
    (P := fun o => nonempty_conjunctions (or_Terms o));
    [|intros o Ho ? [= <-]; exact Ho].
  eapply whenOk_bind;
    [apply whenOk_mapM with (P := fun _ t => nonempty_conjunctions t)|].
  - intros a _. rewrite AndExpression_Normalise_eq.
    eapply whenOk_bind;
      [apply whenOk_mapM with (P := fun _ d => nonempty_alternatives d)|].
    + intros x _. destruct x as [p|?|?|?|?|?|?|?];
        unfold EqualExpr_convertToTerms.
      2-8: (eapply whenOk_bind with (P := fun _ => True);
            [intros ? _; exact I|]);
        intros t _ ? [= <-]; split; [discriminate|];
        repeat constructor; discriminate.
      eapply whenOk_bind with (P := wf_ASTExpr).
      * unfold Paren_Normalise. destruct (paren_IsNot p); [|apply Hf].
        eapply whenOk_bind with (P := fun _ => True); [intros ? _; exact I|].
        intros; apply Hf.
      * intros r [Hr1 Hr2] ? [= <-]. split.
        -- destruct (or_Terms (ast_Or r)); [congruence|discriminate].
        -- apply Forall_map. exact Hr2.
    + intros terms Hterms ? [= <-]. apply crossProduct_nonempty.
      * eapply Forall2_nonempty; [exact Hterms|]. unfold conjuncts. discriminate.
      * eapply Forall2_Forall_r; [exact Hterms|]. auto.
  - intros ts Hts ? [= <-]. simpl. apply concat_nonempty_conjunctions.
    + eapply Forall2_nonempty; [exact Hts|]. unfold disjuncts. discriminate.
    + eapply Forall2_Forall_r; [exact Hts|]. auto.
Qed.

Lemma Normalise_fuel_shape (n : nat) (e : Expression) :
  whenOk wf_ASTExpr (Expression_Normalise_fuel ToLower n e).
Proof.
  revert e. induction n as [|n IH]; intros e; [intros ? [=]|].
  apply body_shape. exact IH.
Qed.

Lemma Normalise_shape (e : Expression) (x : ASTExpr) :
  Expression_Normalise ToLower e = Ok x -> wf_ASTExpr x.
Proof. apply Normalise_fuel_shape. Qed.

End Shape.

(** ** When [Normalise] returns *)

Section Definedness.
Variable ToLower : string -> string.

Lemma leaf_defined_Ok (x : EqualExpr) :
  depth_EqualExpr x = 0 -> defined_leaf x = true ->
  lift (fun _ => True) (EqualExpr_Normalise ToLower x).
Proof.
  destruct x as [p|[v b [s|k]]|i|[v [s|k]]|[v [s|k]]|[v [s|k]]|[v [s|k]]|g];
    intros Hd Hf; try discriminate Hd;
    unfold EqualExpr_Normalise, Equality_Normalise, LessThan_Normalise,
      LessOrEqualThan_Normalise, GreaterThan_Normalise,
      GreaterOrEqualThan_Normalise; simpl in *;
    try exact I;
    destruct (lowered_var v); simpl; try exact I; discriminate Hf.
Qed.

Lemma leaf_Ok_defined (x : EqualExpr) :
  whenOk (fun _ => defined_leaf x = true) (EqualExpr_Normalise ToLower x).
Proof.
  destruct x as [p|[v b [s|k]]|i|[v [s|k]]|[v [s|k]]|[v [s|k]]|[v [s|k]]|g];
    intros t; try reflexivity;
    unfold EqualExpr_Normalise, Equality_Normalise, LessThan_Normalise,
      LessOrEqualThan_Normalise, GreaterThan_Normalise,
      GreaterOrEqualThan_Normalise; simpl;
    destruct (lowered_var v); simpl; intros H; try reflexivity; discriminate H.
Qed.

Lemma body_defined (f : Expression -> result ASTExpr) (e : Expression) :
  (forall a x, In a (disjuncts (expr_Or e)) -> In x (conjuncts a) ->
     lift (fun _ => True) (EqualExpr_convertToTerms ToLower f x)) ->
  lift (fun _ => True) (Expression_Normalise_body ToLower f e).
Proof.
  intros H. unfold Expression_Normalise_body.
  rewrite OrExpression_Normalise_eq.
  eapply lift_bind with (P := fun _ => True); [|intros; exact I].
  eapply lift_bind; [apply lift_mapM with (P := fun _ _ => True)|intros; exact I].
  intros a Ha. rewrite AndExpression_Normalise_eq.
  eapply lift_bind; [apply lift_mapM with (P := fun _ _ => True)|intros; exact I].
  intros x Hx. eapply H; eassumption.
Qed.

Lemma atom_leaves (P : EqualExpr -> bool) (pol : bool) (e : Expression)
  (a : AndExpression) (x : EqualExpr) :
  forallb P (leaves_Expression pol e) = true ->
  In a (disjuncts (expr_Or e)) -> In x (conjuncts a) ->
  forallb P (leaves_EqualExpr pol x) = true.
Proof.
  destruct e as [o]. cbn [leaves_Expression expr_Or].
  rewrite leaves_disjuncts. intros H Ha Hx.
  rewrite forallb_forall in *. intros y Hy. apply H.
  apply in_flat_map. exists a. split; [exact Ha|].
  rewrite leaves_conjuncts. apply in_flat_map. exists x. split; assumption.
Qed.

Lemma Normalise_fuel_defined (n : nat) (e : Expression) :
  forallb defined_leaf (leaves_Expression false e) = true ->
  lift (fun _ => True) (Expression_Normalise_fuel ToLower n e).
Proof.
  revert e. induction n as [|n IH]; intros e He; [exact I|].
  apply body_defined. intros a x Ha Hx.
  pose proof (atom_leaves _ _ _ He Ha Hx) as Hf.
  destruct x as [[b y]|?|?|?|?|?|?|?].
  2-8: cbn [leaves_EqualExpr forallb] in Hf; rewrite andb_true_r in Hf;
    unfold EqualExpr_convertToTerms;
    (eapply lift_bind; [apply leaf_defined_Ok; [reflexivity|exact Hf]|]);
    intros; exact I.
  cbn [leaves_EqualExpr leaves_Paren xorb] in Hf.
  unfold EqualExpr_convertToTerms.
  eapply lift_bind with (P := fun _ => True); [|intros; exact I].
  unfold Paren_Normalise. cbn [paren_IsNot paren_Nested]. destruct b.
  - rewrite Expression_invert_Ok. cbn [bind]. apply IH.
    rewrite leaves_inverted. exact Hf.
  - apply IH. exact Hf.
Qed.

Lemma Normalise_defined (e : Expression) :
  forallb defined_leaf (leaves_Expression false e) = true ->
  exists x, Expression_Normalise ToLower e = Ok x.
Proof.
  intros He. pose proof (Normalise_fuel_defined (S (2 * depth_Expression e)) e He) as H.
  pose proof (Normalise_returns ToLower e) as Hr.
  unfold Expression_Normalise in *.
  destruct (Expression_Normalise_fuel ToLower (S (2 * depth_Expression e)) e) as [x|m|];
    [exists x; reflexivity|destruct H|congruence].
Qed.

Lemma forallb_flat_map {A B} (P : B -> bool) (g : A -> list B) (l : list A) :
  forallb P (flat_map g l) = forallb (fun a => forallb P (g a)) l.
Proof.
  induction l as [|a l IH]; simpl; [reflexivity|].
  rewrite forallb_app, IH. reflexivity.
Qed.

Lemma body_Ok_defined (f : Expression -> result ASTExpr) (e : Expression) :
  (forall a x, In a (disjuncts (expr_Or e)) -> In x (conjuncts a) ->
     whenOk (fun _ => forallb defined_leaf (leaves_EqualExpr false x) = true)
            (EqualExpr_convertToTerms ToLower f x)) ->
  whenOk (fun _ => forallb defined_leaf (leaves_Expression false e) = true)
         (Expression_Normalise_body ToLower f e).
Proof.
  intros H. unfold Expression_Normalise_body.
  rewrite OrExpression_Normalise_eq.
  eapply whenOk_bind with
    (P := fun _ => forallb defined_leaf (leaves_Expression false e) = true);
    [|intros ? Hd ? _; exact Hd].
  eapply whenOk_bind;
    [apply whenOk_mapM with
       (P := fun a _ => forallb defined_leaf (leaves_AndExpression false a) = true)|].
  - intros a Ha. rewrite AndExpression_Normalise_eq.
    eapply whenOk_bind;
      [apply whenOk_mapM with
         (P := fun x _ => forallb defined_leaf (leaves_EqualExpr false x) = true)|].
    + intros x Hx. eapply H; eassumption.
    + intros terms Hterms ? _. rewrite leaves_conjuncts, forallb_flat_map.
      apply forallb_forall. intros x Hx.
      clear -Hterms Hx. induction Hterms; destruct Hx; subst; auto.
  - intros ts Hts ? _. destruct e as [o]. cbn [leaves_Expression expr_Or] in *.
    rewrite leaves_disjuncts, forallb_flat_map.
    apply forallb_forall. intros x Hx.
    clear -Hts Hx. induction Hts; destruct Hx; subst; auto.
Qed.

Lemma Normalise_fuel_Ok_defined (n : nat) (e : Expression) :
  whenOk (fun _ => forallb defined_leaf (leaves_Expression false e) = true)
         (Expression_Normalise_fuel ToLower n e).
Proof.
  revert e. induction n as [|n IH]; intros e; [intros ? [=]|].
  apply body_Ok_defined. intros a x _ _.
  destruct x as [[b y]|?|?|?|?|?|?|?].
  2-8: unfold EqualExpr_convertToTerms;
    (eapply whenOk_bind; [apply leaf_Ok_defined|]);
    intros t Ht ? _; cbn [leaves_EqualExpr forallb]; rewrite andb_true_r; exact Ht.
  unfold EqualExpr_convertToTerms.
  eapply whenOk_bind with
    (P := fun _ => forallb defined_leaf (leaves_Expression b y) = true);
    [|intros ? Hd ? _; exact Hd].
  unfold Paren_Normalise. cbn [paren_IsNot paren_Nested]. destruct b.
  - rewrite Expression_invert_Ok. cbn [bind]. rewrite <- leaves_inverted. apply IH.
  - apply IH.
Qed.

(** [Normalise] returns a normal form exactly when no leaf that it reaches
    compares [$key], [$owner] or [$creator] with a number; otherwise it
    panics on the nil [String] of that literal. *)
Lemma Normalise_Ok_iff (e : Expression) :
  (exists x, Expression_Normalise ToLower e = Ok x)
  <-> forallb defined_leaf (leaves_Expression false e) = true.
Proof.
  split.
  - intros [x Hx]. exact (Normalise_fuel_Ok_defined _ _ Hx).
  - apply Normalise_defined.
Qed.

End Definedness.

(** ** Normalisation preserves truth *)

Lemma faithful_defined (x : EqualExpr) :
  faithful_leaf x = true -> defined_leaf x = true.
Proof.
  destruct x; simpl; auto.
Qed.

(** For an assignment that does not tell apart the cases of a string compared
    with [$key], [$owner] or [$creator], and a filter none of whose reached
    leaves is rebuilt with a field missing, the normal form exists and has
    the truth value of the filter. *)
Theorem Normalise_preserves_truth (ToLower : string -> string) (rho : Assignment)
  (t : TopLevel) :
  case_insensitive ToLower rho ->
  (forall e, top_Expression t = Some e -> faithful false e) ->
  exists ast, TopLevel_Normalise ToLower t = Ok ast
              /\ eval_AST rho ast = eval_TopLevel rho t.
Proof.
  intros Hci Hf. unfold TopLevel_Normalise, eval_TopLevel.
  destruct (top_Expression t) as [e|]; [|exists (mkAST None); split; reflexivity].
  specialize (Hf e eq_refl).
  destruct (Normalise_defined ToLower e) as [x Hx].
  { unfold faithful in Hf. rewrite forallb_forall in *.
    intros y Hy. apply faithful_defined. apply Hf. exact Hy. }
  exists (mkAST (Some x)). rewrite Hx. split; [reflexivity|].
  pose proof (Normalise_fuel_sound Hci (S (2 * depth_Expression e)) Hf) as Hs.
  unfold Expression_Normalise in Hx. rewrite Hx in Hs. exact Hs.
Qed.

(** C1 (evaluation at a failing input).  The filter [$owner not in ("0xab")]
    is admitted by the grammar and normalised to the leaf [$owner in ("0xab")]:
    under every assignment the normal form has the opposite truth value. *)
Theorem Normalise_negated_inclusion_flips_truth (rho : Assignment) :
  accepted_TopLevel owner_not_in = true
  /\ TopLevel_Normalise ToLower_ascii owner_not_in
     = Ok (mkAST (Some (mkASTExpr (mkASTOr
         [mkASTAnd [TInclusion (mkInclusion "$owner" false (mkValues ["0xab"] []))]]))))
  /\ forall ast, TopLevel_Normalise ToLower_ascii owner_not_in = Ok ast ->
                 eval_AST rho ast = negb (eval_TopLevel rho owner_not_in).
Proof.
  split; [reflexivity|]. split; [reflexivity|].
  intros ast H. vm_compute in H. injection H as <-.
  unfold eval_TopLevel, eval_AST, eval_ASTExpr, eval_ASTOr, eval_ASTAnd,
    eval_Inclusion; simpl.
  unfold eval_Inclusion; simpl.
  destruct (holds_in rho _ _); reflexivity.
Qed.

(** C2 (evaluation of the code, in general and at a failing input).
    [Normalise] never runs out of the bound of the embedding.  When it returns,
    the AST is [Empty] exactly for [$all] and [*], and otherwise a non-empty
    disjunction of non-empty conjunctions of leaves (the types [ASTOr],
    [ASTAnd] and [ASTTerm] have no place for a parenthesis or for a nested
    operator).  It panics when a leaf that it reaches compares [$key], [$owner]
    or [$creator] with a number, as for the admitted filter [$key = 1]. *)
Theorem Normalise_shape_or_panic (ToLower : string -> string) :
  (forall t : TopLevel,
      match TopLevel_Normalise ToLower t with
      | Ok ast =>
          (ast_Expr ast = None <-> top_Expression t = None)
          /\ (forall x, ast_Expr ast = Some x -> wf_ASTExpr x)
      | Panic _ =>
          exists e, top_Expression t = Some e
                    /\ forallb defined_leaf (leaves_Expression false e) = false
      | OutOfFuel => False
      end)
  /\ accepted_TopLevel key_eq_1 = true
  /\ TopLevel_Normalise ToLower key_eq_1 = Panic nil_deref.
Proof.
  split; [|split; reflexivity].
  intros t. unfold TopLevel_Normalise.
  destruct (top_Expression t) as [e|] eqn:Ht.
  - pose proof (Normalise_returns ToLower e) as Hr.
    pose proof (@Normalise_shape ToLower e) as Hs.
    pose proof (Normalise_Ok_iff ToLower e) as Hd.
    destruct (Expression_Normalise ToLower e) as [x|m|]; simpl.
    + split; [split; discriminate|]. intros y [= <-]. apply Hs. reflexivity.
    + exists e. split; [reflexivity|].
      destruct (forallb defined_leaf (leaves_Expression false e)); [|reflexivity].
      destruct Hd as [_ Hd]. destruct (Hd eq_refl) as [x Hx]. discriminate Hx.
    + apply Hr. reflexivity.
  - simpl. split; [split; reflexivity|]. intros x [=].
Qed.

(** ** Double inversion *)

Lemma a_and_b_not_wrapped :
  ~ same_up_to_conjunct_order a_and_b_wrapped a_and_b.
Proof.
  unfold same_up_to_conjunct_order. intros H.
  inversion H as [|? ? ? ? Hp _]; subst.
  apply Permutation_sym in Hp.
  apply Permutation_in with (x := EAssign (mkEquality "a" false (VNumber 1))) in Hp;
    [|left; reflexivity].
  destruct Hp as [Hp|[Hp|[]]]; discriminate Hp.
Qed.

(** C4, where the identity fails.  Inverting [a = 1 && b = 2] twice gives
    [(a = 1) && (b = 2)]: both members of the conjunction are now parentheses,
    so the result is not the original expression, whatever the order in which
    the members of a conjunction are read. *)
Lemma double_inversion_wraps_conjuncts :
  (e1 <- Expression_invert a_and_b ;; Expression_invert e1) = Ok a_and_b_wrapped
  /\ a_and_b_wrapped <> a_and_b
  /\ ~ same_up_to_conjunct_order a_and_b_wrapped a_and_b.
Proof.
  split; [reflexivity|]. split; [discriminate|]. exact a_and_b_not_wrapped.
Qed.

(** C4 (amended).  [Invert] applied twice returns an expression that has the
    same normal form as the original (the same AST, or the same panic); on a
    single atom, leaf or parenthesis, double inversion is the identity. *)
Theorem double_inversion_same_normal_form (ToLower : string -> string)
  (e : Expression) :
  (exists e1 e2,
      Expression_invert e = Ok e1 /\ Expression_invert e1 = Ok e2
      /\ Expression_Normalise ToLower e2 = Expression_Normalise ToLower e)
  /\ (forall x : EqualExpr, EqualExpr_invert (EqualExpr_invert x) = x)
  /\ (forall x : EqualExpr, inverted (inverted (single x)) = single x).
Proof.
  split; [|split].
  - exists (inverted e), (inverted (inverted e)).
    rewrite !Expression_invert_Ok. repeat split.
    apply Normalise_inverted_inverted.
  - apply EqualExpr_invert_involutive.
  - intros x. unfold inverted, single, AndExpression_invert. simpl.
    rewrite EqualExpr_invert_involutive. reflexivity.
Qed.

(** ** Leaves *)

(** C5 (evaluation of the code).  On a leaf whose variable is [$key], [$owner]
    or [$creator], [Equality.Normalise] and the ordered comparisons lower-case
    the string and keep the variable (and [IsNot]); [Inclusion.Normalise]
    lower-cases every string but returns [IsNot = false] and no numbers,
    whatever the leaf held: [$owner not in ("0xAB")] becomes
    [$owner in ("0xab")].  Leaves on other variables are returned as they
    are. *)
Theorem Inclusion_Normalise_resets_IsNot (ToLower : string -> string) :
  Inclusion_Normalise ToLower (mkInclusion "$owner" true (mkValues ["0xAB"] []))
  = mkInclusion "$owner" false (mkValues [ToLower "0xAB"] [])
  /\ (forall i : Inclusion,
         Inclusion_Normalise ToLower i
         = if lowered_var (in_Var i)
           then mkInclusion (in_Var i) false
                  (mkValues (map ToLower (Strings (in_Values i))) [])
           else i)
  /\ (forall (v : string) (b : bool) (s : string),
         Equality_Normalise ToLower (mkEquality v b (VString s))
         = Ok (mkEquality v b (VString (if lowered_var v then ToLower s else s))))
  /\ (forall (v : string) (s : string),
         LessThan_Normalise ToLower (mkLessThan v (VString s))
         = Ok (mkLessThan v (VString (if lowered_var v then ToLower s else s)))
         /\ LessOrEqualThan_Normalise ToLower (mkLessOrEqualThan v (VString s))
            = Ok (mkLessOrEqualThan v
                    (VString (if lowered_var v then ToLower s else s)))
         /\ GreaterThan_Normalise ToLower (mkGreaterThan v (VString s))
            = Ok (mkGreaterThan v (VString (if lowered_var v then ToLower s else s)))
         /\ GreaterOrEqualThan_Normalise ToLower (mkGreaterOrEqualThan v (VString s))
            = Ok (mkGreaterOrEqualThan v
                    (VString (if lowered_var v then ToLower s else s))))
  /\ (forall g : Glob, Glob_Normalise g = g).
Proof.
  split; [reflexivity|]. split; [reflexivity|].
  split; [|split; [|reflexivity]].
  - intros v b s. unfold Equality_Normalise. simpl.
    destruct (lowered_var v); reflexivity.
  - intros v s.
    unfold LessThan_Normalise, LessOrEqualThan_Normalise, GreaterThan_Normalise,
      GreaterOrEqualThan_Normalise. simpl.
    destruct (lowered_var v); repeat split; reflexivity.
Qed.

(** ** A panic at the public interface *)

(** C10.  The filter [$owner = 5] is admitted by the grammar (the variable is
    the token [Owner], the literal a [Number]); [Equality.Normalise]
    dereferences the nil [String] of the literal, so [Normalise], and [Parse]
    whenever the parser yields this tree, panic: neither an error nor an AST
    is returned. *)
Theorem Parse_owner_eq_number_panics (ToLower : string -> string) :
  accepted_TopLevel owner_eq_5 = true
  /\ Equality_Normalise ToLower (mkEquality "$owner" false (VNumber 5))
     = Panic nil_deref
  /\ TopLevel_Normalise ToLower owner_eq_5 = Panic nil_deref
  /\ forall ParseString : string -> option TopLevel,
       ParseString "$owner = 5" = Some owner_eq_5 ->
       Parse ToLower ParseString "$owner = 5" = Panic nil_deref.
Proof.
  repeat split; try reflexivity.
  intros ParseString H. unfold Parse. rewrite H. reflexivity.
Qed.

(* ================================================================== *)
(** * Properties of the cursor codec *)
(* ================================================================== *)

(** ** Integers below [2 ^ 53] are exact in [float64] *)

Ltac std_Z :=
  change IntDef.Z.add with Z.add in *; change IntDef.Z.sub with Z.sub in *;
  change IntDef.Z.max with Z.max in *; change IntDef.Z.leb with Z.leb in *;
  change IntDef.Z.eqb with Z.eqb in *; change IntDef.Z.opp with Z.opp in *.

Lemma digits2_pos_iter_xO (m k : positive) :
  digits2_pos (Pos.iter xO m k) = (digits2_pos m + k)%positive.
Proof.
  induction k using Pos.peano_ind.
  - simpl. lia.
  - rewrite Pos.iter_succ. simpl. rewrite IHk. lia.
Qed.

Lemma Zpos_iter_xO (m k : positive) :
  Zpos (Pos.iter xO m k) = (Zpos m * 2 ^ Zpos k)%Z.
Proof.
  induction k using Pos.peano_ind.
  - simpl. lia.
  - rewrite Pos.iter_succ, Pos2Z.inj_succ, Z.pow_succ_r by lia.
    rewrite Pos2Z.inj_xO, IHk. lia.
Qed.

Lemma digits2_pos_bound (m : positive) :
  (2 ^ (Zpos (digits2_pos m) - 1) <= Zpos m < 2 ^ Zpos (digits2_pos m))%Z.
Proof.
  induction m as [m IH|m IH|]; simpl digits2_pos.
  - rewrite Pos2Z.inj_succ, Z.pow_succ_r by lia.
    replace (Z.succ (Zpos (digits2_pos m)) - 1)%Z
      with (Z.succ (Zpos (digits2_pos m) - 1)) by lia.
    rewrite Z.pow_succ_r by lia. lia.
  - rewrite Pos2Z.inj_succ, Z.pow_succ_r by lia.
    replace (Z.succ (Zpos (digits2_pos m)) - 1)%Z
      with (Z.succ (Zpos (digits2_pos m) - 1)) by lia.
    rewrite Z.pow_succ_r by lia. lia.
  - simpl. lia.
Qed.

Lemma binary_round_aux_canonical (mz : positive) (ez : Z) :
  Zpos (digits2_pos mz) = 53%Z -> (-1074 <= ez <= 971)%Z ->
  binary_round_aux 53 1024 false (Zpos mz) ez loc_Exact = S754_finite false mz ez.
Proof.
  intros Hd He. unfold binary_round_aux, shr_fexp. std_Z.
  cbn [Zdigits2 shr_record_of_loc]. rewrite Hd.
  assert (Hf : (fexp 53 1024 (53 + ez) - ez = 0)%Z) by (unfold fexp, emin; std_Z; lia).
  rewrite Hf.
  cbn [shr shr_m loc_of_shr_record round_nearest_even Zdigits2 shr_record_of_loc].
  rewrite Hd, Hf. cbn [shr shr_m].
  assert (Hle : (ez <=? 1024 - 53)%Z = true) by (apply Z.leb_le; lia).
  rewrite Hle. reflexivity.
Qed.

Lemma float64_of_Z_exact (n : Z) :
  (0 <= n < 2 ^ 53)%Z -> float64_trunc (float64_of_Z n) = Some n.
Proof.
  intros Hn. destruct n as [|m|m]; [reflexivity| |lia].
  unfold float64_of_Z, binary_normalize, binary_round, shl_align.
  std_Z.
  pose proof (digits2_pos_bound m) as Hd.
  assert (Hd53 : (Zpos (digits2_pos m) <= 53)%Z).
  { destruct (Z_le_gt_dec (Zpos (digits2_pos m)) 53) as [H|H]; [exact H|].
    exfalso.
    assert (2 ^ 53 <= 2 ^ (Zpos (digits2_pos m) - 1))%Z
      by (apply Z.pow_le_mono_r; lia).
    lia. }
  set (d := Zpos (digits2_pos m)) in *.
  assert (Hfexp : fexp 53 1024 (d + 0) = (d - 53)%Z)
    by (unfold fexp, emin; std_Z; lia).
  rewrite Hfexp.
  destruct (d - 53 - 0)%Z as [|k|k] eqn:Hk; [|lia|].
  - rewrite binary_round_aux_canonical by (fold d; lia).
    cbn. f_equal. lia.
  - rewrite binary_round_aux_canonical;
      [|rewrite digits2_pos_iter_xO, Pos2Z.inj_add; fold d; lia|lia].
    cbn [float64_trunc].
    assert (Hneg : (0 <=? d - 53)%Z = false) by (apply Z.leb_gt; lia).
    rewrite Hneg. f_equal. change (PosDef.Pos.iter xO m k) with (Pos.iter xO m k).
    rewrite Zpos_iter_xO.
    replace (- (d - 53))%Z with (Zpos k) by lia.
    apply Z.div_mul. apply Z.pow_nonzero; lia.
Qed.

(** ** [hex.DecodeString] inverts [hex.EncodeToString] *)

Lemma hex_byte_roundtrip (b : byte) (s : string) :
  hex_DecodeString
    (String (hex_char (Byte.to_N b / 16))
       (String (hex_char (Byte.to_N b mod 16)) s))
  = match hex_DecodeString s with Some bs => Some (b :: bs) | None => None end.
Proof.
  cbn [hex_DecodeString].
  assert (H : fromHexChar (hex_char (Byte.to_N b / 16)) = Some (Byte.to_N b / 16)%N
              /\ fromHexChar (hex_char (Byte.to_N b mod 16)) = Some (Byte.to_N b mod 16)%N
              /\ Byte.of_N (16 * (Byte.to_N b / 16) + Byte.to_N b mod 16) = Some b)
    by (destruct b; vm_compute; repeat split).
  destruct H as (-> & -> & H).
  destruct (hex_DecodeString s); [rewrite H|]; reflexivity.
Qed.

Lemma hex_roundtrip (bs : list byte) :
  hex_DecodeString (hex_EncodeToString bs) = Some bs.
Proof.
  induction bs as [|b bs IH]; [reflexivity|].
  cbn [hex_EncodeToString fold_right]. fold (hex_EncodeToString bs).
  rewrite hex_byte_roundtrip, IH. reflexivity.
Qed.

Lemma hex_EncodeToString_length (bs : list byte) :
  String.length (hex_EncodeToString bs) = 2 * length bs.
Proof.
  induction bs as [|b bs IH]; [reflexivity|].
  cbn [hex_EncodeToString fold_right]. fold (hex_EncodeToString bs).
  cbn [String.length length]. rewrite IH. lia.
Qed.

(** ** [GetColumnIndex] on sorted columns *)

Lemma String_compare_refl (s : string) : String.compare s s = Eq.
Proof.
  induction s as [|c s IH]; [reflexivity|]. simpl.
  assert (H : Ascii.compare c c = Eq).
  { unfold Ascii.compare. apply N.compare_refl. }
  rewrite H. exact IH.
Qed.

Lemma StronglySorted_nth {A : Type} (R : A -> A -> Prop) (l : list A) :
  StronglySorted R l ->
  forall i j a b, i < j -> nth_error l i = Some a -> nth_error l j = Some b -> R a b.
Proof.
  induction 1 as [|x l Hs IH Hx]; intros i j a b Hij Hi Hj.
  - destruct i; discriminate Hi.
  - destruct j as [|j]; [lia|]. simpl in Hj. destruct i as [|i].
    + injection Hi as <-. rewrite Forall_forall in Hx. apply Hx.
      eapply nth_error_In; eassumption.
    + simpl in Hi. apply (IH i j); [lia|assumption|assumption].
Qed.

Section Search.
Variable x : list Column.
Hypothesis Hsorted : sorted_by_name x.
Variable k : nat.
Variable c : Column.
Hypothesis Hk : nth_error x k = Some c.

Lemma compare_at (h : nat) (d : Column) :
  nth_error x h = Some d ->
  String.compare (Name d) (Name c)
  = if h <? k then Lt else if h =? k then Eq else Gt.
Proof.
  intros Hh. destruct (h <? k) eqn:Hlt.
  - apply Nat.ltb_lt in Hlt.
    exact (StronglySorted_nth Hsorted Hlt Hh Hk).
  - apply Nat.ltb_ge in Hlt. destruct (h =? k) eqn:Heq.
    + apply Nat.eqb_eq in Heq. subst h. rewrite Hk in Hh.
      injection Hh as <-. apply String_compare_refl.
    + apply Nat.eqb_neq in Heq. rewrite String.compare_antisym.
      assert (Hkh : k < h) by lia.
      rewrite (StronglySorted_nth Hsorted Hkh Hk Hh). reflexivity.
Qed.

Lemma BinarySearch_loop_found (fuel i j : nat) :
  j - i <= fuel -> i <= k <= j -> j <= length x ->
  BinarySearch_loop fuel x (Name c) i j = k.
Proof.
  revert i j. induction fuel as [|fuel IH]; intros i j Hf Hik Hj.
  - simpl. lia.
  - cbn [BinarySearch_loop]. destruct (i <? j) eqn:Hlt.
    + apply Nat.ltb_lt in Hlt.
      assert (Hh : i <= (i + j) / 2 < j).
      { split.
        - apply Nat.div_le_lower_bound; lia.
        - apply Nat.Div0.div_lt_upper_bound; lia. }
      destruct (nth_error x ((i + j) / 2)) as [d|] eqn:Hd.
      * rewrite (compare_at _ Hd).
        destruct ((i + j) / 2 <? k) eqn:H1.
        -- apply Nat.ltb_lt in H1. apply IH; lia.
        -- apply Nat.ltb_ge in H1.
           destruct ((i + j) / 2 =? k); apply IH; lia.
      * apply nth_error_None in Hd. lia.
    + apply Nat.ltb_ge in Hlt. lia.
Qed.

Lemma BinarySearchFunc_found : BinarySearchFunc x (Name c) = (k, true).
Proof.
  unfold BinarySearchFunc.
  assert (Hlen : k < length x) by (apply nth_error_Some; congruence).
  rewrite BinarySearch_loop_found by lia.
  rewrite Hk, String_compare_refl. reflexivity.
Qed.

End Search.

Lemma GetColumnIndex_found (opts : QueryOptions) (k : nat) (c : Column) :
  sorted_by_name (Columns opts) -> nth_error (Columns opts) k = Some c ->
  GetColumnIndex opts (Name c) = Some k.
Proof.
  intros Hs Hk. unfold GetColumnIndex.
  rewrite (@BinarySearchFunc_found _ Hs _ _ Hk). reflexivity.
Qed.

Lemma GetColumnIndex_sound (opts : QueryOptions) (name : string) (ix : nat) :
  GetColumnIndex opts name = Some ix ->
  exists c, nth_error (Columns opts) ix = Some c /\ Name c = name.
Proof.
  unfold GetColumnIndex, BinarySearchFunc.
  destruct (nth_error (Columns opts) _) as [c|] eqn:Hc; [|discriminate].
  destruct (String.compare (Name c) name) eqn:Hcmp; try discriminate.
  intros [= <-]. exists c. split; [exact Hc|].
  apply String.compare_eq_iff. exact Hcmp.
Qed.

(** ** Round trip *)

Section RoundTrip.
Variable json_Marshal_Cursor : Cursor -> option (list byte).
Variable json_Marshal : list any -> option (list byte).
Variable json_Unmarshal : list byte -> option (list any).
Variable base64_EncodeToString : list byte -> string.
Variable base64_DecodeString : string -> option (list byte).
Variable uint64_of_unrepresentable : float64 -> N.
Variable int_of_unrepresentable : float64 -> Z.

Lemma int_of_float64_exact (n : nat) :
  (Z.of_nat n < 2 ^ 53)%Z ->
  int_of_float64 int_of_unrepresentable (float64_of_Z (Z.of_nat n)) = Z.of_nat n.
Proof.
  intros H. unfold int_of_float64. rewrite float64_of_Z_exact by lia.
  assert (Hr : ((- 2 ^ 63 <=? Z.of_nat n) && (Z.of_nat n <? 2 ^ 63))%Z = true).
  { apply andb_true_intro. split; [apply Z.leb_le|apply Z.ltb_lt]; lia. }
  rewrite Hr. reflexivity.
Qed.

Lemma uint64_of_float64_exact (n : N) :
  (Z.of_N n < 2 ^ 53)%Z ->
  uint64_of_float64 uint64_of_unrepresentable (float64_of_Z (Z.of_N n)) = n.
Proof.
  intros H. unfold uint64_of_float64. rewrite float64_of_Z_exact by lia.
  assert (Hr : ((0 <=? Z.of_N n) && (Z.of_N n <? 2 ^ 64))%Z = true).
  { apply andb_true_intro. split; [apply Z.leb_le|apply Z.ltb_lt]; lia. }
  rewrite Hr. apply N2Z.id.
Qed.

Lemma encode_values_valid (opts : QueryOptions) (cvs : list CursorValue) :
  sorted_by_name (Columns opts) ->
  Forall (valid_value base64_EncodeToString opts) cvs ->
  exists triples, encode_values opts cvs = Some triples.
Proof.
  intros Hs. induction 1 as [|c cvs (ix & col & Hix & Hname & _) _ [rest IH]].
  - exists []. reflexivity.
  - cbn [encode_values]. rewrite <- Hname.
    rewrite (@GetColumnIndex_found opts ix col Hs Hix), IH. eexists. reflexivity.
Qed.

Lemma decode_chunks_encode_values (opts : QueryOptions) (cvs : list CursorValue)
  (triples : list any) :
  sorted_by_name (Columns opts) ->
  (Z.of_nat (length (Columns opts)) < 2 ^ 53)%Z ->
  Forall (valid_value base64_EncodeToString opts) cvs ->
  Forall
    (fun c => forall b, cv_Value c = ABytes b ->
                        base64_DecodeString (base64_EncodeToString b) = Some b) cvs ->
  encode_values opts cvs = Some triples ->
  decode_chunks base64_DecodeString int_of_unrepresentable opts
    (Chunk3 (map (json_view base64_EncodeToString) triples))
  = Ok (Returned cvs).
Proof.
  intros Hs Hlen Hv. revert triples.
  induction Hv as [|c cvs (ix & col & Hix & Hname & Hval) _ IH];
    intros triples Hb He.
  - injection He as <-. reflexivity.
  - inversion Hb as [|? ? Hbc Hb']; subst.
    cbn [encode_values] in He. rewrite <- Hname in He.
    rewrite (@GetColumnIndex_found opts ix col Hs Hix) in He.
    destruct (encode_values opts cvs) as [rest|] eqn:Hrest; [|discriminate].
    injection He as <-.
    cbn [map json_view Chunk3 decode_chunks].
    specialize (IH rest Hb' eq_refl). rewrite IH.
    assert (Hlt : ix < length (Columns opts))
      by (apply nth_error_Some; congruence).
    unfold decode_chunk.
    replace (Z.of_N (N.of_nat ix)) with (Z.of_nat ix) by lia.
    rewrite int_of_float64_exact by lia.
    assert (Hge : (Z.of_nat (length (Columns opts)) <=? Z.of_nat ix)%Z = false)
      by (apply Z.leb_gt; lia).
    rewrite Hge.
    assert (Hd : int_of_float64 int_of_unrepresentable
                   (float64_of_Z (Z.of_N (if Descending c then 1 else 0)%N))
                 = if Descending c then 1%Z else 0%Z).
    { destruct (Descending c); reflexivity. }
    rewrite Hd.
    assert (Hix' : index_Z (Columns opts) (Z.of_nat ix) = Some col).
    { unfold index_Z.
      assert (Hn : (Z.of_nat ix <? 0)%Z = false) by (apply Z.ltb_ge; lia).
      rewrite Hn, Nat2Z.id. exact Hix. }
    destruct c as [name v desc]. cbn [ColumnName cv_Value Descending] in *.
    subst name.
    destruct desc; cbn [Z.eqb orb]; rewrite Hix';
      (destruct (IsBytes col);
       [destruct Hval as [b ->]; cbn [json_view]; rewrite (Hbc b eq_refl)
       |rewrite Hval]; reflexivity).
Qed.

(** C6 (amended).  For options whose columns are sorted by name, a cursor whose
    block number is below [2 ^ 53], whose columns are columns of the options,
    whose byte columns hold byte slices and whose other columns hold values
    that JSON returns as they are, is returned by [DecodeCursor] from the
    string that [EncodeCursor] wrote for it; in particular the bytes of a byte
    column come back through base64. *)
Theorem DecodeCursor_EncodeCursor (opts : QueryOptions) (x : Cursor) :
  valid_cursor base64_EncodeToString opts x ->
  (Z.of_N (BlockNumber x) < 2 ^ 53)%Z ->
  libraries_invert_at json_Marshal_Cursor json_Marshal json_Unmarshal
    base64_EncodeToString base64_DecodeString opts x ->
  exists s,
    EncodeCursor json_Marshal_Cursor json_Marshal opts x = Returned s
    /\ DecodeCursor json_Marshal_Cursor json_Unmarshal base64_DecodeString
         uint64_of_unrepresentable int_of_unrepresentable opts s
       = Ok (Returned (Some x)).
Proof.
  intros (Hs & Hlen & Hv) Hbn (Hmc & Hjson & Hb64).
  destruct (@encode_values_valid opts (ColumnValues x) Hs Hv) as [triples Ht].
  destruct (Hjson triples Ht) as (text & Hm & Hne & Hu).
  exists (hex_EncodeToString text). split.
  - unfold EncodeCursor.
    destruct (json_Marshal_Cursor x); [|congruence].
    rewrite Ht, Hm. reflexivity.
  - unfold DecodeCursor.
    rewrite hex_EncodeToString_length.
    destruct text as [|t0 text']; [congruence|].
    cbn [length Nat.mul Nat.add Nat.eqb].
    rewrite hex_roundtrip, Hu. cbn [map json_view].
    rewrite (@decode_chunks_encode_values opts (ColumnValues x) triples Hs Hlen Hv Hb64 Ht).
    rewrite uint64_of_float64_exact by exact Hbn.
    destruct x as [bn cvs]. cbn [BlockNumber ColumnValues] in *.
    destruct (json_Marshal_Cursor (mkCursor bn cvs)); [reflexivity|congruence].
Qed.

End RoundTrip.

Lemma plain_options_sorted : sorted_by_name (Columns plain_options).
Proof.
  unfold sorted_by_name. repeat constructor.
Qed.

Lemma scenario_values_valid :
  Forall (valid_value std_base64_EncodeToString plain_options)
    (ColumnValues scenario_cursor).
Proof.
  constructor; [|constructor; [|constructor]].
  - exists 1, from_block_column. repeat split.
  - exists 0, entity_key_column. repeat split. exists [xde; xad]. reflexivity.
Qed.

(** C6, where the round trip fails.  A cursor on the order-by columns of the resolved
    options, at block [2 ^ 53 + 1], is encoded and decoded without error, and
    comes back at block [2 ^ 53]: the decoder reads the JSON number into a
    [float64]. *)
Lemma DecodeCursor_rounds_block_number :
  valid_cursor std_base64_EncodeToString plain_options far_cursor
  /\ example_EncodeCursor plain_options far_cursor
     = Returned
         "5b393030373139393235343734303939332c312c34322c302c302c223371303d222c305d"
  /\ example_DecodeCursor plain_options
       "5b393030373139393235343734303939332c312c34322c302c302c223371303d222c305d"
     = Ok (Returned (Some far_cursor_decoded))
  /\ far_cursor_decoded <> far_cursor.
Proof.
  split; [|split; [|split]].
  - split; [exact plain_options_sorted|]. split; [reflexivity|].
    exact scenario_values_valid.
  - vm_compute. reflexivity.
  - vm_compute. reflexivity.
  - discriminate.
Qed.

(** C6 at scenario 8 of the specification, whose array is
    [[10,1,42,0,0,"3q0=",0]]. *)
Lemma DecodeCursor_EncodeCursor_scenario :
  exists s,
    example_EncodeCursor plain_options scenario_cursor = Returned s
    /\ example_DecodeCursor plain_options s = Ok (Returned (Some scenario_cursor)).
Proof.
  apply (@DecodeCursor_EncodeCursor example_json_Marshal_Cursor example_json_Marshal
           example_json_Unmarshal std_base64_EncodeToString std_base64_DecodeString
           (fun _ => 0%N) (fun _ => 0%Z) plain_options scenario_cursor).
  - split; [exact plain_options_sorted|]. split; [reflexivity|].
    exact scenario_values_valid.
  - reflexivity.
  - split; [discriminate|]. split.
    + intros triples H. vm_compute in H. injection H as <-.
      eexists. split; [vm_compute; reflexivity|].
      split; [discriminate|vm_compute; reflexivity].
    + repeat constructor; intros b [= <-]; reflexivity.
Defined.

(** ** Malformed cursors *)

Section Malformed.
Variable json_Marshal_Cursor : Cursor -> option (list byte).
Variable json_Unmarshal : list byte -> option (list any).
Variable base64_DecodeString : string -> option (list byte).
Variable uint64_of_unrepresentable : float64 -> N.
Variable int_of_unrepresentable : float64 -> Z.

(** C7 (evaluation of the code at failing inputs).  [DecodeCursor] panics,
    and returns no error, on the hexadecimal text of a JSON text that
    [json.Unmarshal] reads as the empty array (the block number is taken at
    index 0 of an empty slice); as an array whose first triple has a third
    element that is not a number (the error message takes index 3 of a chunk
    of length 3); as an array whose first triple has a negative column index
    and a descending flag in {0, 1} (the index is only compared with the
    number of columns before it is used). *)
Theorem DecodeCursor_panics_on_malformed (opts : QueryOptions) (text : list byte) :
  text <> [] ->
  (json_Unmarshal text = Some [] ->
   DecodeCursor json_Marshal_Cursor json_Unmarshal base64_DecodeString
     uint64_of_unrepresentable int_of_unrepresentable opts (hex_EncodeToString text)
   = Panic index_out_of_range_0)
  /\ (forall b ix v d rest,
         json_Unmarshal text = Some (AFloat64 b :: AFloat64 ix :: v :: d :: rest) ->
         (forall f, d <> AFloat64 f) ->
         DecodeCursor json_Marshal_Cursor json_Unmarshal base64_DecodeString
           uint64_of_unrepresentable int_of_unrepresentable opts
           (hex_EncodeToString text)
         = Panic index_out_of_range_3)
  /\ (forall b ix v d rest,
         json_Unmarshal text
         = Some (AFloat64 b :: AFloat64 ix :: v :: AFloat64 d :: rest) ->
         (int_of_float64 int_of_unrepresentable ix < 0)%Z ->
         int_of_float64 int_of_unrepresentable d = 0%Z
         \/ int_of_float64 int_of_unrepresentable d = 1%Z ->
         DecodeCursor json_Marshal_Cursor json_Unmarshal base64_DecodeString
           uint64_of_unrepresentable int_of_unrepresentable opts
           (hex_EncodeToString text)
         = Panic index_out_of_range_negative).
Proof.
  intros Hne.
  assert (Hlen : (String.length (hex_EncodeToString text) =? 0) = false).
  { rewrite hex_EncodeToString_length. destruct text; [congruence|reflexivity]. }
  unfold DecodeCursor. rewrite Hlen, hex_roundtrip.
  split; [|split].
  - intros ->. reflexivity.
  - intros b ix v d rest -> Hd. cbn [Chunk3 decode_chunks decode_chunk].
    destruct d; try reflexivity. exfalso. exact (Hd f eq_refl).
  - intros b ix v d rest -> Hix Hd. cbn [Chunk3 decode_chunks decode_chunk].
    assert (Hge : (Z.of_nat (length (Columns opts))
                   <=? int_of_float64 int_of_unrepresentable ix)%Z = false)
      by (apply Z.leb_gt; lia).
    rewrite Hge.
    assert (Hsw : ((int_of_float64 int_of_unrepresentable d =? 0)
                   || (int_of_float64 int_of_unrepresentable d =? 1))%Z = true).
    { destruct Hd as [-> | ->]; reflexivity. }
    rewrite Hsw. unfold index_Z.
    assert (Hneg : (int_of_float64 int_of_unrepresentable ix <? 0)%Z = true)
      by (apply Z.ltb_lt; lia).
    rewrite Hneg. reflexivity.
Qed.

End Malformed.

(** C7 at three cursor strings: the hexadecimal text of [[]], of an array
    whose triple ends in a string, and of an array whose triple starts with
    the column index [-1]. *)
Lemma DecodeCursor_panics_at_examples :
  example_DecodeCursor plain_options "5b5d" = Panic index_out_of_range_0
  /\ example_DecodeCursor plain_options "5b312c302c2278222c2279225d"
     = Panic index_out_of_range_3
  /\ example_DecodeCursor plain_options "5b312c2d312c2278222c305d"
     = Panic index_out_of_range_negative.
Proof.
  split; [|split].
  - assert (Hne : [x5b; x5d] <> @nil byte) by discriminate.
    exact (proj1
             (@DecodeCursor_panics_on_malformed example_json_Marshal_Cursor
                example_json_Unmarshal std_base64_DecodeString
                (fun _ => 0%N) (fun _ => 0%Z) plain_options [x5b; x5d] Hne)
             eq_refl).
  - assert (Hne : [x5b; x31; x2c; x30; x2c; x22; x78; x22; x2c; x22; x79; x22; x5d]
                  <> @nil byte) by discriminate.
    refine (proj1 (proj2
             (@DecodeCursor_panics_on_malformed example_json_Marshal_Cursor
                example_json_Unmarshal std_base64_DecodeString
                (fun _ => 0%N) (fun _ => 0%Z) plain_options
                [x5b; x31; x2c; x30; x2c; x22; x78; x22; x2c; x22; x79; x22; x5d] Hne))
             _ _ _ _ _ eq_refl _).
    intros f. discriminate.
  - assert (Hne : [x5b; x31; x2c; x2d; x31; x2c; x22; x78; x22; x2c; x30; x5d]
                  <> @nil byte) by discriminate.
    refine (proj2 (proj2
             (@DecodeCursor_panics_on_malformed example_json_Marshal_Cursor
                example_json_Unmarshal std_base64_DecodeString
                (fun _ => 0%N) (fun _ => 0%Z) plain_options
                [x5b; x31; x2c; x2d; x31; x2c; x22; x78; x22; x2c; x30; x5d] Hne))
             _ _ _ _ _ eq_refl _ _).
    + reflexivity.
    + left. reflexivity.
Defined.

(* ================================================================== *)
(** * The query builder *)
(* ================================================================== *)

Lemma string_append_assoc (a b c : string) :
  ((a ++ b) ++ c = a ++ (b ++ c))%string.
Proof.
  induction a as [|x a IH]; simpl; [reflexivity|]. rewrite IH. reflexivity.
Qed.

Lemma string_append_nil_r (a : string) : (a ++ EmptyString = a)%string.
Proof.
  induction a as [|x a IH]; simpl; [reflexivity|]. rewrite IH. reflexivity.
Qed.

Lemma uint32_succ_small (n : N) : (n + 1 < 2 ^ 32)%N -> uint32_succ n = (n + 1)%N.
Proof. intros H. unfold uint32_succ. apply N.mod_small. exact H. Qed.

(** ** The first loop of [addPaginationArguments] *)

Lemma pushCursorArguments_spec (cursor : list CursorValue) :
  forall b,
    (argsCount b + N.of_nat (length cursor) < 2 ^ 32)%N ->
    pushCursorArguments b cursor
    = (placeholders_from (argsCount b + 1) (length cursor),
       mkQueryBuilder (queryBuilder b) (args b ++ map cv_Value cursor)
         (argsCount b + N.of_nat (length cursor)) (tableCounter b)
         (needsComma b) (needsWhere b) (options b) (sqlDialect b)).
Proof.
  induction cursor as [|val r IH]; intros b Hb.
  - simpl. rewrite app_nil_r, N.add_0_r. destruct b; reflexivity.
  - cbn [pushCursorArguments length placeholders_from map].
    unfold pushArgument. rewrite uint32_succ_small by (simpl length in Hb; lia).
    rewrite IH by (cbn [argsCount]; simpl length in Hb; lia).
    cbn [queryBuilder args argsCount tableCounter needsComma needsWhere options
         sqlDialect].
    unfold placeholder. rewrite <- app_assoc. simpl app.
    replace (argsCount b + 1 + N.of_nat (length r))%N
      with (argsCount b + N.of_nat (S (length r)))%N by lia.
    reflexivity.
Qed.

(** ** The loops that write the rows *)

Lemma keyset_columns_length (opts : QueryOptions) (cursor : list CursorValue) :
  forall cols, keyset_columns opts cursor = Some cols -> length cols = length cursor.
Proof.
  induction cursor as [|c r IH]; intros cols H; simpl in H.
  - injection H as <-. reflexivity.
  - destruct (lookupColumn opts (ColumnName c)); [|discriminate].
    destruct (keyset_columns opts r) as [l|]; [|discriminate].
    injection H as <-. simpl. f_equal. apply IH. reflexivity.
Qed.

Lemma subcondition_spec (opts : QueryOptions) (cursor : list CursorValue) :
  forall cols k i j,
    keyset_columns opts cursor = Some cols -> j <= i ->
    subcondition opts i j (combine cursor (placeholders_from k (length cursor)))
    = Some (map render_Comparison (row_upto (i - j) cols k)).
Proof.
  induction cursor as [|c r IH]; intros cols k i j Hc Hji; simpl in Hc.
  - injection Hc as <-. reflexivity.
  - destruct (lookupColumn opts (ColumnName c)) as [column|] eqn:Hl; [|discriminate].
    destruct (keyset_columns opts r) as [l|] eqn:Hr; [|discriminate].
    injection Hc as <-.
    cbn [length placeholders_from combine subcondition].
    assert (Hij : (i <? j) = false) by (apply Nat.ltb_ge; exact Hji).
    rewrite Hij, Hl. destruct (j <? i) eqn:Hlt.
    + apply Nat.ltb_lt in Hlt.
      rewrite (IH l (k + 1)%N i (S j) eq_refl) by lia.
      replace (i - j) with (S (i - S j)) by lia. reflexivity.
    + apply Nat.ltb_ge in Hlt. assert (i = j) by lia. subst i.
      rewrite Nat.sub_diag.
      assert (Hend :
        subcondition opts j (S j) (combine r (placeholders_from (k + 1) (length r)))
        = Some []).
      { destruct (combine r (placeholders_from (k + 1) (length r))) as [|[from arg] rest];
          [reflexivity|].
        cbn [subcondition].
        assert (Hs : (j <? S j) = true) by (apply Nat.ltb_lt; lia).
        rewrite Hs. reflexivity. }
      rewrite Hend. cbn [row_upto map ks_Column ks_Descending].
      unfold render_Comparison, direction.
      cbn [cmp_Column cmp_Operator cmp_Placeholder].
      destruct (Descending c); reflexivity.
Qed.

Lemma paginationConditions_spec (opts : QueryOptions) (cursor : list CursorValue)
  (cols : list KeysetColumn) (k : N) :
  keyset_columns opts cursor = Some cols ->
  forall n s,
    paginationConditions opts (combine cursor (placeholders_from k (length cursor)))
      (seq s n)
    = Some (map (fun i => render_row (row_upto i cols k)) (seq s n)).
Proof.
  intros Hc. induction n as [|n IH]; intros s; [reflexivity|].
  cbn [seq paginationConditions map].
  rewrite (@subcondition_spec opts cursor cols k s 0 Hc) by lia.
  rewrite IH, Nat.sub_0_r. reflexivity.
Qed.

Lemma keyset_rows_row_upto (cols : list KeysetColumn) :
  forall equalities k,
    keyset_rows equalities cols k
    = map (fun d => equalities ++ row_upto d cols k) (seq 0 (length cols)).
Proof.
  induction cols as [|c r IH]; intros equalities k; [reflexivity|].
  cbn [keyset_rows length seq map row_upto]. f_equal.
  rewrite IH, <- seq_shift, map_map.
  apply map_ext. intros d. cbn [row_upto]. rewrite <- app_assoc. reflexivity.
Qed.

(** ** The truth of the rows *)

Section KeysetTruth.

Variable V : Type.
Variable compare_value : V -> any -> comparison.
Variable row : string -> V.

Lemma holds_rows_keyset (arguments : list any) (cols : list KeysetColumn) :
  forall values equalities k,
    length values = length cols ->
    (forall j, j < length values ->
               argument arguments (k + N.of_nat j) = nth_error values j) ->
    holds_rows compare_value row arguments (keyset_rows equalities cols k)
    = forallb (holds_Comparison compare_value row arguments) equalities
      && succeeds compare_value row cols values.
Proof.
  induction cols as [|c r IH]; intros values equalities k Hlen Harg.
  - simpl. rewrite andb_false_r. reflexivity.
  - destruct values as [|v vs]; [discriminate Hlen|].
    cbn [keyset_rows]. unfold holds_rows. cbn [existsb].
    fold (holds_rows compare_value row arguments
            (keyset_rows
               (equalities ++ [mkComparison (ks_Column c) OpEq k]) r (k + 1))).
    rewrite (IH vs).
    + rewrite !forallb_app. cbn [forallb]. rewrite !andb_true_r.
      unfold holds_Comparison at 2 4.
      cbn [cmp_Column cmp_Operator cmp_Placeholder].
      assert (H0 : argument arguments k = Some v).
      { specialize (Harg 0 ltac:(simpl; lia)). rewrite N.add_0_r in Harg.
        exact Harg. }
      rewrite H0. cbn [succeeds].
      destruct (forallb (holds_Comparison compare_value row arguments) equalities);
        cbn [andb orb]; [|reflexivity].
      unfold direction.
      destruct (compare_value (row (ks_Column c)) v), (ks_Descending c);
        cbn [andb orb negb]; reflexivity.
    + simpl in Hlen. lia.
    + intros j Hj. specialize (Harg (S j) ltac:(simpl; lia)).
      replace (k + 1 + N.of_nat j)%N with (k + N.of_nat (S j))%N by lia.
      exact Harg.
Qed.

Lemma argument_pushed (old values : list any) (j : nat) :
  argument (old ++ values) (N.of_nat (length old) + 1 + N.of_nat j)
  = nth_error values j.
Proof.
  unfold argument.
  destruct (N.of_nat (length old) + 1 + N.of_nat j)%N eqn:E; [lia|].
  rewrite <- E.
  replace (N.to_nat (N.of_nat (length old) + 1 + N.of_nat j) - 1)
    with (length old + j) by lia.
  rewrite nth_error_app2 by lia. f_equal. lia.
Qed.

End KeysetTruth.

(** C8. With a cursor whose columns are known, on a builder whose counter
    is the number of its arguments and stays below [2 ^ 32]:
    without cursor values [addPaginationArguments] leaves the builder as it
    is; with cursor values it returns no error, has pushed each value once,
    in order, and has written, after [WHERE] or [AND], the rendering of
    [(c1 OP1 $k) OR (c1 = $k AND c2 OP2 $k+1) OR ...] in parentheses, where
    [OPi] is [<] for a descending column and [>] otherwise and [$k+i] is the
    argument of value [i] in every row; and under any comparison of column
    values with arguments these rows hold of a result row exactly when the
    row comes strictly after the cursor in the lexicographic order of the
    columns, each read in its direction. *)
Theorem addPaginationArguments_keyset (b : QueryBuilder) (cols : list KeysetColumn) :
  counts_arguments b ->
  (argsCount b + N.of_nat (length (opt_Cursor (options b))) < 2 ^ 32)%N ->
  keyset_columns (options b) (opt_Cursor (options b)) = Some cols ->
  match opt_Cursor (options b) with
  | [] => addPaginationArguments b = (b, None)
  | _ :: _ =>
      exists b',
        addPaginationArguments b = (b', None)
        /\ args b' = args b ++ map cv_Value (opt_Cursor (options b))
        /\ queryBuilder b'
           = (queryBuilder b ++ (if needsWhere b then " WHERE " else " AND ")
              ++ "(" ++ render_rows (keyset_rows [] cols (argsCount b + 1)) ++ ")")%string
        /\ needsWhere b' = false
        /\ forall (V : Type) (compare_value : V -> any -> comparison)
                  (row : string -> V),
             holds_rows compare_value row (args b')
               (keyset_rows [] cols (argsCount b + 1))
             = succeeds compare_value row cols
                 (map cv_Value (opt_Cursor (options b)))
  end.
Proof.
  intros Hcount Hbound Hcols.
  destruct (opt_Cursor (options b)) as [|c0 cursor0] eqn:Hcursor.
  - unfold addPaginationArguments. rewrite Hcursor. reflexivity.
  - rewrite <- Hcursor in *.
    set (cursor := opt_Cursor (options b)) in *.
    assert (Hlen : length cols = length cursor)
      by (eapply keyset_columns_length; exact Hcols).
    assert (Hpos : (0 <? length cursor) = true)
      by (rewrite Hcursor; reflexivity).
    unfold addPaginationArguments. fold cursor. rewrite Hpos.
    rewrite (@pushCursorArguments_spec cursor b Hbound).
    rewrite (@paginationConditions_spec (options b) cursor cols
               (argsCount b + 1) Hcols (length cursor) 0).
    rewrite <- Hlen.
    assert (Hrows :
      map (fun i => render_row (row_upto i cols (argsCount b + 1)))
        (seq 0 (length cols))
      = map render_row (keyset_rows [] cols (argsCount b + 1))).
    { rewrite keyset_rows_row_upto, map_map. reflexivity. }
    rewrite Hrows.
    fold (render_rows (keyset_rows [] cols (argsCount b + 1))).
    eexists. split; [reflexivity|].
    unfold writeWhereOrAnd, WriteString, set_needsWhere.
    cbn [queryBuilder args argsCount tableCounter needsComma needsWhere options
         sqlDialect].
    destruct (needsWhere b) eqn:Hw;
      cbn [queryBuilder args argsCount tableCounter needsComma needsWhere options
           sqlDialect];
      (split; [reflexivity|]);
      (split; [rewrite !string_append_assoc; reflexivity|]).
    + split; [reflexivity|]. intros V compare_value row.
      rewrite (@holds_rows_keyset V compare_value row _ cols
                 (map cv_Value cursor) [] (argsCount b + 1)%N).
      * reflexivity.
      * rewrite length_map. symmetry. exact Hlen.
      * intros j _. rewrite Hcount. apply argument_pushed.
    + split; [reflexivity|]. intros V compare_value row.
      rewrite (@holds_rows_keyset V compare_value row _ cols
                 (map cv_Value cursor) [] (argsCount b + 1)%N).
      * reflexivity.
      * rewrite length_map. symmetry. exact Hlen.
      * intros j _. rewrite Hcount. apply argument_pushed.
Qed.

(** C8, at the cursor of scenario 8 on a builder that has written nothing
    but its selection, and at the same builder without a cursor. *)
Lemma addPaginationArguments_scenario :
  (exists b',
     addPaginationArguments scenario_builder = (b', None)
     /\ args b' = [AFloat64 (float64_of_Z 42); ABytes [xde; xad]]
     /\ queryBuilder b'
        = "SELECT 1 FROM payloads AS e WHERE ((e.from_block > $1) OR (e.from_block = $1 AND e.entity_key > $2))"
     /\ needsWhere b' = false
     /\ forall (V : Type) (compare_value : V -> any -> comparison)
               (row : string -> V),
          holds_rows compare_value row (args b')
            (keyset_rows []
               [mkKeysetColumn "e.from_block" false; mkKeysetColumn "e.entity_key" false] 1)
          = succeeds compare_value row
              [mkKeysetColumn "e.from_block" false; mkKeysetColumn "e.entity_key" false]
              [AFloat64 (float64_of_Z 42); ABytes [xde; xad]])
  /\ addPaginationArguments plain_builder = (plain_builder, None).
Proof.
  split.
  - exact (@addPaginationArguments_keyset scenario_builder
             [mkKeysetColumn "e.from_block" false; mkKeysetColumn "e.entity_key" false]
             eq_refl eq_refl eq_refl).
  - exact (@addPaginationArguments_keyset plain_builder [] eq_refl eq_refl eq_refl).
Defined.

(** A cursor whose column names are names of [Columns] has its columns
    resolved, when [Columns] is sorted. *)
Lemma keyset_columns_known (opts : QueryOptions) (cursor : list CursorValue) :
  sorted_by_name (Columns opts) ->
  Forall (fun c => exists ix col,
                     nth_error (Columns opts) ix = Some col /\ Name col = ColumnName c)
    cursor ->
  exists cols,
    keyset_columns opts cursor = Some cols
    /\ map ks_Descending cols = map Descending cursor.
Proof.
  intros Hs. induction 1 as [|c r (ix & col & Hix & Hname) _ (cols & Hc & Hd)].
  - exists []. split; reflexivity.
  - exists (mkKeysetColumn (QualifiedName col) (Descending c) :: cols).
    cbn [keyset_columns]. unfold lookupColumn. rewrite <- Hname.
    rewrite (@GetColumnIndex_found opts ix col Hs Hix), Hix, Hc. split; [reflexivity|].
    simpl. rewrite Hd. reflexivity.
Qed.

(** ** [EvaluateAST] on the empty AST *)

Lemma decimal_first_argument : decimal (uint32_succ 0) = "1".
Proof. reflexivity. Qed.

Lemma decimal_limit : decimal QueryResultCountLimit = "200".
Proof. reflexivity. Qed.

(** Without order-by annotations and without a cursor, the statement for the
    empty AST is the selection from [payloads], the block constraint on the
    first argument, the order and the limit. *)
Lemma EvaluateAST_empty (ToLower : string -> string) (atBlock : N)
  (inc : IncludeData) (cols : list Column) (orderBy : list OrderBy) :
  EvaluateAST ToLower (mkAST None) (mkQueryOptions atBlock inc cols orderBy [] [])
  = Ok (Returned
          (mkSelectQuery
             ("SELECT "
              ++ columnString (mkQueryOptions atBlock inc cols orderBy [] [])
              ++ " FROM payloads AS e WHERE $1 BETWEEN e.from_block AND e.to_block - 1 ORDER BY "
              ++ strings_Join (map orderColumn orderBy) ", " ++ " LIMIT 200")%string
             [AUint64 atBlock])).
Proof.
  unfold EvaluateAST.
  generalize (columnString (mkQueryOptions atBlock inc cols orderBy [] [])) as cs.
  intros cs.
  cbn [ast_Expr bind OrderByAnnotations orderByJoins].
  unfold addPaginationArguments, writeWhereOrAnd, pushArgument, set_needsWhere,
    WriteString.
  cbn [queryBuilder args argsCount tableCounter needsComma needsWhere options
       sqlDialect opt_Cursor length Nat.ltb Nat.leb opt_OrderBy AtBlock app].
  rewrite decimal_first_argument, decimal_limit.
  generalize (strings_Join (map orderColumn orderBy) ", ") as order. intros order.
  unfold strings_Join. cbn [String.concat].
  rewrite !string_append_assoc. reflexivity.
Qed.

(** C9, as the code has it. For the filter [$all], options resolved by
    [NewQueryOptions] from no order-by annotation and no cursor:
    [EvaluateAST] returns the statement of the specification in which the
    placeholder is [$1], without a [WITH] clause, with the block as its only
    argument. *)
Theorem EvaluateAST_all (ToLower : string -> string)
  (json_Marshal_Cursor : Cursor -> option (list byte))
  (json_Unmarshal : list byte -> option (list any))
  (base64_DecodeString : string -> option (list byte))
  (uint64_of_unrepresentable : float64 -> N)
  (int_of_unrepresentable : float64 -> Z)
  (latestHead : N) (atBlock : option N) (inc : IncludeData) :
  exists opts,
    NewQueryOptions json_Marshal_Cursor json_Unmarshal base64_DecodeString
      uint64_of_unrepresentable int_of_unrepresentable latestHead
      (mkInternalQueryOptions atBlock inc [] EmptyString)
    = Ok (Returned opts)
    /\ AtBlock opts = match atBlock with Some a => a | None => latestHead end
    /\ EvaluateAST ToLower (mkAST None) opts
       = Ok (Returned
               (mkSelectQuery (all_statement (columnString opts) "$1")
                  [AUint64 (AtBlock opts)])).
Proof.
  exists (mkQueryOptions (match atBlock with Some a => a | None => latestHead end)
            inc (SortColumns (resolvedColumns inc []))
            [mkOrderBy (mkColumn "from_block" "e.from_block" false) false;
             mkOrderBy (mkColumn "entity_key" "e.entity_key" true) false] [] []).
  split; [destruct atBlock; reflexivity|].
  split; [reflexivity|].
  rewrite EvaluateAST_empty. reflexivity.
Qed.

(** C9, the placeholder. On [plain_options] the statement that
    [EvaluateAST] returns for [$all] has [$1] where the specification has
    [?]: it is neither the statement with [?] nor the one with [?1]. *)
Lemma EvaluateAST_all_writes_dollar :
  exists q,
    EvaluateAST ToLower_ascii (mkAST None) plain_options
    = Ok (Returned (mkSelectQuery q [AUint64 7]))
    /\ q = all_statement "e.entity_key AS entity_key, e.from_block AS from_block" "$1"
    /\ String.eqb q
         (all_statement "e.entity_key AS entity_key, e.from_block AS from_block" "?")
       = false
    /\ String.eqb q
         (all_statement "e.entity_key AS entity_key, e.from_block AS from_block" "?1")
       = false.
Proof.
  eexists. split; [vm_compute; reflexivity|].
  split; [reflexivity|]. split; reflexivity.
Qed.

(* ================================================================== *)
(** * Query options *)
(* ================================================================== *)

(** ** [%d] can be read back *)

Lemma digit_char (d : N) :
  (d < 10)%N ->
  is_digit (ascii_of_N (48 + d)) = true /\ N_of_digit (ascii_of_N (48 + d)) = d.
Proof.
  intros H.
  assert (Hd : In d [0; 1; 2; 3; 4; 5; 6; 7; 8; 9]%N).
  { destruct d as [|p]; [left; reflexivity|].
    do 10 (destruct p as [p|p|]; try lia; simpl; auto 12). }
  simpl in Hd.
  repeat (destruct Hd as [<-|Hd]; [split; reflexivity|]). destruct Hd.
Qed.

Lemma read_digits_decimal_digits (fuel : nat) :
  forall n acc,
    (n < 2 ^ N.of_nat fuel)%N ->
    read_digits (decimal_digits fuel n acc) 0 = read_digits acc n.
Proof.
  induction fuel as [|fuel IH]; intros n acc Hn.
  - simpl in Hn. assert (n = 0%N) by lia. subst n. reflexivity.
  - cbn [decimal_digits].
    destruct (@digit_char (n mod 10)%N) as [Hd Hv];
      [apply N.mod_lt; lia|].
    destruct (n <? 10)%N eqn:Hlt.
    + apply N.ltb_lt in Hlt. rewrite N.mod_small by exact Hlt.
      rewrite N.mod_small in Hd, Hv by exact Hlt.
      cbn [read_digits]. rewrite Hd, Hv. reflexivity.
    + apply N.ltb_ge in Hlt. rewrite IH.
      * cbn [read_digits]. rewrite Hd, Hv. f_equal.
        pose proof (N.div_mod n 10 ltac:(lia)). lia.
      * rewrite Nat2N.inj_succ, N.pow_succ_r' in Hn.
        apply N.Div0.div_lt_upper_bound.
        lia.
Qed.

Lemma decimal_digits_app (fuel : nat) :
  forall n acc s,
    (decimal_digits fuel n acc ++ s = decimal_digits fuel n (acc ++ s))%string.
Proof.
  induction fuel as [|fuel IH]; intros n acc s; [reflexivity|].
  cbn [decimal_digits]. destruct (n <? 10)%N; [reflexivity|].
  rewrite IH. reflexivity.
Qed.

Lemma read_digits_decimal (n : N) (s : string) :
  read_digits (decimal n ++ s) 0 = read_digits s n.
Proof.
  unfold decimal. rewrite decimal_digits_app. cbn [append].
  apply read_digits_decimal_digits.
  rewrite Nat2N.inj_succ, N2Nat.id.
  destruct n as [|p]; [reflexivity|].
  apply N.log2_spec. lia.
Qed.

Lemma decimal_inj (n m : N) : decimal n = decimal m -> n = m.
Proof.
  intros H.
  pose proof (read_digits_decimal n EmptyString) as Hn.
  pose proof (read_digits_decimal m EmptyString) as Hm.
  rewrite H in Hn. cbn [read_digits] in Hn, Hm. congruence.
Qed.

Lemma sorting_index_sortingColumn (i : nat) :
  sorting_index (Name (sortingColumn i)) = N.of_nat i.
Proof.
  unfold sorting_index, sortingColumn. cbn [Name append drop_chars].
  rewrite read_digits_decimal. reflexivity.
Qed.

Lemma sortingColumn_starts_with_a (i : nat) :
  starts_with_a (Name (sortingColumn i)) = true.
Proof. reflexivity. Qed.

(** ** The order of names *)

Lemma Ascii_compare_trans (a b c : ascii) :
  Ascii.compare a b = Lt -> Ascii.compare b c = Lt -> Ascii.compare a c = Lt.
Proof.
  unfold Ascii.compare. rewrite !N.compare_lt_iff. lia.
Qed.

Lemma Ascii_compare_Eq (a b : ascii) : Ascii.compare a b = Eq -> a = b.
Proof.
  unfold Ascii.compare. rewrite N.compare_eq_iff. intros H.
  rewrite <- (ascii_N_embedding a), <- (ascii_N_embedding b), H. reflexivity.
Qed.

Lemma String_compare_trans (a : string) :
  forall b c, String.compare a b = Lt -> String.compare b c = Lt ->
              String.compare a c = Lt.
Proof.
  induction a as [|x a IH]; intros [|y b] [|z c]; simpl; try congruence.
  destruct (Ascii.compare x y) eqn:Hxy; try discriminate.
  - apply Ascii_compare_Eq in Hxy. subst y.
    destruct (Ascii.compare x z); try congruence. apply IH.
  - intros _. destruct (Ascii.compare y z) eqn:Hyz; try discriminate.
    + apply Ascii_compare_Eq in Hyz. subst z. rewrite Hxy. reflexivity.
    + intros _. rewrite (@Ascii_compare_trans x y z Hxy Hyz). reflexivity.
Qed.

Lemma String_compare_Gt_Lt (a b : string) :
  String.compare a b = Gt -> String.compare b a = Lt.
Proof.
  intros H. rewrite String.compare_antisym, H. reflexivity.
Qed.

(** ** [slices.SortFunc] on columns of distinct names *)

Lemma insert_by_name_In (c : Column) (l : list Column) (x : Column) :
  In x (insert_by_name c l) <-> x = c \/ In x l.
Proof.
  induction l as [|d r IH]; simpl.
  - intuition congruence.
  - destruct (String.compare (Name c) (Name d)); simpl; try rewrite IH;
      intuition congruence.
Qed.

Lemma insert_by_name_Permutation (c : Column) (l : list Column) :
  Permutation (c :: l) (insert_by_name c l).
Proof.
  induction l as [|d r IH]; simpl; [apply Permutation_refl|].
  destruct (String.compare (Name c) (Name d)); try apply Permutation_refl.
  eapply Permutation_trans; [apply perm_swap|].
  apply perm_skip. exact IH.
Qed.

Lemma SortColumns_Permutation (l : list Column) : Permutation l (SortColumns l).
Proof.
  induction l as [|c r IH]; simpl; [constructor|].
  eapply Permutation_trans; [apply perm_skip; exact IH|].
  apply insert_by_name_Permutation.
Qed.

Lemma insert_by_name_sorted (c : Column) (l : list Column) :
  sorted_by_name l -> ~ In (Name c) (map Name l) ->
  sorted_by_name (insert_by_name c l).
Proof.
  unfold sorted_by_name.
  induction 1 as [|d r Hs IH Hd]; intros Hc; simpl.
  - constructor; constructor.
  - simpl in Hc.
    destruct (String.compare (Name c) (Name d)) eqn:Hcmp.
    + apply String.compare_eq_iff in Hcmp. exfalso. apply Hc. left. congruence.
    + constructor; [constructor; assumption|].
      constructor; [exact Hcmp|].
      rewrite Forall_forall in *. intros x Hx.
      eapply String_compare_trans; [exact Hcmp|]. apply Hd. exact Hx.
    + constructor.
      * apply IH. intros Hin. apply Hc. right. exact Hin.
      * rewrite Forall_forall in *. intros x Hx.
        apply insert_by_name_In in Hx. destruct Hx as [->|Hx].
        -- apply String_compare_Gt_Lt. exact Hcmp.
        -- apply Hd. exact Hx.
Qed.

Lemma SortColumns_sorted (l : list Column) :
  NoDup (map Name l) -> sorted_by_name (SortColumns l).
Proof.
  induction l as [|c r IH]; simpl; intros Hn.
  - constructor.
  - inversion Hn as [|? ? Hnotin Hr]; subst.
    apply insert_by_name_sorted; [apply IH; exact Hr|].
    intros Hin. apply Hnotin.
    apply in_map_iff in Hin. destruct Hin as (x & Hx & Hin).
    apply in_map_iff. exists x. split; [exact Hx|].
    eapply Permutation_in; [apply Permutation_sym, SortColumns_Permutation|exact Hin].
Qed.

(** ** The names that [NewQueryOptions] appends are distinct *)

Lemma distinct_strings_NoDup (l : list string) :
  distinct_strings l = true -> NoDup l.
Proof.
  induction l as [|x r IH]; simpl; intros H; [constructor|].
  apply andb_prop in H. destruct H as [Hx Hr].
  constructor; [|apply IH; exact Hr].
  intros Hin. apply negb_true_iff in Hx.
  assert (He : existsb (String.eqb x) r = true).
  { apply existsb_exists. exists x. split; [exact Hin|apply String.eqb_refl]. }
  congruence.
Qed.

Lemma resolvedColumns_split (inc : IncludeData) (orderBy : list OrderByAnnotation) :
  resolvedColumns inc orderBy
  = columns_before inc ++ map sortingColumn (seq 0 (length orderBy))
    ++ columns_after inc.
Proof.
  unfold resolvedColumns, columns_before, columns_after.
  rewrite <- !app_assoc. reflexivity.
Qed.

Lemma fixed_columns_distinct (inc : IncludeData) :
  distinct_strings (map Name (columns_before inc ++ columns_after inc)) = true
  /\ forallb (fun x => negb (starts_with_a x))
       (map Name (columns_before inc ++ columns_after inc)) = true.
Proof.
  unfold columns_before, columns_after.
  destruct (inc_Payload inc), (inc_ContentType inc), (inc_Attributes inc),
    (inc_Owner inc), (inc_Expiration inc), (inc_CreatedAtBlock inc),
    (inc_LastModifiedAtBlock inc || inc_TransactionIndexInBlock inc
     || inc_OperationIndexInTransaction inc);
    split; reflexivity.
Qed.

Lemma NoDup_around (pre mid suf : list string) :
  NoDup (pre ++ suf) -> NoDup mid ->
  (forall x, In x mid -> starts_with_a x = true) ->
  forallb (fun x => negb (starts_with_a x)) (pre ++ suf) = true ->
  NoDup (pre ++ mid ++ suf).
Proof.
  intros Hps Hm Ha Hna.
  apply (Permutation_NoDup (l := mid ++ (pre ++ suf))).
  - apply Permutation_app_swap_app.
  - apply NoDup_app; [exact Hm|exact Hps|].
    intros x Hx Hx'. rewrite forallb_forall in Hna.
    specialize (Hna x Hx'). rewrite (Ha x Hx) in Hna. discriminate.
Qed.

Lemma NoDup_map_injective {A B : Type} (f : A -> B) (l : list A) :
  (forall x y, f x = f y -> x = y) -> NoDup l -> NoDup (map f l).
Proof.
  intros Hf. induction 1 as [|x r Hx Hr IH]; simpl; constructor; [|exact IH].
  intros Hin. apply in_map_iff in Hin. destruct Hin as (y & Hy & Hin).
  apply Hf in Hy. subst y. exact (Hx Hin).
Qed.

Lemma resolvedColumns_NoDup (inc : IncludeData) (orderBy : list OrderByAnnotation) :
  NoDup (map Name (resolvedColumns inc orderBy)).
Proof.
  rewrite resolvedColumns_split, !map_app.
  destruct (fixed_columns_distinct inc) as [Hd Ha]. rewrite map_app in Hd, Ha.
  apply NoDup_around.
  - apply distinct_strings_NoDup. exact Hd.
  - rewrite map_map. apply NoDup_map_injective; [|apply seq_NoDup].
    intros i j Hij.
    pose proof (sorting_index_sortingColumn i) as Hi.
    pose proof (sorting_index_sortingColumn j) as Hj.
    rewrite Hij in Hi. lia.
  - intros x Hx. rewrite map_map in Hx. apply in_map_iff in Hx.
    destruct Hx as (i & <- & _). reflexivity.
  - exact Ha.
Qed.

(** ** [GetColumnIndex] *)

Lemma GetColumnIndex_unknown (opts : QueryOptions) (name : string) :
  ~ In name (map Name (Columns opts)) -> GetColumnIndex opts name = None.
Proof.
  intros Hn. destruct (GetColumnIndex opts name) as [ix|] eqn:Hg; [|reflexivity].
  exfalso. apply Hn.
  destruct (GetColumnIndex_sound opts name Hg) as (c & Hc & <-).
  apply in_map. eapply nth_error_In. exact Hc.
Qed.

(** X1. On columns sorted by name, [GetColumnIndex] returns the index of
    every column from its name, and only indices of columns of that name; a
    name that no column has is an error. *)
Theorem GetColumnIndex_finds_exactly (opts : QueryOptions) :
  sorted_by_name (Columns opts) ->
  (forall ix c, nth_error (Columns opts) ix = Some c ->
                GetColumnIndex opts (Name c) = Some ix)
  /\ (forall name ix, GetColumnIndex opts name = Some ix ->
                      exists c, nth_error (Columns opts) ix = Some c /\ Name c = name)
  /\ (forall name, ~ In name (map Name (Columns opts)) ->
                   GetColumnIndex opts name = None).
Proof.
  intros Hs. split; [|split].
  - intros ix c Hc. exact (@GetColumnIndex_found opts ix c Hs Hc).
  - intros name ix. apply GetColumnIndex_sound.
  - intros name. apply GetColumnIndex_unknown.
Qed.

(** X1 on the columns [entity_key], [from_block]. *)
Lemma GetColumnIndex_finds_exactly_plain :
  (forall ix c, nth_error (Columns plain_options) ix = Some c ->
                GetColumnIndex plain_options (Name c) = Some ix)
  /\ (forall name ix, GetColumnIndex plain_options name = Some ix ->
                      exists c, nth_error (Columns plain_options) ix = Some c
                                /\ Name c = name)
  /\ (forall name, ~ In name (map Name (Columns plain_options)) ->
                   GetColumnIndex plain_options name = None).
Proof.
  exact (@GetColumnIndex_finds_exactly plain_options plain_options_sorted).
Defined.

(** ** [NewQueryOptions] *)

Lemma resolvedOrderBy_columns (annotations : list OrderByAnnotation) :
  forall i o,
    In o (resolvedOrderBy i annotations) ->
    In (ob_Column o)
      [mkColumn "from_block" "e.from_block" false;
       mkColumn "entity_key" "e.entity_key" true]
    \/ In (ob_Column o) (map sortingColumn (seq i (length annotations))).
Proof.
  induction annotations as [|a r IH]; intros i o Ho; simpl in Ho.
  - left. destruct Ho as [<-|[<-|[]]]; simpl; auto.
  - destruct Ho as [<-|Ho].
    + right. simpl. left. reflexivity.
    + destruct (IH (S i) o Ho) as [H|H]; [left; exact H|].
      right. simpl. right. exact H.
Qed.

Lemma resolvedOrderBy_length (annotations : list OrderByAnnotation) :
  forall i, length (resolvedOrderBy i annotations) = length annotations + 2.
Proof.
  induction annotations as [|a r IH]; intros i; simpl; [reflexivity|].
  rewrite IH. reflexivity.
Qed.

Lemma resolvedOrderBy_indexed (annotations : list OrderByAnnotation) :
  forall i,
    resolvedOrderBy i annotations
    = map (fun p : nat * OrderByAnnotation =>
             mkOrderBy
               (mkColumn
                  ("arkiv_annotation_sorting" ++ decimal (N.of_nat (fst p)) ++ "_value")
                  ("arkiv_annotation_sorting" ++ decimal (N.of_nat (fst p)) ++ ".value")
                  false)
               (oba_Descending (snd p)))
          (combine (seq i (length annotations)) annotations)
      ++ [mkOrderBy (mkColumn "from_block" "e.from_block" false) false;
          mkOrderBy (mkColumn "entity_key" "e.entity_key" true) false].
Proof.
  induction annotations as [|a r IH]; intros i; [reflexivity|].
  cbn [resolvedOrderBy length seq combine map app fst snd].
  rewrite IH. reflexivity.
Qed.

Lemma resolvedOrderBy_In_columns (inc : IncludeData)
  (annotations : list OrderByAnnotation) (o : OrderBy) :
  In o (resolvedOrderBy 0 annotations) ->
  In (ob_Column o) (resolvedColumns inc annotations).
Proof.
  intros Ho. rewrite resolvedColumns_split.
  destruct (resolvedOrderBy_columns annotations 0 o Ho) as [H|H].
  - apply in_or_app. left. unfold columns_before. apply in_or_app. left. exact H.
  - apply in_or_app. right. apply in_or_app. left. exact H.
Qed.

Section Resolved.

Variable json_Marshal_Cursor : Cursor -> option (list byte).
Variable json_Unmarshal : list byte -> option (list any).
Variable base64_DecodeString : string -> option (list byte).
Variable uint64_of_unrepresentable : float64 -> N.
Variable int_of_unrepresentable : float64 -> Z.

Local Abbreviation NewQueryOptions' :=
  (NewQueryOptions json_Marshal_Cursor json_Unmarshal base64_DecodeString
     uint64_of_unrepresentable int_of_unrepresentable).
Local Abbreviation DecodeCursor' :=
  (DecodeCursor json_Marshal_Cursor json_Unmarshal base64_DecodeString
     uint64_of_unrepresentable int_of_unrepresentable).

(** The options that are handed to [DecodeCursor]. *)
Local Abbreviation initial latestHead options :=
  (mkQueryOptions latestHead (iq_IncludeData options)
     (SortColumns (resolvedColumns (iq_IncludeData options) (iq_OrderBy options)))
     (resolvedOrderBy 0 (iq_OrderBy options)) (iq_OrderBy options) []).

Lemma NewQueryOptions_fields (latestHead : N) (options : InternalQueryOptions)
  (opts : QueryOptions) :
  NewQueryOptions' latestHead options = Ok (Returned opts) ->
  Columns opts
  = SortColumns (resolvedColumns (iq_IncludeData options) (iq_OrderBy options))
  /\ opt_OrderBy opts = resolvedOrderBy 0 (iq_OrderBy options)
  /\ OrderByAnnotations opts = iq_OrderBy options
  /\ opt_IncludeData opts = iq_IncludeData options
  /\ (opt_Cursor opts = [] /\ String.length (iq_Cursor options) = 0
      \/ exists x,
           DecodeCursor' (initial latestHead options) (iq_Cursor options)
           = Ok (Returned (Some x))
           /\ opt_Cursor opts = ColumnValues x).
Proof.
  unfold NewQueryOptions.
  destruct (String.length (iq_Cursor options) =? 0) eqn:Hlen.
  - intros [= <-]. apply Nat.eqb_eq in Hlen.
    destruct (iq_AtBlock options); cbn; repeat split; left; split;
      (reflexivity || exact Hlen).
  - destruct (DecodeCursor' _ _) as [[[x|]|e]|m|] eqn:Hd; cbn [bind];
      try discriminate.
    intros [= <-].
    destruct (iq_AtBlock options); cbn; repeat split; right; exists x;
      split; reflexivity.
Qed.

Lemma NewQueryOptions_resolved (latestHead : N)
  (options : InternalQueryOptions) (opts : QueryOptions) :
  NewQueryOptions' latestHead options = Ok (Returned opts) ->
  sorted_by_name (Columns opts)
  /\ Permutation (resolvedColumns (iq_IncludeData options) (iq_OrderBy options))
       (Columns opts)
  /\ length (opt_OrderBy opts) = length (iq_OrderBy options) + 2
  /\ Forall
       (fun o => exists ix,
                   GetColumnIndex opts (Name (ob_Column o)) = Some ix
                   /\ nth_error (Columns opts) ix = Some (ob_Column o))
       (opt_OrderBy opts).
Proof.
  intros H. destruct (NewQueryOptions_fields _ _ H) as (Hc & Ho & _).
  assert (Hs : sorted_by_name (Columns opts)).
  { rewrite Hc. apply SortColumns_sorted. apply resolvedColumns_NoDup. }
  split; [exact Hs|]. split; [rewrite Hc; apply SortColumns_Permutation|].
  split; [rewrite Ho; apply resolvedOrderBy_length|].
  apply Forall_forall. intros o Hin. rewrite Ho in Hin.
  pose proof (resolvedOrderBy_In_columns (iq_IncludeData options) _ _ Hin) as Hcol.
  assert (Hcol' : In (ob_Column o) (Columns opts)).
  { rewrite Hc. eapply Permutation_in; [apply SortColumns_Permutation|exact Hcol]. }
  destruct (In_nth_error _ _ Hcol') as [ix Hix].
  exists ix. split; [|exact Hix].
  exact (@GetColumnIndex_found opts ix (ob_Column o) Hs Hix).
Qed.

(** X2. The options that [NewQueryOptions] returns have their columns
    sorted by name without repetition: they are the columns appended for the
    include flags and the order-by annotations, in the order of their names.
    [OrderBy] holds, for the annotation at index [k], the column
    [arkiv_annotation_sorting<k>_value], qualified
    [arkiv_annotation_sorting<k>.value], in the direction of the annotation,
    in the order of the annotations, and then [from_block] and [entity_key]
    (a byte column), both ascending.  Every order-by column is one of the
    columns and is found by [GetColumnIndex] from its name. *)
Theorem NewQueryOptions_columns_sorted (latestHead : N)
  (options : InternalQueryOptions) (opts : QueryOptions) :
  NewQueryOptions' latestHead options = Ok (Returned opts) ->
  sorted_by_name (Columns opts)
  /\ Permutation (resolvedColumns (iq_IncludeData options) (iq_OrderBy options))
       (Columns opts)
  /\ length (opt_OrderBy opts) = length (iq_OrderBy options) + 2
  /\ Forall
       (fun o => exists ix,
                   GetColumnIndex opts (Name (ob_Column o)) = Some ix
                   /\ nth_error (Columns opts) ix = Some (ob_Column o))
       (opt_OrderBy opts)
  /\ opt_OrderBy opts
     = map (fun p : nat * OrderByAnnotation =>
              mkOrderBy
                (mkColumn
                   ("arkiv_annotation_sorting" ++ decimal (N.of_nat (fst p))
                    ++ "_value")
                   ("arkiv_annotation_sorting" ++ decimal (N.of_nat (fst p))
                    ++ ".value")
                   false)
                (oba_Descending (snd p)))
           (combine (seq 0 (length (iq_OrderBy options))) (iq_OrderBy options))
       ++ [mkOrderBy (mkColumn "from_block" "e.from_block" false) false;
           mkOrderBy (mkColumn "entity_key" "e.entity_key" true) false].
Proof.
  intros H.
  destruct (@NewQueryOptions_resolved latestHead options opts H)
    as (Hs & Hp & Hl & Hf).
  destruct (NewQueryOptions_fields _ _ H) as (_ & Ho & _).
  repeat (split; [assumption|]).
  rewrite Ho. apply resolvedOrderBy_indexed.
Qed.

(** [NewQueryOptions] panics only where [DecodeCursor] does: the branch
    that dereferences a nil cursor is not reached, since [DecodeCursor]
    returns no cursor only for the empty string, which is not handed to it. *)
Lemma NewQueryOptions_panics_in_DecodeCursor (latestHead : N)
  (options : InternalQueryOptions) (m : string) :
  NewQueryOptions' latestHead options = Panic m ->
  DecodeCursor' (initial latestHead options) (iq_Cursor options) = Panic m.
Proof.
  unfold NewQueryOptions.
  destruct (String.length (iq_Cursor options) =? 0) eqn:Hlen; [discriminate|].
  destruct (DecodeCursor' _ _) as [[[x|]|e]|m'|] eqn:Hd; cbn [bind];
    try discriminate.
  - exfalso. unfold DecodeCursor in Hd. rewrite Hlen in Hd.
    destruct (hex_DecodeString _); [|discriminate].
    destruct (json_Unmarshal _) as [[|[] ?]|]; try discriminate.
    destruct (decode_chunks _ _ _ _) as [[?|?]|?|]; try discriminate.
    destruct (json_Marshal_Cursor _); discriminate.
  - intros [= ->]. reflexivity.
Qed.

End Resolved.

(** X2 at a request ordered by two annotations, the first descending. *)
Lemma NewQueryOptions_columns_sorted_ranked :
  sorted_by_name (Columns ranked_options)
  /\ Permutation (resolvedColumns (iq_IncludeData ranked_request)
                    (iq_OrderBy ranked_request))
       (Columns ranked_options)
  /\ length (opt_OrderBy ranked_options) = 4
  /\ Forall
       (fun o => exists ix,
                   GetColumnIndex ranked_options (Name (ob_Column o)) = Some ix
                   /\ nth_error (Columns ranked_options) ix = Some (ob_Column o))
       (opt_OrderBy ranked_options)
  /\ opt_OrderBy ranked_options
     = [mkOrderBy
          (mkColumn "arkiv_annotation_sorting0_value" "arkiv_annotation_sorting0.value"
             false)
          true;
        mkOrderBy
          (mkColumn "arkiv_annotation_sorting1_value" "arkiv_annotation_sorting1.value"
             false)
          false;
        mkOrderBy (mkColumn "from_block" "e.from_block" false) false;
        mkOrderBy (mkColumn "entity_key" "e.entity_key" true) false].
Proof.
  exact (@NewQueryOptions_columns_sorted example_json_Marshal_Cursor
           example_json_Unmarshal std_base64_DecodeString (fun _ => 0%N)
           (fun _ => 0%Z) 7%N ranked_request ranked_options eq_refl).
Defined.

(* ================================================================== *)
(** * Cursors *)
(* ================================================================== *)

Lemma Chunk3_ind (P : list any -> Prop) :
  P [] -> (forall a, P [a]) -> (forall a b, P [a; b]) ->
  (forall a b c r, P r -> P (a :: b :: c :: r)) ->
  forall l, P l.
Proof.
  intros H0 H1 H2 H3.
  fix IH 1. intros [|a [|b [|c r]]];
    [exact H0|apply H1|apply H2|apply H3; apply IH].
Qed.

Lemma Chunk3_lengths (l : list any) :
  Forall (fun c => length c = 3) (Chunk3 l) -> length l = 3 * length (Chunk3 l).
Proof.
  induction l as [|a|a b|a b c r IH] using Chunk3_ind; cbn [Chunk3]; intros H.
  - reflexivity.
  - inversion H as [|? ? Hc _]. discriminate Hc.
  - inversion H as [|? ? Hc _]. discriminate Hc.
  - inversion H as [|? ? _ Hr]; subst. cbn [length]. rewrite IH by exact Hr. lia.
Qed.

Section Decoded.

Variable json_Marshal_Cursor : Cursor -> option (list byte).
Variable json_Marshal : list any -> option (list byte).
Variable json_Unmarshal : list byte -> option (list any).
Variable base64_DecodeString : string -> option (list byte).
Variable uint64_of_unrepresentable : float64 -> N.
Variable int_of_unrepresentable : float64 -> Z.

Local Abbreviation DecodeCursor' :=
  (DecodeCursor json_Marshal_Cursor json_Unmarshal base64_DecodeString
     uint64_of_unrepresentable int_of_unrepresentable).
Local Abbreviation decode_chunks' :=
  (decode_chunks base64_DecodeString int_of_unrepresentable).
Local Abbreviation decode_chunk' :=
  (decode_chunk base64_DecodeString int_of_unrepresentable).

Lemma decode_chunk_Returned (opts : QueryOptions) (c : list any) (v : CursorValue) :
  decode_chunk' opts c = Ok (Returned v) ->
  length c = 3 /\ known_column opts v.
Proof.
  unfold decode_chunk.
  destruct c as [|c0 [|c1 [|c2 [|]]]]; try discriminate.
  destruct c0 as [| |f0| | | | | |]; try discriminate.
  destruct c2 as [| |f2| | | | | |]; try discriminate.
  destruct (_ <=? _)%Z; [discriminate|].
  destruct (_ || _); [|discriminate].
  unfold index_Z. destruct (_ <? 0)%Z; [discriminate|].
  destruct (nth_error (Columns opts) _) as [column|] eqn:Hc; [|discriminate].
  destruct (IsBytes column) eqn:Hb.
  - destruct c1; try discriminate.
    destruct (base64_DecodeString s) as [decoded|]; [|discriminate].
    intros [= <-]. split; [reflexivity|].
    eexists _, column. split; [exact Hc|]. split; [reflexivity|].
    intros _. eexists. reflexivity.
  - intros [= <-]. split; [reflexivity|].
    eexists _, column. split; [exact Hc|]. split; [reflexivity|].
    rewrite Hb. discriminate.
Qed.

Lemma decode_chunks_Returned (opts : QueryOptions) (chunks : list (list any)) :
  forall vs,
    decode_chunks' opts chunks = Ok (Returned vs) ->
    Forall (fun c => length c = 3) chunks
    /\ length vs = length chunks
    /\ Forall (known_column opts) vs.
Proof.
  induction chunks as [|c r IH]; intros vs; cbn [decode_chunks].
  - intros [= <-]. repeat split; constructor.
  - destruct (decode_chunk' opts c) as [[v|e]|m|] eqn:Hc; try discriminate.
    destruct (decode_chunks' opts r) as [[vs'|e]|m|] eqn:Hr; try discriminate.
    intros [= <-].
    destruct (@decode_chunk_Returned opts c v Hc) as [Hl Hk].
    destruct (IH vs' eq_refl) as (Hls & Hlen & Hks).
    repeat split; try constructor; auto. simpl. rewrite Hlen. reflexivity.
Qed.

Lemma DecodeCursor_Returned (opts : QueryOptions) (s : string)
  (x : Cursor) :
  DecodeCursor' opts s = Ok (Returned (Some x)) ->
  s <> EmptyString
  /\ (exists bs b rest,
         hex_DecodeString s = Some bs
         /\ json_Unmarshal bs = Some (AFloat64 b :: rest)
         /\ BlockNumber x = uint64_of_float64 uint64_of_unrepresentable b
         /\ length rest = 3 * length (ColumnValues x))
  /\ Forall (known_column opts) (ColumnValues x).
Proof.
  unfold DecodeCursor.
  destruct (String.length s =? 0) eqn:Hlen; [discriminate|].
  destruct (hex_DecodeString s) as [bs|] eqn:Hh; [|discriminate].
  destruct (json_Unmarshal bs) as [[|[| |b| | | | | |] rest]|] eqn:Hj;
    try discriminate.
  destruct (decode_chunks' opts (Chunk3 rest)) as [[vs|e]|m|] eqn:Hd;
    try discriminate.
  destruct (json_Marshal_Cursor _); [|discriminate].
  intros [= <-]. cbn [BlockNumber ColumnValues].
  destruct (@decode_chunks_Returned opts (Chunk3 rest) vs Hd) as (Hls & Hl & Hk).
  split; [intros ->; discriminate Hlen|].
  split; [|exact Hk].
  exists bs, b, rest. repeat split; try assumption.
  rewrite (@Chunk3_lengths rest Hls), Hl. reflexivity.
Qed.

(** X3. A cursor that [DecodeCursor] returns is whole: the string is not
    empty and is the hexadecimal text of a JSON array that holds a number, the
    block, and then three elements for each value of the cursor, in order;
    the column of every value is one of [Columns], and the value of a byte
    column is a byte slice. *)
Theorem DecodeCursor_returns_whole_cursor (opts : QueryOptions) (s : string)
  (x : Cursor) :
  DecodeCursor' opts s = Ok (Returned (Some x)) ->
  s <> EmptyString
  /\ (exists bs b rest,
         hex_DecodeString s = Some bs
         /\ json_Unmarshal bs = Some (AFloat64 b :: rest)
         /\ BlockNumber x = uint64_of_float64 uint64_of_unrepresentable b
         /\ length rest = 3 * length (ColumnValues x))
  /\ Forall (known_column opts) (ColumnValues x).
Proof. apply DecodeCursor_Returned. Qed.

(** ** Pagination on a decoded cursor *)

Lemma known_columns_resolve (opts : QueryOptions) (cursor : list CursorValue) :
  sorted_by_name (Columns opts) ->
  Forall (known_column opts) cursor ->
  exists cols, keyset_columns opts cursor = Some cols.
Proof.
  intros Hs Hk.
  destruct (@keyset_columns_known opts cursor Hs) as (cols & Hc & _).
  - eapply Forall_impl; [|exact Hk].
    intros c (ix & col & Hix & Hn & _). exists ix, col. split; assumption.
  - exists cols. exact Hc.
Qed.

Lemma keyset_columns_lookup (opts : QueryOptions) (cursor : list CursorValue) :
  forall cols,
    keyset_columns opts cursor = Some cols ->
    Forall (fun c => lookupColumn opts (ColumnName c) <> None) cursor.
Proof.
  induction cursor as [|c r IH]; intros cols H; [constructor|].
  simpl in H.
  destruct (lookupColumn opts (ColumnName c)) eqn:Hl; [|discriminate].
  destruct (keyset_columns opts r) as [l|]; [|discriminate].
  constructor; [congruence|]. eapply IH. reflexivity.
Qed.

Lemma subcondition_total (opts : QueryOptions) (pairs : list (CursorValue * string)) :
  Forall (fun p => lookupColumn opts (ColumnName (fst p)) <> None) pairs ->
  forall i j, subcondition opts i j pairs <> None.
Proof.
  induction 1 as [|[from arg] r Hp _ IH]; intros i j; cbn [subcondition];
    [discriminate|].
  destruct (i <? j); [discriminate|].
  cbn [fst] in Hp.
  destruct (lookupColumn opts (ColumnName from)); [|congruence].
  specialize (IH i (S j)).
  destruct (subcondition opts i (S j) r); [discriminate|congruence].
Qed.

Lemma paginationConditions_total (opts : QueryOptions)
  (pairs : list (CursorValue * string)) (rows : list nat) :
  Forall (fun p => lookupColumn opts (ColumnName (fst p)) <> None) pairs ->
  paginationConditions opts pairs rows <> None.
Proof.
  intros Hp. induction rows as [|i r IH]; cbn [paginationConditions];
    [discriminate|].
  pose proof (@subcondition_total opts pairs Hp i 0) as Hs.
  destruct (subcondition opts i 0 pairs); [|congruence].
  destruct (paginationConditions opts pairs r); [discriminate|congruence].
Qed.

Lemma combine_fst_Forall {A B : Type} (P : A -> Prop) (l : list A) :
  Forall P l -> forall l' : list B, Forall (fun p => P (fst p)) (combine l l').
Proof.
  induction 1 as [|a r Ha _ IH]; intros [|b l']; simpl; constructor; auto.
Qed.

Lemma addPaginationArguments_resolved (b : QueryBuilder) (cols : list KeysetColumn) :
  keyset_columns (options b) (opt_Cursor (options b)) = Some cols ->
  snd (addPaginationArguments b) = None.
Proof.
  intros Hc. unfold addPaginationArguments.
  destruct (0 <? length (opt_Cursor (options b))); [|reflexivity].
  destruct (pushCursorArguments b (opt_Cursor (options b))) as [placeholders b1].
  pose proof (@keyset_columns_lookup (options b) (opt_Cursor (options b)) cols Hc) as Hl.
  pose proof (@paginationConditions_total (options b)
                (combine (opt_Cursor (options b)) placeholders)
                (seq 0 (length (opt_Cursor (options b))))
                (@combine_fst_Forall _ string _ _ Hl placeholders)) as Hp.
  destruct (paginationConditions _ _ _); [reflexivity|congruence].
Qed.

Lemma known_column_Columns (opts opts' : QueryOptions) (c : CursorValue) :
  Columns opts = Columns opts' -> known_column opts c -> known_column opts' c.
Proof. unfold known_column. intros ->. exact (fun H => H). Qed.

Lemma NewQueryOptions_cursor_resolves (latestHead : N)
  (request : InternalQueryOptions) (opts : QueryOptions) :
  NewQueryOptions json_Marshal_Cursor json_Unmarshal base64_DecodeString
    uint64_of_unrepresentable int_of_unrepresentable latestHead request
  = Ok (Returned opts) ->
  exists cols, keyset_columns opts (opt_Cursor opts) = Some cols.
Proof.
  intros H.
  destruct (@NewQueryOptions_fields json_Marshal_Cursor json_Unmarshal
              base64_DecodeString uint64_of_unrepresentable int_of_unrepresentable
              latestHead request opts H) as (Hc & _ & _ & _ & Hcur).
  assert (Hs : sorted_by_name (Columns opts)).
  { rewrite Hc. apply SortColumns_sorted. apply resolvedColumns_NoDup. }
  assert (Hk : Forall (known_column opts) (opt_Cursor opts)).
  { destruct Hcur as [[-> _]|(x & Hd & ->)]; [constructor|].
    apply DecodeCursor_Returned in Hd. destruct Hd as (_ & _ & Hk).
    eapply Forall_impl; [|exact Hk].
    intros c. apply known_column_Columns. cbn [Columns]. symmetry. exact Hc. }
  exact (@known_columns_resolve opts (opt_Cursor opts) Hs Hk).
Qed.

(** X4. On options that [NewQueryOptions] returned, the pagination step
    returns no error, whatever else the builder holds: the columns of the
    cursor were taken by [DecodeCursor] from the sorted columns that
    [GetColumnIndex] searches. *)
Theorem NewQueryOptions_pagination_never_fails (latestHead : N)
  (request : InternalQueryOptions) (b : QueryBuilder) :
  NewQueryOptions json_Marshal_Cursor json_Unmarshal base64_DecodeString
    uint64_of_unrepresentable int_of_unrepresentable latestHead request
  = Ok (Returned (options b)) ->
  snd (addPaginationArguments b) = None.
Proof.
  intros H.
  destruct (@NewQueryOptions_cursor_resolves latestHead request (options b) H)
    as [cols Hcols].
  exact (@addPaginationArguments_resolved b cols Hcols).
Qed.

(** ** [EncodeCursor] and unknown columns *)

Lemma encode_values_None (opts : QueryOptions) (cvs : list CursorValue) :
  sorted_by_name (Columns opts) ->
  (encode_values opts cvs = None
   <-> exists c, In c cvs /\ ~ In (ColumnName c) (map Name (Columns opts))).
Proof.
  intros Hs. induction cvs as [|c r IH]; cbn [encode_values].
  - split; [discriminate|]. intros (c & [] & _).
  - destruct (GetColumnIndex opts (ColumnName c)) as [ix|] eqn:Hg.
    + destruct (@GetColumnIndex_sound opts (ColumnName c) ix Hg) as (col & Hcol & Hn).
      destruct (encode_values opts r) as [rest|].
      * split; [discriminate|]. intros (c' & [<-|Hin] & Hnot).
        -- exfalso. apply Hnot. rewrite <- Hn. apply in_map.
           eapply nth_error_In. exact Hcol.
        -- assert (Hr : Some rest = None) by (apply IH; exists c'; split; assumption).
           discriminate Hr.
      * split; [|reflexivity]. intros _.
        destruct (proj1 IH eq_refl) as (c' & Hin & Hnot).
        exists c'. split; [right; exact Hin|exact Hnot].
    + split; [|reflexivity]. intros _. exists c. split; [left; reflexivity|].
      intros Hin. apply in_map_iff in Hin. destruct Hin as (col & Hn & Hin).
      destruct (In_nth_error _ _ Hin) as [ix Hix].
      rewrite <- Hn, (@GetColumnIndex_found opts ix col Hs Hix) in Hg.
      discriminate.
Qed.

(** X5. On columns sorted by name, and when the cursor itself can be
    marshalled, [EncodeCursor] returns the error of an unknown column exactly
    when some value of the cursor names a column that is not in [Columns]. *)
Theorem EncodeCursor_unknown_column (opts : QueryOptions) (x : Cursor) :
  sorted_by_name (Columns opts) ->
  json_Marshal_Cursor x <> None ->
  (EncodeCursor json_Marshal_Cursor json_Marshal opts x = Failed ErrColumnIndex
   <-> exists c, In c (ColumnValues x)
                 /\ ~ In (ColumnName c) (map Name (Columns opts))).
Proof.
  intros Hs Hm. rewrite <- (@encode_values_None opts (ColumnValues x) Hs).
  unfold EncodeCursor.
  destruct (json_Marshal_Cursor x); [|congruence].
  destruct (encode_values opts (ColumnValues x)) as [triples|].
  - destruct (json_Marshal _); split; discriminate.
  - split; reflexivity.
Qed.

(** X6. On options that [NewQueryOptions] returned, a cursor whose values
    name order-by columns, as the cursor of the last row of a page does, is
    never refused for an unknown column. *)
Theorem EncodeCursor_order_by_cursor (latestHead : N)
  (request : InternalQueryOptions) (opts : QueryOptions) (x : Cursor) :
  NewQueryOptions json_Marshal_Cursor json_Unmarshal base64_DecodeString
    uint64_of_unrepresentable int_of_unrepresentable latestHead request
  = Ok (Returned opts) ->
  Forall (fun c => In (ColumnName c)
                     (map (fun o => Name (ob_Column o)) (opt_OrderBy opts)))
    (ColumnValues x) ->
  EncodeCursor json_Marshal_Cursor json_Marshal opts x <> Failed ErrColumnIndex.
Proof.
  intros H Hx.
  destruct (@NewQueryOptions_resolved json_Marshal_Cursor json_Unmarshal
              base64_DecodeString uint64_of_unrepresentable int_of_unrepresentable
              latestHead request opts H) as (Hs & _ & _ & Ho).
  unfold EncodeCursor.
  destruct (json_Marshal_Cursor x); [|discriminate].
  destruct (encode_values opts (ColumnValues x)) as [triples|] eqn:He.
  - destruct (json_Marshal _); discriminate.
  - exfalso.
    destruct (proj1 (@encode_values_None opts (ColumnValues x) Hs) He)
      as (c & Hin & Hnot).
    rewrite Forall_forall in Hx, Ho. apply Hnot.
    specialize (Hx c Hin). apply in_map_iff in Hx. destruct Hx as (o & <- & Hino).
    destruct (Ho o Hino) as (ix & _ & Hix).
    apply in_map. eapply nth_error_In. exact Hix.
Qed.

End Decoded.

(** X3 at the cursor string of scenario 8. *)
Lemma DecodeCursor_returns_whole_cursor_scenario :
  "5b31302c312c34322c302c302c223371303d222c305d" <> EmptyString
  /\ (exists bs b rest,
         hex_DecodeString "5b31302c312c34322c302c302c223371303d222c305d" = Some bs
         /\ example_json_Unmarshal bs = Some (AFloat64 b :: rest)
         /\ BlockNumber scenario_cursor = uint64_of_float64 (fun _ => 0%N) b
         /\ length rest = 3 * length (ColumnValues scenario_cursor))
  /\ Forall (known_column plain_options) (ColumnValues scenario_cursor).
Proof.
  exact (@DecodeCursor_returns_whole_cursor example_json_Marshal_Cursor
           example_json_Unmarshal std_base64_DecodeString (fun _ => 0%N)
           (fun _ => 0%Z) plain_options
           "5b31302c312c34322c302c302c223371303d222c305d" scenario_cursor eq_refl).
Defined.

(** X4 at the request of the next page of scenario 8. *)
Lemma NewQueryOptions_pagination_scenario :
  snd (addPaginationArguments scenario_builder) = None.
Proof.
  exact (@NewQueryOptions_pagination_never_fails example_json_Marshal_Cursor
           example_json_Unmarshal std_base64_DecodeString (fun _ => 0%N)
           (fun _ => 0%Z) 7%N scenario_request scenario_builder eq_refl).
Defined.

(** X5 at a cursor on [payload], which [plain_options] does not select. *)
Lemma EncodeCursor_unknown_column_payload :
  example_EncodeCursor plain_options payload_cursor = Failed ErrColumnIndex
  <-> exists c, In c (ColumnValues payload_cursor)
                /\ ~ In (ColumnName c) (map Name (Columns plain_options)).
Proof.
  apply (@EncodeCursor_unknown_column example_json_Marshal_Cursor
           example_json_Marshal plain_options payload_cursor plain_options_sorted).
  discriminate.
Defined.

(** X6 at a cursor on the order-by columns of a request ordered by one
    annotation. *)
Lemma EncodeCursor_order_by_cursor_priced :
  example_EncodeCursor priced_options priced_cursor <> Failed ErrColumnIndex.
Proof.
  apply (@EncodeCursor_order_by_cursor example_json_Marshal_Cursor
           example_json_Marshal example_json_Unmarshal std_base64_DecodeString
           (fun _ => 0%N) (fun _ => 0%Z) 7%N priced_request priced_options
           priced_cursor eq_refl).
  apply Forall_cons; [left; reflexivity|].
  apply Forall_cons; [right; left; reflexivity|].
  apply Forall_cons; [right; right; left; reflexivity|].
  apply Forall_nil.
Defined.

(* ================================================================== *)
(** * The CTE emitter *)
(* ================================================================== *)

(** ** What the steps leave as it is *)

Lemma frame_refl (b : QueryBuilder) : frame b b.
Proof. repeat split. Qed.

Lemma frame_trans (b1 b2 b3 : QueryBuilder) : frame b1 b2 -> frame b2 b3 -> frame b1 b3.
Proof.
  unfold frame. intros (H1 & H2 & H3) (H4 & H5 & H6). repeat split; congruence.
Qed.

Lemma frame_WriteString (b : QueryBuilder) (s : string) : frame b (WriteString b s).
Proof. repeat split. Qed.

Lemma frame_pushArgument (b : QueryBuilder) (v : any) : frame b (snd (pushArgument b v)).
Proof. repeat split. Qed.

Lemma frame_pushArguments (vals : list any) :
  forall b, frame b (snd (pushArguments b vals)).
Proof.
  induction vals as [|v r IH]; intros b; cbn [pushArguments].
  - apply frame_refl.
  - destruct (pushArgument b v) as [arg b1] eqn:H1.
    destruct (pushArguments b1 r) as [rest b2] eqn:H2. cbn [snd].
    eapply frame_trans.
    + pose proof (frame_pushArgument b v) as H. rewrite H1 in H. exact H.
    + pose proof (IH b1) as H. rewrite H2 in H. exact H.
Qed.

Lemma frame_createLeafQuery (b : QueryBuilder) (q : string) :
  frame b (snd (createLeafQuery b q)).
Proof.
  unfold createLeafQuery, nextTableName, writeComma.
  destruct (needsComma b); repeat split.
Qed.

Lemma frame_createAnnotationQuery (b : QueryBuilder) (t w : string) :
  frame b (snd (createAnnotationQuery b t w)).
Proof.
  unfold createAnnotationQuery.
  destruct (pushArgument b _) as [blockArg b1] eqn:H1.
  eapply frame_trans; [|apply frame_createLeafQuery].
  pose proof (frame_pushArgument b (AUint64 (AtBlock (options b)))) as H.
  rewrite H1 in H. exact H.
Qed.

Lemma frame_comparison_Evaluate (op var : string) (v : Value) (b : QueryBuilder) :
  frame b (snd (comparison_Evaluate op var v b)).
Proof.
  unfold comparison_Evaluate, pushValue.
  destruct v; cbn [pushArgument];
    (eapply frame_trans; [|apply frame_createAnnotationQuery]); repeat split.
Qed.

Lemma frame_Glob_Evaluate (e : Glob) (b : QueryBuilder) :
  frame b (snd (Glob_Evaluate e b)).
Proof.
  unfold Glob_Evaluate. cbn [pushArgument].
  eapply frame_trans; [|apply frame_createAnnotationQuery]. repeat split.
Qed.

Section EmitterFrame.

Variable ToLower : string -> string.

Lemma frame_Inclusion_Evaluate (e : Inclusion) (b : QueryBuilder) :
  frame b (snd (Inclusion_Evaluate ToLower e b)).
Proof.
  unfold Inclusion_Evaluate.
  destruct (0 <? length (Strings (in_Values e)));
    match goal with
    | |- context [pushArguments b ?vals] =>
        pose proof (frame_pushArguments vals b) as H;
        destruct (pushArguments b vals) as [values b1]
    end;
    cbn [snd] in H; cbn [pushArgument];
    (eapply frame_trans; [exact H|]);
    (eapply frame_trans; [|apply frame_createAnnotationQuery]); repeat split.
Qed.

Lemma frame_EvaluateTerm (t : ASTTerm) (b : QueryBuilder) :
  frame b (snd (EvaluateTerm ToLower t b)).
Proof.
  destruct t; cbn [EvaluateTerm];
    first [apply frame_comparison_Evaluate|apply frame_Glob_Evaluate
          |apply frame_Inclusion_Evaluate].
Qed.

Lemma frame_combineTables (op : string) (rest : list ASTTerm) :
  forall left b,
    frame b (snd (combineTables (EvaluateTerm ToLower) op rest left b)).
Proof.
  induction rest as [|rhs r IH]; intros left b; cbn [combineTables].
  - apply frame_refl.
  - pose proof (frame_EvaluateTerm rhs b) as H1.
    destruct (EvaluateTerm ToLower rhs b) as [rightTable b1]. cbn [snd] in H1.
    unfold nextTableName.
    eapply frame_trans; [exact H1|].
    eapply frame_trans; [|apply IH].
    unfold writeComma. destruct (needsComma _); repeat split.
Qed.

Lemma EvaluateAnd_Ok (a : ASTAnd) (b : QueryBuilder) :
  and_Terms a <> [] ->
  exists table b', EvaluateAnd ToLower a b = Ok (table, b') /\ frame b b'.
Proof.
  intros Hne. unfold EvaluateAnd.
  destruct (and_Terms a) as [|t rest]; [congruence|].
  pose proof (frame_EvaluateTerm t b) as H1.
  destruct (EvaluateTerm ToLower t b) as [leftTable b1]. cbn [snd] in H1.
  pose proof (frame_combineTables " INTERSECT " rest leftTable b1) as H2.
  destruct (combineTables _ _ rest leftTable b1) as [table b'] eqn:Hc.
  exists table, b'. split; [reflexivity|].
  eapply frame_trans; [exact H1|exact H2].
Qed.

Lemma combineConjunctions_Ok (rest : list ASTAnd) :
  Forall (fun c => and_Terms c <> []) rest ->
  forall left b,
    exists table b',
      combineConjunctions ToLower rest left b = Ok (table, b') /\ frame b b'.
Proof.
  induction 1 as [|rhs r Hrhs _ IH]; intros left b; cbn [combineConjunctions].
  - exists left, b. split; [reflexivity|apply frame_refl].
  - destruct (@EvaluateAnd_Ok rhs b Hrhs) as (rightTable & b1 & -> & H1). cbn [bind].
    unfold nextTableName.
    match goal with
    | |- context [combineConjunctions ToLower r ?n ?b4] =>
        destruct (IH n b4) as (table & b' & -> & H2)
    end.
    exists table, b'. split; [reflexivity|].
    eapply frame_trans; [exact H1|].
    eapply frame_trans; [|exact H2].
    unfold writeComma. destruct (needsComma _); repeat split.
Qed.

Lemma EvaluateExpr_Ok (x : ASTExpr) (b : QueryBuilder) :
  wf_ASTExpr x ->
  exists keys b', EvaluateExpr ToLower x b = Ok (keys, b') /\ frame b b'.
Proof.
  intros [Hne Hall]. unfold EvaluateExpr, EvaluateOr.
  destruct (or_Terms (ast_Or x)) as [|a rest]; [congruence|].
  inversion Hall as [|? ? Ha Hrest]; subst.
  destruct (@EvaluateAnd_Ok a (WriteString b "WITH ") Ha) as (leftTable & b1 & -> & H1).
  cbn [bind].
  destruct (@combineConjunctions_Ok rest Hrest leftTable b1) as (keys & b' & -> & H2).
  exists keys, b'. split; [reflexivity|].
  eapply frame_trans; [apply (frame_WriteString b "WITH ")|].
  eapply frame_trans; [exact H1|exact H2].
Qed.

Lemma orderByJoins_Some (annotations : list OrderByAnnotation) :
  forall i b,
    match orderByJoins i annotations b with
    | Some b' => forallb annotation_typed annotations = true /\ frame b b'
    | None => forallb annotation_typed annotations = false
    end.
Proof.
  induction annotations as [|o r IH]; intros i b; cbn [orderByJoins forallb].
  - split; [reflexivity|apply frame_refl].
  - unfold pushArgument.
    change (annotation_typed o)
      with (String.eqb (oba_Type o) "string" || String.eqb (oba_Type o) "numeric").
    destruct (String.eqb (oba_Type o) "string"); cbn [orb andb].
    + match goal with
      | |- context [orderByJoins (S i) r ?b1] =>
          specialize (IH (S i) b1); destruct (orderByJoins (S i) r b1)
      end; [|exact IH].
      destruct IH as [Ht Hf]. split; [exact Ht|].
      eapply frame_trans; [|exact Hf]. repeat split.
    + destruct (String.eqb (oba_Type o) "numeric"); cbn [orb andb]; [|reflexivity].
      match goal with
      | |- context [orderByJoins (S i) r ?b1] =>
          specialize (IH (S i) b1); destruct (orderByJoins (S i) r b1)
      end; [|exact IH].
      destruct IH as [Ht Hf]. split; [exact Ht|].
      eapply frame_trans; [|exact Hf]. repeat split.
Qed.

End EmitterFrame.

(** ** The error of the pagination step *)

Lemma pushCursorArguments_length (cursor : list CursorValue) :
  forall b, length (fst (pushCursorArguments b cursor)) = length cursor.
Proof.
  induction cursor as [|c r IH]; intros b; cbn [pushCursorArguments]; [reflexivity|].
  destruct (pushArgument b (cv_Value c)) as [arg b1].
  specialize (IH b1). destruct (pushCursorArguments b1 r) as [rest b2].
  cbn [fst length] in *. rewrite IH. reflexivity.
Qed.

Lemma frame_pushCursorArguments (cursor : list CursorValue) :
  forall b, frame b (snd (pushCursorArguments b cursor)).
Proof.
  induction cursor as [|c r IH]; intros b; cbn [pushCursorArguments].
  - apply frame_refl.
  - unfold pushArgument.
    match goal with
    | |- context [pushCursorArguments ?b1 r] =>
        specialize (IH b1); destruct (pushCursorArguments b1 r) as [rest b2]
    end.
    cbn [snd] in *. eapply frame_trans; [|exact IH]. repeat split.
Qed.

Lemma keyset_columns_None (opts : QueryOptions) (cursor : list CursorValue) :
  keyset_columns opts cursor = None ->
  Exists (fun c => lookupColumn opts (ColumnName c) = None) cursor.
Proof.
  induction cursor as [|c r IH]; cbn [keyset_columns]; [discriminate|].
  destruct (lookupColumn opts (ColumnName c)) eqn:Hl; [|intros _; left; exact Hl].
  destruct (keyset_columns opts r); [discriminate|].
  intros _. right. apply IH. reflexivity.
Qed.

Lemma Exists_combine {A B : Type} (P : A -> Prop) (l : list A) :
  Exists P l ->
  forall l' : list B, length l' = length l -> Exists (fun p => P (fst p)) (combine l l').
Proof.
  induction 1 as [a r Ha|a r _ IH]; intros [|b l'] Hlen; try discriminate; simpl.
  - left. exact Ha.
  - right. apply IH. simpl in Hlen. lia.
Qed.

Lemma subcondition_None (opts : QueryOptions) (pairs : list (CursorValue * string)) :
  Exists (fun p => lookupColumn opts (ColumnName (fst p)) = None) pairs ->
  forall i j, length pairs <= S i - j -> subcondition opts i j pairs = None.
Proof.
  induction 1 as [[from arg] r Hp|[from arg] r _ IH]; intros i j Hlen;
    cbn [subcondition]; cbn [length] in Hlen;
    assert (Hij : (i <? j) = false) by (apply Nat.ltb_ge; lia); rewrite Hij.
  - cbn [fst] in Hp. rewrite Hp. reflexivity.
  - destruct (lookupColumn opts (ColumnName from)); [|reflexivity].
    rewrite (IH i (S j)) by lia. reflexivity.
Qed.

Lemma paginationConditions_None (opts : QueryOptions)
  (pairs : list (CursorValue * string)) (rows : list nat) (i : nat) :
  In i rows -> subcondition opts i 0 pairs = None ->
  paginationConditions opts pairs rows = None.
Proof.
  intros Hin Hs. induction rows as [|k r IH]; [destruct Hin|].
  cbn [paginationConditions]. destruct Hin as [->|Hin].
  - rewrite Hs. reflexivity.
  - destruct (subcondition opts k 0 pairs); [|reflexivity].
    rewrite (IH Hin). reflexivity.
Qed.

Lemma addPaginationArguments_unresolved (b : QueryBuilder) :
  keyset_columns (options b) (opt_Cursor (options b)) = None ->
  snd (addPaginationArguments b) = Some ErrPagination.
Proof.
  intros Hc. pose proof (keyset_columns_None _ _ Hc) as He.
  unfold addPaginationArguments.
  destruct (opt_Cursor (options b)) as [|c r] eqn:Hcur; [inversion He|].
  rewrite <- Hcur in *. set (cursor := opt_Cursor (options b)) in *.
  assert (Hpos : (0 <? length cursor) = true) by (rewrite Hcur; reflexivity).
  rewrite Hpos.
  pose proof (pushCursorArguments_length cursor b) as Hlen.
  destruct (pushCursorArguments b cursor) as [placeholders b1]. cbn [fst] in Hlen.
  rewrite (@paginationConditions_None (options b) (combine cursor placeholders)
             (seq 0 (length cursor)) (length cursor - 1)).
  - reflexivity.
  - apply in_seq. apply Nat.ltb_lt in Hpos. lia.
  - apply subcondition_None.
    + exact (@Exists_combine _ string
               (fun c => lookupColumn (options b) (ColumnName c) = None)
               cursor He placeholders Hlen).
    + rewrite length_combine, Hlen. apply Nat.ltb_lt in Hpos. lia.
Qed.

Section Outcome.

Variable ToLower : string -> string.

Lemma EvaluateAST_cases (ast : AST) (opts : QueryOptions) :
  (forall x, ast_Expr ast = Some x -> wf_ASTExpr x) ->
  exists r,
    EvaluateAST ToLower ast opts = Ok r
    /\ match r with
       | Failed e =>
           if forallb annotation_typed (OrderByAnnotations opts)
           then e = ErrPagination
                /\ keyset_columns opts (opt_Cursor opts) = None
           else e = ErrOrderByType
       | Returned _ =>
           forallb annotation_typed (OrderByAnnotations opts) = true
           /\ keyset_columns opts (opt_Cursor opts) <> None
       end.
Proof.
  intros Hwf. unfold EvaluateAST.
  set (builder := mkQueryBuilder EmptyString [] 0 0 false true opts EmptyString).
  assert (Hsel : exists selected,
             match ast_Expr ast with
             | Some expr =>
                 p <- EvaluateExpr ToLower expr builder ;;
                 (let (keys, b1) := p in
                  Ok (WriteString b1
                        (strings_Join
                           [" SELECT"; columnString opts; "FROM"; keys;
                            "AS keys INNER JOIN payloads AS e INDEXED BY payloads_entity_key_index ON keys.entity_key = e.entity_key AND keys.from_block = e.from_block"]
                           " ")))
             | None =>
                 Ok (WriteString builder
                       (strings_Join ["SELECT"; columnString opts; "FROM payloads AS e"]
                          " "))
             end = Ok selected
             /\ frame builder selected).
  { destruct (ast_Expr ast) as [expr|].
    - destruct (@EvaluateExpr_Ok ToLower expr builder (Hwf expr eq_refl))
        as (keys & b1 & -> & Hf).
      cbn [bind]. eexists. split; [reflexivity|].
      eapply frame_trans; [exact Hf|apply frame_WriteString].
    - eexists. split; [reflexivity|apply frame_WriteString]. }
  destruct Hsel as (selected & -> & Hfs). cbn [bind].
  pose proof (orderByJoins_Some (OrderByAnnotations opts) 0 selected) as Hj.
  destruct (orderByJoins 0 (OrderByAnnotations opts) selected) as [joined|].
  - destruct Hj as [Ht Hfj]. rewrite Ht.
    assert (Hopts : options joined = opts).
    { destruct Hfs as [H1 _], Hfj as [H2 _]. rewrite H2, H1. reflexivity. }
    destruct (keyset_columns opts (opt_Cursor opts)) as [cols|] eqn:Hk.
    + pose proof (@addPaginationArguments_resolved joined cols) as Hp.
      rewrite Hopts in Hp. specialize (Hp Hk).
      destruct (addPaginationArguments joined) as [paged [e|]]; [discriminate Hp|].
      unfold pushArgument. eexists. split; [reflexivity|].
      split; [reflexivity|discriminate].
    + pose proof (@addPaginationArguments_unresolved joined) as Hp.
      rewrite Hopts in Hp. specialize (Hp Hk).
      destruct (addPaginationArguments joined) as [paged [e|]]; [|discriminate Hp].
      eexists. split; [reflexivity|]. split; reflexivity.
  - rewrite Hj. eexists. split; reflexivity.
Qed.

(** X7. On an AST in normal form (as [Normalise] returns it),
    [TablesEvaluator.EvaluateAST] does not panic.  It returns the error of
    the annotation type when an order-by annotation has a type other than
    [string] and [numeric]; otherwise the error of the pagination step when a
    column of the cursor is not found; otherwise a statement. *)
Theorem EvaluateAST_outcome (ast : AST) (opts : QueryOptions) :
  (forall x, ast_Expr ast = Some x -> wf_ASTExpr x) ->
  exists r,
    EvaluateAST ToLower ast opts = Ok r
    /\ match r with
       | Failed e =>
           if forallb annotation_typed (OrderByAnnotations opts)
           then e = ErrPagination
                /\ keyset_columns opts (opt_Cursor opts) = None
           else e = ErrOrderByType
       | Returned _ =>
           forallb annotation_typed (OrderByAnnotations opts) = true
           /\ keyset_columns opts (opt_Cursor opts) <> None
       end.
Proof. apply EvaluateAST_cases. Qed.

Section Pipeline.

Variable json_Marshal_Cursor : Cursor -> option (list byte).
Variable json_Unmarshal : list byte -> option (list any).
Variable base64_DecodeString : string -> option (list byte).
Variable uint64_of_unrepresentable : float64 -> N.
Variable int_of_unrepresentable : float64 -> Z.

(** X8. The steps of a query compose: when [Normalise] returned an AST for
    the filter and [NewQueryOptions] returned options for a request whose
    order-by annotations are typed [string] or [numeric],
    [TablesEvaluator.EvaluateAST] returns a statement, neither an error nor a
    panic. *)
Theorem query_pipeline_returns (t : TopLevel) (ast : AST) (latestHead : N)
  (request : InternalQueryOptions) (opts : QueryOptions) :
  TopLevel_Normalise ToLower t = Ok ast ->
  NewQueryOptions json_Marshal_Cursor json_Unmarshal base64_DecodeString
    uint64_of_unrepresentable int_of_unrepresentable latestHead request
  = Ok (Returned opts) ->
  forallb annotation_typed (iq_OrderBy request) = true ->
  exists q, EvaluateAST ToLower ast opts = Ok (Returned q).
Proof.
  intros Hn Ho Ht.
  assert (Hwf : forall x, ast_Expr ast = Some x -> wf_ASTExpr x).
  { unfold TopLevel_Normalise in Hn.
    destruct (top_Expression t) as [e|]; [|injection Hn as <-; discriminate].
    destruct (Expression_Normalise ToLower e) as [x'| |] eqn:He; try discriminate.
    cbn [bind] in Hn. injection Hn as <-. intros x [= <-].
    exact (@Normalise_shape ToLower e x' He). }
  destruct (@EvaluateAST_cases ast opts Hwf) as (r & Hr & Hcase).
  destruct (@NewQueryOptions_fields json_Marshal_Cursor json_Unmarshal
              base64_DecodeString uint64_of_unrepresentable int_of_unrepresentable
              latestHead request opts Ho) as (_ & _ & Ha & _).
  destruct (@NewQueryOptions_cursor_resolves json_Marshal_Cursor json_Unmarshal
              base64_DecodeString uint64_of_unrepresentable int_of_unrepresentable
              latestHead request opts Ho) as [cols Hcols].
  destruct r as [q|e]; [exists q; exact Hr|].
  exfalso. rewrite Ha, Ht in Hcase. destruct Hcase as [_ Hk]. congruence.
Qed.

End Pipeline.

End Outcome.

Lemma a_and_b_ast_wf : forall x, ast_Expr a_and_b_ast = Some x -> wf_ASTExpr x.
Proof.
  intros x [= <-]. split; [discriminate|].
  constructor; [discriminate|constructor].
Defined.

(** X7 at the normal form of [a = 1 && b = 2], ordered by one annotation. *)
Lemma EvaluateAST_outcome_a_and_b :
  exists r,
    EvaluateAST ToLower_ascii a_and_b_ast priced_options = Ok r
    /\ match r with
       | Failed e =>
           if forallb annotation_typed (OrderByAnnotations priced_options)
           then e = ErrPagination
                /\ keyset_columns priced_options (opt_Cursor priced_options) = None
           else e = ErrOrderByType
       | Returned _ =>
           forallb annotation_typed (OrderByAnnotations priced_options) = true
           /\ keyset_columns priced_options (opt_Cursor priced_options) <> None
       end.
Proof.
  exact (@EvaluateAST_outcome ToLower_ascii a_and_b_ast priced_options a_and_b_ast_wf).
Defined.

(** X8 at the filter [a = 1 && b = 2] and the same request. *)
Lemma query_pipeline_returns_a_and_b :
  exists q, EvaluateAST ToLower_ascii a_and_b_ast priced_options = Ok (Returned q).
Proof.
  exact (@query_pipeline_returns ToLower_ascii example_json_Marshal_Cursor
           example_json_Unmarshal std_base64_DecodeString (fun _ => 0%N)
           (fun _ => 0%Z) (mkTopLevel (Some a_and_b)) a_and_b_ast 7%N priced_request
           priced_options eq_refl eq_refl eq_refl).
Defined.

(* ================================================================== *)
(** * The EXISTS emitter *)
(* ================================================================== *)

(** ** Builders that have written and pushed *)

Lemma advance_add (n : nat) : forall c m, advance c (n + m) = advance (advance c n) m.
Proof.
  induction n as [|n IH]; intros c m; [reflexivity|].
  cbn [Nat.add advance]. apply IH.
Qed.

Lemma QueryBuilder_eq (q q' : string) (a a' : list any) (c c' t : N) (k w : bool)
  (o : QueryOptions) (d : string) :
  q = q' -> a = a' -> c = c' ->
  mkQueryBuilder q a c t k w o d = mkQueryBuilder q' a' c' t k w o d.
Proof. intros -> -> ->. reflexivity. Qed.

Lemma extend_nil (b : QueryBuilder) : extend b EmptyString [] = b.
Proof.
  destruct b. unfold extend. cbn. apply QueryBuilder_eq;
    [apply string_append_nil_r|apply app_nil_r|reflexivity].
Qed.

Lemma extend_extend (b : QueryBuilder) (t1 t2 : string) (a1 a2 : list any) :
  extend (extend b t1 a1) t2 a2 = extend b (t1 ++ t2) (a1 ++ a2).
Proof.
  unfold extend. cbn. apply QueryBuilder_eq.
  - apply string_append_assoc.
  - symmetry. apply app_assoc.
  - rewrite length_app, advance_add. reflexivity.
Qed.

Lemma WriteString_extend (b : QueryBuilder) (s : string) : WriteString b s = extend b s [].
Proof.
  unfold WriteString, extend. cbn. apply QueryBuilder_eq;
    [reflexivity|symmetry; apply app_nil_r|reflexivity].
Qed.

Lemma pushArgument_extend (b : QueryBuilder) (v : any) :
  pushArgument b v
  = (placeholder (advance (argsCount b) 1), extend b EmptyString [v]).
Proof.
  unfold pushArgument, extend, placeholder. cbn. f_equal.
  apply QueryBuilder_eq; [symmetry; apply string_append_nil_r|reflexivity|reflexivity].
Qed.

Lemma pushArguments_extend (vals : list any) :
  forall b,
    pushArguments b vals
    = (placeholders_after (argsCount b) (length vals), extend b EmptyString vals).
Proof.
  induction vals as [|v r IH]; intros b; cbn [pushArguments].
  - rewrite extend_nil. reflexivity.
  - rewrite pushArgument_extend. cbv iota beta.
    rewrite IH. cbv iota beta. rewrite extend_extend. reflexivity.
Qed.

Lemma pushValue_extend (b : QueryBuilder) (v : Value) :
  pushValue b v
  = (value_type v, placeholder (advance (argsCount b) 1),
     extend b EmptyString [value_argument v]).
Proof.
  destruct v; unfold pushValue; rewrite pushArgument_extend; reflexivity.
Qed.

Lemma addComparison_extend (operation var : string) (value : Value) (b : QueryBuilder) :
  addComparison operation var value b
  = extend b (comparison_condition operation value (argsCount b))
      [AString var; value_argument value].
Proof.
  unfold addComparison. rewrite pushArgument_extend. cbv iota beta.
  rewrite pushValue_extend. cbv iota beta.
  rewrite WriteString_extend, !extend_extend, ?app_nil_r. reflexivity.
Qed.

Lemma strings_Join_cons (x : string) (r : list string) (sep : string) :
  strings_Join (x :: r) sep = (x ++ prefixed sep r)%string.
Proof.
  unfold strings_Join. revert x. induction r as [|y r IH]; intros x.
  - cbn. symmetry. apply string_append_nil_r.
  - change (String.concat sep (x :: y :: r))
      with (x ++ sep ++ String.concat sep (y :: r))%string.
    rewrite IH. reflexivity.
Qed.

Section ExistsClosedForm.

Variable ToLower : string -> string.

Lemma addTermConditions_extend (t : ASTTerm) (b : QueryBuilder) :
  addTermConditions ToLower t b
  = extend b (term_condition ToLower t (argsCount b)) (term_arguments ToLower t).
Proof.
  destruct t as [e|e|e|e|e|e|e]; cbn [addTermConditions term_condition term_arguments];
    try apply addComparison_extend.
  - rewrite pushArgument_extend. cbv iota beta.
    rewrite pushArguments_extend. cbv iota beta.
    rewrite WriteString_extend, !extend_extend, ?app_nil_r. reflexivity.
  - rewrite pushArgument_extend. cbv iota beta.
    rewrite pushArgument_extend. cbv iota beta.
    rewrite WriteString_extend, !extend_extend, ?app_nil_r. reflexivity.
Qed.

Lemma addMoreTerms_extend (rest : list ASTTerm) :
  forall b,
    addMoreTerms ToLower rest b
    = extend b (prefixed " AND " (condition_texts ToLower rest (argsCount b)))
        (flat_map (term_arguments ToLower) rest).
Proof.
  induction rest as [|t r IH]; intros b; cbn [addMoreTerms].
  - symmetry. apply extend_nil.
  - rewrite IH, addTermConditions_extend, WriteString_extend, !extend_extend.
    reflexivity.
Qed.

Lemma addAndConditions_extend (a : ASTAnd) (b : QueryBuilder) :
  and_Terms a <> [] ->
  addAndConditions ToLower a b
  = Ok (extend b (conjunction_text ToLower a (argsCount b))
          (conjunction_arguments ToLower a)).
Proof.
  intros Hne. unfold addAndConditions, conjunction_text, conjunction_arguments.
  destruct (and_Terms a) as [|t rest]; [congruence|].
  rewrite addMoreTerms_extend, addTermConditions_extend, extend_extend.
  cbn [condition_texts flat_map]. rewrite strings_Join_cons. reflexivity.
Qed.

Lemma addMoreConjunctions_extend (rest : list ASTAnd) :
  Forall (fun c => and_Terms c <> []) rest ->
  forall b,
    addMoreConjunctions ToLower rest b
    = Ok (extend b (prefixed ") OR (" (disjunction_texts ToLower rest (argsCount b)))
            (flat_map (conjunction_arguments ToLower) rest)).
Proof.
  induction 1 as [|a r Ha _ IH]; intros b; cbn [addMoreConjunctions].
  - rewrite extend_nil. reflexivity.
  - rewrite (@addAndConditions_extend a _ Ha). cbn [bind].
    rewrite IH, WriteString_extend, !extend_extend, ?app_nil_r. reflexivity.
Qed.

Lemma addOrConditions_extend (x : ASTOr) (b : QueryBuilder) :
  nonempty_conjunctions (or_Terms x) ->
  addOrConditions ToLower x b
  = Ok (extend b (disjunction_text ToLower x (argsCount b))
          (disjunction_arguments ToLower x)).
Proof.
  intros [Hne Hall]. unfold addOrConditions, disjunction_text, disjunction_arguments.
  destruct (or_Terms x) as [|a rest]; [congruence|].
  inversion Hall as [|? ? Ha Hrest]; subst.
  rewrite (@addAndConditions_extend a _ Ha). cbn [bind].
  rewrite (@addMoreConjunctions_extend rest Hrest). cbn [bind].
  rewrite !WriteString_extend, !extend_extend.
  cbn [disjunction_texts flat_map]. rewrite strings_Join_cons.
  f_equal. unfold extend. cbn. apply QueryBuilder_eq.
  - rewrite !string_append_assoc. reflexivity.
  - rewrite !app_nil_r. reflexivity.
  - rewrite !app_nil_r. reflexivity.
Qed.

End ExistsClosedForm.

(** ** The counter *)

Lemma counted_extend (b : QueryBuilder) (t : string) (a : list any) :
  counted b -> counted (extend b t a).
Proof.
  unfold counted, extend. cbn. intros ->.
  rewrite length_app, advance_add. reflexivity.
Qed.

Lemma counted_pushArgument (b : QueryBuilder) (v : any) :
  counted b -> counted (snd (pushArgument b v)).
Proof. rewrite pushArgument_extend. apply counted_extend. Qed.

Lemma counted_WriteString (b : QueryBuilder) (s : string) :
  counted b -> counted (WriteString b s).
Proof. rewrite WriteString_extend. apply counted_extend. Qed.

Lemma counted_pushCursorArguments (cursor : list CursorValue) :
  forall b, counted b -> counted (snd (pushCursorArguments b cursor)).
Proof.
  induction cursor as [|c r IH]; intros b Hb; cbn [pushCursorArguments]; [exact Hb|].
  pose proof (counted_pushArgument (cv_Value c) Hb) as H1.
  destruct (pushArgument b (cv_Value c)) as [arg b1]. cbn [snd] in H1.
  specialize (IH b1 H1). destruct (pushCursorArguments b1 r) as [rest b2].
  exact IH.
Qed.

Lemma counted_addPaginationArguments (b : QueryBuilder) :
  counted b -> counted (fst (addPaginationArguments b)).
Proof.
  intros Hb. unfold addPaginationArguments.
  destruct (0 <? length (opt_Cursor (options b))); [|exact Hb].
  pose proof (counted_pushCursorArguments (opt_Cursor (options b)) Hb) as H1.
  destruct (pushCursorArguments b (opt_Cursor (options b))) as [placeholders b1].
  cbn [snd] in H1.
  destruct (paginationConditions _ _ _); [|exact H1].
  cbn [fst]. unfold writeWhereOrAnd.
  destruct (needsWhere b1); repeat apply counted_WriteString; exact H1.
Qed.

Lemma counted_orderByJoins_indexed (annotations : list OrderByAnnotation) :
  forall i b b',
    counted b -> orderByJoins_indexed i annotations b = Some b' -> counted b'.
Proof.
  induction annotations as [|o r IH]; intros i b b' Hb; cbn [orderByJoins_indexed].
  - intros [= <-]. exact Hb.
  - destruct (String.eqb (oba_Type o) "string");
      [|destruct (String.eqb (oba_Type o) "numeric"); [|discriminate]];
      rewrite pushArgument_extend; apply IH;
      apply counted_WriteString, counted_extend; exact Hb.
Qed.

Lemma options_orderByJoins_indexed (annotations : list OrderByAnnotation) :
  forall i b b',
    orderByJoins_indexed i annotations b = Some b' -> options b' = options b.
Proof.
  induction annotations as [|o r IH]; intros i b b'; cbn [orderByJoins_indexed].
  - intros [= <-]. reflexivity.
  - destruct (String.eqb (oba_Type o) "string");
      [|destruct (String.eqb (oba_Type o) "numeric"); [|discriminate]];
      unfold pushArgument; intros H; apply IH in H; exact H.
Qed.

Lemma options_writeWhereOrAnd (b : QueryBuilder) :
  options (writeWhereOrAnd b) = options b.
Proof. unfold writeWhereOrAnd. destruct (needsWhere b); reflexivity. Qed.

Lemma options_addPaginationArguments (b : QueryBuilder) :
  options (fst (addPaginationArguments b)) = options b.
Proof.
  unfold addPaginationArguments.
  destruct (0 <? length (opt_Cursor (options b))); [|reflexivity].
  pose proof (frame_pushCursorArguments (opt_Cursor (options b)) b) as [H1 _].
  destruct (pushCursorArguments b (opt_Cursor (options b))) as [placeholders b1].
  cbn [snd] in H1.
  destruct (paginationConditions _ _ _); [|exact H1].
  cbn [fst]. unfold WriteString. cbn [options].
  rewrite options_writeWhereOrAnd. exact H1.
Qed.

Section ExistsStatement.

Variable ToLower : string -> string.

(** X9. For a filter in normal form, the statement of the EXISTS strategy
    is the one for [$all] with the filter inserted before the order:
    [ AND (c11 AND c12 ...) OR (c21 ...) ...], one [EXISTS] condition per
    term, every conjunction in parentheses of its own and the disjunction as
    a whole in none; the arguments of the terms, the key before the values,
    follow those of [$all] in the order of the terms.  Where [$all] gets an
    error, the filter gets the same; neither panics. *)
Theorem Exists_EvaluateAST_filter (x : ASTExpr) (opts : QueryOptions) :
  wf_ASTExpr x ->
  match Exists_EvaluateAST ToLower (mkAST None) opts with
  | Ok (Returned q0) =>
      exists head,
        Query q0 = (head ++ order_and_limit opts)%string
        /\ Exists_EvaluateAST ToLower (mkAST (Some x)) opts
           = Ok (Returned
                   (mkSelectQuery
                      (head
                       ++ disjunction_text ToLower (ast_Or x)
                            (advance 0 (length (Args q0)))
                       ++ order_and_limit opts)
                      (Args q0 ++ disjunction_arguments ToLower (ast_Or x))))
  | Ok (Failed e) => Exists_EvaluateAST ToLower (mkAST (Some x)) opts = Ok (Failed e)
  | _ => False
  end.
Proof.
  intros Hwf. unfold Exists_EvaluateAST.
  set (selected := WriteString _ _).
  assert (Hsel : counted selected) by reflexivity.
  destruct (orderByJoins_indexed 0 (OrderByAnnotations opts) selected)
    as [joined|] eqn:Hj; [|reflexivity].
  pose proof (@counted_orderByJoins_indexed _ _ _ _ Hsel Hj) as Hjoined.
  pose proof (counted_addPaginationArguments Hjoined) as Hpaged.
  destruct (addPaginationArguments joined) as [paged [e|]] eqn:Hpag; [reflexivity|].
  cbn [fst] in Hpaged. cbn [ast_Expr bind].
  rewrite pushArgument_extend. cbv iota beta.
  set (b1 := writeWhereOrAnd paged) in *.
  assert (Hb1 : counted b1).
  { unfold b1, writeWhereOrAnd. destruct (needsWhere paged);
      repeat apply counted_WriteString; exact Hpaged. }
  assert (Hopts : options b1 = opts).
  { unfold b1. rewrite options_writeWhereOrAnd.
    pose proof (options_addPaginationArguments joined) as Hp.
    rewrite Hpag in Hp. cbn [fst] in Hp. rewrite Hp.
    apply (options_orderByJoins_indexed _ _ _ Hj). }
  rewrite (@addOrConditions_extend ToLower (ast_Or x) _ Hwf). cbn [bind].
  rewrite !WriteString_extend, !extend_extend.
  exists (queryBuilder b1
          ++ placeholder (advance (argsCount b1) 1)
          ++ " BETWEEN e.from_block AND e.to_block - 1")%string.
  unfold extend, order_and_limit.
  cbn [queryBuilder args argsCount options Query Args]. rewrite Hopts.
  split.
  - rewrite !string_append_assoc. reflexivity.
  - cbn [app append]. rewrite !app_nil_r.
    match goal with
    | |- Ok (Returned (mkSelectQuery ?q ?a)) = Ok (Returned (mkSelectQuery ?q' ?a')) =>
        assert (Hq : q = q'); [|assert (Ha : a = a'); [|rewrite Hq, Ha; reflexivity]]
    end.
    + rewrite length_app, advance_add, <- Hb1, !string_append_assoc. reflexivity.
    + rewrite <- app_assoc. reflexivity.
Qed.

End ExistsStatement.

Lemma a_or_b_expr_wf : wf_ASTExpr a_or_b_expr.
Proof.
  split; [discriminate|].
  constructor; [discriminate|]. constructor; [discriminate|constructor].
Defined.

(** X9 at the normal form of [a = 1 || b = "x"]. *)
Lemma Exists_EvaluateAST_filter_a_or_b :
  exists head,
    "SELECT e.entity_key AS entity_key, e.from_block AS from_block FROM payloads AS e WHERE $1 BETWEEN e.from_block AND e.to_block - 1 ORDER BY from_block, entity_key LIMIT 200"
    = (head ++ order_and_limit plain_options)%string
    /\ Exists_EvaluateAST ToLower_ascii (mkAST (Some a_or_b_expr)) plain_options
       = Ok (Returned
               (mkSelectQuery
                  (head ++ disjunction_text ToLower_ascii (ast_Or a_or_b_expr) 1
                   ++ order_and_limit plain_options)
                  [AUint64 7; AString "a"; AUint64 1; AString "b"; AString "x"])).
Proof.
  exact (@Exists_EvaluateAST_filter ToLower_ascii a_or_b_expr plain_options
           a_or_b_expr_wf).
Defined.

(* ================================================================== *)
(** * [store.Uint64] *)
(* ================================================================== *)

(** X10. What [Value] writes for a [uint64] is read back by [Scan] when the
    number is below [2 ^ 63]; from [2 ^ 63] on [Value] writes a negative
    [int64], which [Scan] refuses. *)
Theorem Uint64_Scan_Value (big_SetString : string -> option Z)
  (uint64_of_unrepresentable : float64 -> N) (u : N) :
  (u < 2 ^ 64)%N ->
  Uint64_Scan big_SetString uint64_of_unrepresentable (AInt64 (Uint64_Value u))
  = if (u <? 2 ^ 63)%N then Scanned u else ScanFailed ErrScanNegative.
Proof.
  intros Hu. unfold Uint64_Scan, Uint64_Value.
  destruct (u <? 2 ^ 63)%N eqn:Hlt.
  - assert (H : (Z.of_N u <? 0)%Z = false) by (apply Z.ltb_ge; lia).
    rewrite H, N2Z.id. reflexivity.
  - apply N.ltb_ge in Hlt.
    assert (H : (Z.of_N u - 2 ^ 64 <? 0)%Z = true).
    { apply Z.ltb_lt.
      assert (Z.of_N u < Z.of_N (2 ^ 64))%Z by (apply N2Z.inj_lt; exact Hu).
      change (Z.of_N (2 ^ 64)) with (2 ^ 64)%Z in *. lia. }
    rewrite H. reflexivity.
Qed.

(** X10 at [2 ^ 63], the first number that is not read back. *)
Lemma Uint64_Scan_Value_wraps :
  Uint64_Scan (fun _ => None) (fun _ => 0%N) (AInt64 (Uint64_Value (2 ^ 63)))
  = ScanFailed ErrScanNegative.
Proof.
  exact (@Uint64_Scan_Value (fun _ => None) (fun _ => 0%N) (2 ^ 63)%N eq_refl).
Defined.

(* ================================================================== *)
(** * Normalisation, further *)
(* ================================================================== *)

Lemma lower_ascii_idempotent (c : ascii) : lower_ascii (lower_ascii c) = lower_ascii c.
Proof. destruct c as [[] [] [] [] [] [] [] []]; reflexivity. Qed.

Lemma ToLower_ascii_idempotent (s : string) :
  ToLower_ascii (ToLower_ascii s) = ToLower_ascii s.
Proof.
  induction s as [|c s IH]; [reflexivity|].
  cbn. rewrite lower_ascii_idempotent. f_equal. exact IH.
Qed.

Lemma owner_is_ab_case_insensitive : case_insensitive ToLower_ascii owner_is_ab.
Proof.
  intros v _. repeat split; try reflexivity.
  intros s. cbn. rewrite ToLower_ascii_idempotent. reflexivity.
Qed.

(** X11. For an assignment that compares [$key], [$owner] and [$creator]
    without regard to case, and an expression none of whose leaves is one
    that [Normalise] rebuilds with a field missing or panics on,
    [Expression.Normalise] returns a non-empty disjunction of non-empty
    conjunctions that has the truth value of the expression: the
    distribution of conjunctions over disjunctions and the inversion of
    negated parentheses preserve truth. *)
Theorem Expression_Normalise_faithful (ToLower : string -> string)
  (rho : Assignment) (e : Expression) :
  case_insensitive ToLower rho ->
  faithful false e ->
  exists x,
    Expression_Normalise ToLower e = Ok x
    /\ wf_ASTExpr x
    /\ eval_ASTExpr rho x = eval_Expression rho e.
Proof.
  intros Hci Hf.
  destruct (Normalise_defined ToLower e) as [x Hx].
  { unfold faithful in Hf. rewrite forallb_forall in *.
    intros y Hy. apply faithful_defined. apply Hf. exact Hy. }
  exists x. split; [exact Hx|]. split; [exact (@Normalise_shape ToLower e x Hx)|].
  pose proof (Normalise_fuel_sound Hci (S (2 * depth_Expression e)) Hf) as Hs.
  unfold Expression_Normalise in Hx. rewrite Hx in Hs. exact Hs.
Qed.

(** X11 at [$owner = "0xAB" || !(a = 2)] and an entity owned by [0xab]. *)
Lemma Expression_Normalise_faithful_owner :
  exists x,
    Expression_Normalise ToLower_ascii owner_or_not_a = Ok x
    /\ wf_ASTExpr x
    /\ eval_ASTExpr owner_is_ab x = eval_Expression owner_is_ab owner_or_not_a.
Proof.
  exact (@Expression_Normalise_faithful ToLower_ascii owner_is_ab owner_or_not_a
           owner_is_ab_case_insensitive eq_refl).
Defined.

(** X12. A leaf that compares [$key], [$owner] or [$creator] with a number
    makes [Normalise] panic wherever it stands in the filter, also inside
    parentheses and under negations. *)
Theorem Normalise_panics_on_numeric_meta (ToLower : string -> string)
  (e : Expression) :
  forallb defined_leaf (leaves_Expression false e) = false ->
  exists m, Expression_Normalise ToLower e = Panic m.
Proof.
  intros H.
  destruct (Expression_Normalise ToLower e) as [x|m|] eqn:He.
  - assert (Hd : forallb defined_leaf (leaves_Expression false e) = true).
    { apply (Normalise_Ok_iff ToLower e). exists x. exact He. }
    congruence.
  - exists m. reflexivity.
  - exfalso. exact (@Normalise_returns ToLower e He).
Qed.

(** X12 at [!(a = 1 || $key = 1)]. *)
Lemma Normalise_panics_on_numeric_meta_nested :
  exists m, Expression_Normalise ToLower_ascii not_a_or_key = Panic m.
Proof.
  exact (@Normalise_panics_on_numeric_meta ToLower_ascii not_a_or_key eq_refl).
Defined.

(* ================================================================== *)
(** * The common table expressions *)
(* ================================================================== *)

Lemma prefixed_app (sep : string) (l1 l2 : list string) :
  prefixed sep (l1 ++ l2) = (prefixed sep l1 ++ prefixed sep l2)%string.
Proof.
  induction l1 as [|x r IH]; [reflexivity|].
  cbn [app prefixed]. rewrite IH, !string_append_assoc. reflexivity.
Qed.

Lemma builder_eq (q q' : string) (a a' : list any) (c c' t t' : N) (k k' w : bool)
  (o : QueryOptions) (d : string) :
  q = q' -> a = a' -> c = c' -> t = t' -> k = k' ->
  mkQueryBuilder q a c t k w o d = mkQueryBuilder q' a' c' t' k' w o d.
Proof. intros -> -> -> -> ->. reflexivity. Qed.

Section DefinedTables.

Variable ToLower : string -> string.

Local Abbreviation define' := (define ToLower).
Local Abbreviation tables_text' := (tables_text ToLower).

Lemma tables_text_app (comma : bool) (d1 d2 : list TableDef) :
  tables_text' comma (d1 ++ d2)
  = (tables_text' comma d1 ++ tables_text' (comma || (0 <? length d1)%nat) d2)%string.
Proof.
  destruct d1 as [|d r].
  - cbn [app tables_text length Nat.ltb Nat.leb]. rewrite orb_false_r. reflexivity.
  - cbn [app tables_text length]. change (0 <? S (length r)) with true.
    rewrite orb_true_r, map_app, prefixed_app.
    destruct d2 as [|e r2].
    + cbn [tables_text map prefixed]. rewrite !string_append_assoc. reflexivity.
    + cbn [tables_text map prefixed]. rewrite !string_append_assoc. reflexivity.
Qed.

Lemma define_nil (b : QueryBuilder) : define' b [] [] = b.
Proof.
  destruct b. unfold define. cbn. apply builder_eq;
    [apply string_append_nil_r|apply app_nil_r|reflexivity|reflexivity
    |apply orb_false_r].
Qed.

Lemma define_define (b : QueryBuilder) (d1 d2 : list TableDef) (a1 a2 : list any) :
  define' (define' b d1 a1) d2 a2 = define' b (d1 ++ d2) (a1 ++ a2).
Proof.
  unfold define.
  cbn [queryBuilder args argsCount tableCounter needsComma needsWhere options
       sqlDialect].
  apply builder_eq.
  - rewrite tables_text_app, string_append_assoc. reflexivity.
  - symmetry. apply app_assoc.
  - rewrite length_app, advance_add. reflexivity.
  - rewrite length_app, advance_add. reflexivity.
  - rewrite length_app, <- orb_assoc. f_equal.
    destruct d1, d2; reflexivity.
Qed.

Lemma define_extend (b : QueryBuilder) (a1 a2 : list any) (defs : list TableDef) :
  define' (extend b EmptyString a1) defs a2 = define' b defs (a1 ++ a2).
Proof.
  unfold define, extend.
  cbn [queryBuilder args argsCount tableCounter needsComma needsWhere options
       sqlDialect].
  apply builder_eq; try reflexivity.
  - rewrite string_append_nil_r. reflexivity.
  - symmetry. apply app_assoc.
  - rewrite length_app, advance_add. reflexivity.
Qed.

Lemma define_tableCounter (b : QueryBuilder) (d : list TableDef) (a : list any) :
  tableCounter (define' b d a) = advance (tableCounter b) (length d).
Proof. reflexivity. Qed.

Lemma define_argsCount (b : QueryBuilder) (d : list TableDef) (a : list any) :
  argsCount (define' b d a) = advance (argsCount b) (length a).
Proof. reflexivity. Qed.

Lemma define_options (b : QueryBuilder) (d : list TableDef) (a : list any) :
  options (define' b d a) = options b.
Proof. reflexivity. Qed.

(** ** The leaves *)

Lemma createLeafQuery_define (b : QueryBuilder) (body : TableBody) :
  createLeafQuery b (render_body ToLower body)
  = (table_name (advance (tableCounter b) 1),
     define' b [mkTableDef (table_name (advance (tableCounter b) 1)) body] []).
Proof.
  unfold createLeafQuery, nextTableName, writeComma, define, WriteString,
    set_needsComma, table_name.
  cbn [queryBuilder args argsCount tableCounter needsComma needsWhere options
       sqlDialect advance length tables_text map prefixed render_table td_name
       td_body].
  f_equal.
  destruct (needsComma b);
    cbn [queryBuilder args argsCount tableCounter needsComma needsWhere options
         sqlDialect orb];
    apply builder_eq; try reflexivity;
    try (symmetry; apply app_nil_r);
    rewrite ?string_append_assoc, ?string_append_nil_r; reflexivity.
Qed.

Lemma createAnnotationQuery_define (b : QueryBuilder) (t w : string) (body : TableBody) :
  render_body ToLower body
  = annotation_query t w (placeholder (advance (argsCount b) 1)) ->
  createAnnotationQuery b t w
  = (table_name (advance (tableCounter b) 1),
     define' b [mkTableDef (table_name (advance (tableCounter b) 1)) body]
       [AUint64 (AtBlock (options b))]).
Proof.
  intros Hbody. unfold createAnnotationQuery.
  rewrite pushArgument_extend. cbv iota beta.
  change (strings_Join _ " ")
    with (annotation_query t w (placeholder (advance (argsCount b) 1))).
  rewrite <- Hbody, createLeafQuery_define, define_extend. reflexivity.
Qed.

Lemma comparison_Evaluate_define (operator var : string) (value : Value)
  (b : QueryBuilder) (t : ASTTerm) :
  leaf_query ToLower t (argsCount b) = comparison_query operator value (argsCount b) ->
  leaf_arguments ToLower (AtBlock (options b)) t
  = [AString var; value_argument value; AUint64 (AtBlock (options b))] ->
  comparison_Evaluate operator var value b
  = (table_name (advance (tableCounter b) 1),
     define' b
       [mkTableDef (table_name (advance (tableCounter b) 1)) (BLeaf t (argsCount b))]
       (leaf_arguments ToLower (AtBlock (options b)) t)).
Proof.
  intros Hq Ha. unfold comparison_Evaluate.
  rewrite pushArgument_extend. cbv iota beta.
  rewrite pushValue_extend. cbv iota beta.
  rewrite extend_extend.
  rewrite (@createAnnotationQuery_define _ _ _ (BLeaf t (argsCount b))).
  - rewrite define_extend, Ha. reflexivity.
  - cbn [render_body]. rewrite Hq. reflexivity.
Qed.

Lemma EvaluateTerm_define (t : ASTTerm) (b : QueryBuilder) :
  EvaluateTerm ToLower t b
  = (table_name (advance (tableCounter b) 1),
     define' b
       [mkTableDef (table_name (advance (tableCounter b) 1)) (BLeaf t (argsCount b))]
       (leaf_arguments ToLower (AtBlock (options b)) t)).
Proof.
  destruct t as [e|e|e|e|e|e|e]; cbn [EvaluateTerm];
    try (apply comparison_Evaluate_define; reflexivity).
  - unfold Inclusion_Evaluate.
    match goal with
    | |- context [if ?c then (?s, ?p) else (?n, ?q)] =>
        replace (if c then (s, p) else (n, q))
          with (inclusion_type e, pushArguments b (inclusion_arguments ToLower e))
          by (unfold inclusion_type, inclusion_arguments; destruct c; reflexivity)
    end.
    rewrite pushArguments_extend. cbv iota beta.
    rewrite pushArgument_extend. cbv iota beta.
    rewrite extend_extend.
    rewrite (@createAnnotationQuery_define _ _ _ (BLeaf (TInclusion e) (argsCount b))).
    + rewrite define_extend. cbn [leaf_arguments].
      rewrite <- app_assoc. reflexivity.
    + cbn [render_body leaf_query extend argsCount length].
      rewrite length_app, !advance_add. cbn [length].
      destruct (in_IsNot e); reflexivity.
  - unfold Glob_Evaluate.
    rewrite pushArgument_extend. cbv iota beta.
    rewrite pushArgument_extend. cbv iota beta.
    rewrite extend_extend.
    rewrite (@createAnnotationQuery_define _ _ _ (BLeaf (TGlob e) (argsCount b))).
    + rewrite define_extend. reflexivity.
    + reflexivity.
Qed.

(** ** The combinations *)

Lemma last_cons {A : Type} (a d : A) (l : list A) : last (a :: l) d = last l a.
Proof.
  revert a d. induction l as [|x r IH]; intros a d; [reflexivity|].
  change (last (a :: x :: r) d) with (last (x :: r) d).
  rewrite (IH x d), (IH x a). reflexivity.
Qed.

Lemma last_name_cons (d : TableDef) (defs : list TableDef) (default : string) :
  last_name (d :: defs) default = last_name defs (td_name d).
Proof. unfold last_name. cbn [map]. apply last_cons. Qed.

Lemma last_name_app (d1 : list TableDef) :
  forall d2 default,
    last_name (d1 ++ d2) default = last_name d2 (last_name d1 default).
Proof.
  induction d1 as [|d r IH]; intros d2 default; [reflexivity|].
  cbn [app]. rewrite !last_name_cons. apply IH.
Qed.

Lemma combination_define (o : SetOperator) (b : QueryBuilder) (lhs rhs : string) :
  WriteString
    (WriteString
       (WriteString
          (WriteString
             (WriteString
                (WriteString
                   (WriteString
                      (WriteString
                         (writeComma
                            (mkQueryBuilder (queryBuilder b) (args b) (argsCount b)
                               (uint32_succ (tableCounter b)) (needsComma b)
                               (needsWhere b) (options b) (sqlDialect b)))
                         ("table_" ++ decimal (uint32_succ (tableCounter b))))
                      " AS (")
                   "SELECT * FROM ")
                lhs)
             (set_operator_text o))
          "SELECT * FROM ")
       rhs)
    ")"
  = define' b
      [mkTableDef (table_name (advance (tableCounter b) 1)) (BCombine o lhs rhs)] [].
Proof.
  rewrite !WriteString_extend, !extend_extend.
  unfold writeComma. cbn [needsComma].
  destruct (needsComma b) eqn:Hc.
  - rewrite WriteString_extend, extend_extend.
    unfold extend, define, table_name.
    cbn [queryBuilder args argsCount tableCounter needsComma needsWhere options
         sqlDialect advance length tables_text map prefixed render_table td_name
         td_body render_body app].
    rewrite Hc. apply builder_eq; try reflexivity.
    unfold render_table. cbn [td_name td_body render_body].
    rewrite ?string_append_assoc, ?string_append_nil_r. reflexivity.
  - unfold extend, define, set_needsComma, table_name.
    cbn [queryBuilder args argsCount tableCounter needsComma needsWhere options
         sqlDialect advance length tables_text map prefixed render_table td_name
         td_body render_body app].
    rewrite Hc. apply builder_eq; try reflexivity.
    unfold render_table. cbn [td_name td_body render_body].
    rewrite ?string_append_assoc, ?string_append_nil_r. reflexivity.
Qed.

Lemma combineTables_define (rest : list ASTTerm) :
  forall lhs b,
    combineTables (EvaluateTerm ToLower) (set_operator_text Intersect) rest lhs b
    = (last_name
         (compile_more_terms ToLower (AtBlock (options b)) rest lhs (tableCounter b)
            (argsCount b))
         lhs,
       define' b
         (compile_more_terms ToLower (AtBlock (options b)) rest lhs (tableCounter b)
            (argsCount b))
         (flat_map (leaf_arguments ToLower (AtBlock (options b))) rest)).
Proof.
  induction rest as [|t r IH]; intros lhs b.
  - cbn [combineTables compile_more_terms flat_map]. rewrite define_nil. reflexivity.
  - cbn [combineTables]. rewrite EvaluateTerm_define. cbv iota beta.
    unfold nextTableName. cbv zeta iota beta.
    rewrite combination_define, define_define, IH, define_define.
    cbn [compile_more_terms flat_map app].
    rewrite !last_name_cons.
    unfold define at 1 2 3 4 5 6.
    cbn [queryBuilder args argsCount tableCounter needsComma needsWhere options
         sqlDialect length app fst].
    rewrite !app_nil_r. reflexivity.
Qed.

Lemma EvaluateAnd_define (a : ASTAnd) (b : QueryBuilder) :
  and_Terms a <> [] ->
  EvaluateAnd ToLower a b
  = Ok (last_name
          (compile_and ToLower (AtBlock (options b)) a (tableCounter b) (argsCount b))
          EmptyString,
        define' b
          (compile_and ToLower (AtBlock (options b)) a (tableCounter b) (argsCount b))
          (and_arguments ToLower (AtBlock (options b)) a)).
Proof.
  intros Hne. unfold EvaluateAnd, compile_and, and_arguments.
  destruct (and_Terms a) as [|t rest]; [congruence|].
  rewrite EvaluateTerm_define. cbv iota beta.
  change " INTERSECT " with (set_operator_text Intersect).
  rewrite combineTables_define, define_define.
  cbn [flat_map app]. rewrite last_name_cons.
  unfold define at 1 2 3 4.
  cbn [queryBuilder args argsCount tableCounter needsComma needsWhere options
       sqlDialect length td_name].
  reflexivity.
Qed.

Lemma combineConjunctions_define (rest : list ASTAnd) :
  Forall (fun c => and_Terms c <> []) rest ->
  forall lhs b,
    combineConjunctions ToLower rest lhs b
    = Ok (last_name
            (compile_more_conjunctions ToLower (AtBlock (options b)) rest lhs
               (tableCounter b) (argsCount b))
            lhs,
          define' b
            (compile_more_conjunctions ToLower (AtBlock (options b)) rest lhs
               (tableCounter b) (argsCount b))
            (flat_map (and_arguments ToLower (AtBlock (options b))) rest)).
Proof.
  induction 1 as [|a r Ha _ IH]; intros lhs b.
  - cbn [combineConjunctions compile_more_conjunctions flat_map].
    rewrite define_nil. reflexivity.
  - cbn [combineConjunctions]. rewrite (@EvaluateAnd_define a b Ha).
    cbn [bind]. cbv iota beta.
    unfold nextTableName. cbv zeta iota beta.
    change " UNION " with (set_operator_text Union).
    rewrite combination_define, define_define, IH, define_define.
    rewrite !define_tableCounter, !define_argsCount, !define_options.
    cbn [compile_more_conjunctions flat_map].
    rewrite !last_name_app, !last_name_cons, !app_nil_r, !length_app, !advance_add.
    rewrite <- !app_assoc. reflexivity.
Qed.

Lemma EvaluateOr_define (x : ASTOr) (b : QueryBuilder) :
  nonempty_conjunctions (or_Terms x) ->
  EvaluateOr ToLower x b
  = Ok (last_name
          (compile_or ToLower (AtBlock (options b)) x (tableCounter b) (argsCount b))
          EmptyString,
        define' b
          (compile_or ToLower (AtBlock (options b)) x (tableCounter b) (argsCount b))
          (or_arguments ToLower (AtBlock (options b)) x)).
Proof.
  intros [Hne Hall]. unfold EvaluateOr, compile_or, or_arguments.
  destruct (or_Terms x) as [|a rest]; [congruence|].
  inversion Hall as [|? ? Ha Hrest]; subst.
  rewrite (@EvaluateAnd_define a b Ha). cbn [bind]. cbv iota beta.
  rewrite (@combineConjunctions_define rest Hrest), define_define.
  rewrite !define_tableCounter, !define_argsCount, !define_options.
  cbn [flat_map]. rewrite last_name_app. reflexivity.
Qed.

End DefinedTables.

(** ** The names of the tables *)

Lemma advance_small (n : nat) :
  forall c, (c + N.of_nat n < 2 ^ 32)%N -> advance c n = (c + N.of_nat n)%N.
Proof.
  induction n as [|n IH]; intros c Hc; cbn [advance].
  - lia.
  - rewrite uint32_succ_small by lia. rewrite IH by lia. lia.
Qed.

Lemma table_name_inj (i j : N) : table_name i = table_name j -> i = j.
Proof.
  unfold table_name. cbn [append]. intros [= H]. apply decimal_inj. exact H.
Qed.

Lemma table_name_eqb (i j : N) :
  String.eqb (table_name i) (table_name j) = N.eqb i j.
Proof.
  destruct (N.eqb_spec i j) as [->|Hne]; [apply String.eqb_refl|].
  apply String.eqb_neq. intros H. apply Hne. apply table_name_inj. exact H.
Qed.

Lemma names_from_nil (tc : N) : names_from tc [].
Proof. intros [|k] d H; discriminate H. Qed.

Lemma names_from_cons (tc : N) (d : TableDef) (defs : list TableDef) :
  td_name d = table_name (advance tc 1) ->
  names_from (advance tc 1) defs ->
  names_from tc (d :: defs).
Proof.
  intros Hd Hr [|k] d' H; cbn [nth_error] in H.
  - injection H as <-. exact Hd.
  - apply Hr in H. rewrite H. reflexivity.
Qed.

Lemma names_from_app (tc : N) (d1 d2 : list TableDef) :
  names_from tc d1 -> names_from (advance tc (length d1)) d2 ->
  names_from tc (d1 ++ d2).
Proof.
  intros H1 H2 k d H.
  destruct (Nat.lt_ge_cases k (length d1)) as [Hlt|Hge].
  - rewrite nth_error_app1 in H by exact Hlt. apply H1. exact H.
  - rewrite nth_error_app2 in H by exact Hge. apply H2 in H. rewrite H.
    rewrite <- advance_add. do 2 f_equal. lia.
Qed.

Lemma last_name_names (tc : N) (defs : list TableDef) (default : string) :
  names_from tc defs -> defs <> [] ->
  last_name defs default = table_name (advance tc (length defs)).
Proof.
  intros Hn Hne.
  destruct (exists_last Hne) as (front & d & ->).
  rewrite last_name_app. cbn [last_name map last].
  rewrite length_app. cbn [length].
  rewrite (Hn (length front) d).
  - do 2 f_equal. lia.
  - rewrite nth_error_app2 by lia. rewrite Nat.sub_diag. reflexivity.
Qed.

Section Names.

Variable ToLower : string -> string.
Variable atBlock : N.

Lemma compile_more_terms_length (rest : list ASTTerm) :
  forall lhs tc c,
    length (compile_more_terms ToLower atBlock rest lhs tc c) = 2 * length rest.
Proof.
  induction rest as [|t r IH]; intros lhs tc c; [reflexivity|].
  cbn [compile_more_terms length]. rewrite IH. lia.
Qed.

Lemma compile_more_terms_names (rest : list ASTTerm) :
  forall lhs tc c, names_from tc (compile_more_terms ToLower atBlock rest lhs tc c).
Proof.
  induction rest as [|t r IH]; intros lhs tc c; cbn [compile_more_terms].
  - apply names_from_nil.
  - apply names_from_cons; [reflexivity|].
    apply names_from_cons; [reflexivity|]. apply IH.
Qed.

Lemma compile_and_length (a : ASTAnd) (tc c : N) :
  and_Terms a <> [] ->
  length (compile_and ToLower atBlock a tc c) = 2 * length (and_Terms a) - 1.
Proof.
  intros Hne. unfold compile_and.
  destruct (and_Terms a) as [|t rest]; [congruence|].
  cbn [length]. rewrite compile_more_terms_length. lia.
Qed.

Lemma compile_and_names (a : ASTAnd) (tc c : N) :
  names_from tc (compile_and ToLower atBlock a tc c).
Proof.
  unfold compile_and. destruct (and_Terms a) as [|t rest].
  - apply names_from_nil.
  - apply names_from_cons; [reflexivity|]. apply compile_more_terms_names.
Qed.

Lemma compile_more_conjunctions_names (rest : list ASTAnd) :
  forall lhs tc c,
    names_from tc (compile_more_conjunctions ToLower atBlock rest lhs tc c).
Proof.
  induction rest as [|a r IH]; intros lhs tc c; cbn [compile_more_conjunctions].
  - apply names_from_nil.
  - apply names_from_app; [apply compile_and_names|].
    apply names_from_cons; [reflexivity|]. apply IH.
Qed.

Lemma compile_more_conjunctions_length (rest : list ASTAnd) :
  Forall (fun a => and_Terms a <> []) rest ->
  forall lhs tc c,
    length (compile_more_conjunctions ToLower atBlock rest lhs tc c)
    = 2 * length (flat_map and_Terms rest).
Proof.
  induction 1 as [|a r Ha _ IH]; intros lhs tc c; [reflexivity|].
  cbn [compile_more_conjunctions flat_map].
  rewrite !length_app. cbn [length]. rewrite IH, compile_and_length by exact Ha.
  destruct (and_Terms a); [congruence|]. cbn [length]. lia.
Qed.

Lemma compile_or_names (x : ASTOr) (tc c : N) :
  names_from tc (compile_or ToLower atBlock x tc c).
Proof.
  unfold compile_or. destruct (or_Terms x) as [|a rest].
  - apply names_from_nil.
  - apply names_from_app; [apply compile_and_names|].
    apply compile_more_conjunctions_names.
Qed.

Lemma compile_or_length (x : ASTOr) (tc c : N) :
  nonempty_conjunctions (or_Terms x) ->
  length (compile_or ToLower atBlock x tc c) = 2 * term_count x - 1.
Proof.
  intros [Hne Hall]. unfold compile_or, term_count.
  destruct (or_Terms x) as [|a rest]; [congruence|].
  inversion Hall as [|? ? Ha Hrest]; subst.
  cbn [flat_map]. rewrite !length_app.
  rewrite compile_more_conjunctions_length, compile_and_length by assumption.
  destruct (and_Terms a); [congruence|]. cbn [length]. lia.
Qed.

End Names.

(** ** The rows of the tables *)

Section Rows.

Variable ToLower : string -> string.
Variable atBlock : N.
Variable rho : Assignment.

Local Abbreviation rows := (table_rows rho).

Lemma table_rows_app (d1 : list TableDef) :
  forall d2 env, rows (d1 ++ d2) env = rows d2 (rows d1 env).
Proof.
  induction d1 as [|d r IH]; intros d2 env; [reflexivity|].
  cbn [app table_rows]. apply IH.
Qed.

Lemma table_rows_other (defs : list TableDef) :
  forall env n,
    (forall d, In d defs -> td_name d <> n) -> rows defs env n = env n.
Proof.
  induction defs as [|d r IH]; intros env n Hn; [reflexivity|].
  cbn [table_rows]. rewrite IH.
  - assert (H : String.eqb n (td_name d) = false).
    { apply String.eqb_neq. intros ->. apply (Hn d); [left|]; reflexivity. }
    rewrite H. reflexivity.
  - intros d' Hd'. apply Hn. right. exact Hd'.
Qed.

(** A table defined before the counter reached [tc] is not defined again by
    tables named from [tc] on. *)
Lemma table_rows_older (tc j : N) (defs : list TableDef) (env : string -> bool) :
  names_from tc defs ->
  (tc + N.of_nat (length defs) < 2 ^ 32)%N ->
  (j <= tc)%N ->
  rows defs env (table_name j) = env (table_name j).
Proof.
  intros Hn Hb Hj. apply table_rows_other. intros d Hd Heq.
  destruct (In_nth_error _ _ Hd) as [k Hk].
  assert (Hlt : k < length defs) by (apply nth_error_Some; congruence).
  rewrite (Hn k d Hk) in Heq. apply table_name_inj in Heq.
  rewrite advance_small in Heq by lia. lia.
Qed.

Lemma compile_more_terms_rows (rest : list ASTTerm) :
  forall lhs tc c env j,
    lhs = table_name j -> (j <= tc)%N ->
    (tc + N.of_nat (2 * length rest) < 2 ^ 32)%N ->
    rows (compile_more_terms ToLower atBlock rest lhs tc c) env
      (last_name (compile_more_terms ToLower atBlock rest lhs tc c) lhs)
    = env lhs && forallb (eval_ASTTerm rho) rest.
Proof.
  induction rest as [|t r IH]; intros lhs tc c env j Hl Hj Hb.
  - cbn. rewrite andb_true_r. reflexivity.
  - cbn [compile_more_terms]. rewrite !last_name_cons. cbn [td_name table_rows].
    assert (H1 : advance tc 1 = (tc + 1)%N) by (apply advance_small; cbn [length] in Hb; lia).
    assert (H2 : advance tc 2 = (tc + 2)%N) by (apply advance_small; cbn [length] in Hb; lia).
    rewrite (IH _ _ _ _ (advance tc 2) eq_refl).
    + rewrite String.eqb_refl. cbn [td_body body_rows forallb].
      rewrite String.eqb_refl.
      assert (Hne : String.eqb lhs (table_name (advance tc 1)) = false).
      { rewrite Hl, table_name_eqb, H1. apply N.eqb_neq. lia. }
      rewrite Hne, andb_assoc. reflexivity.
    + lia.
    + rewrite H2. cbn [length] in Hb. lia.
Qed.

Lemma compile_and_rows (a : ASTAnd) (tc c : N) (env : string -> bool) :
  and_Terms a <> [] ->
  (tc + N.of_nat (2 * length (and_Terms a)) < 2 ^ 32)%N ->
  rows (compile_and ToLower atBlock a tc c) env
    (last_name (compile_and ToLower atBlock a tc c) EmptyString)
  = eval_ASTAnd rho a.
Proof.
  intros Hne Hb. unfold compile_and, eval_ASTAnd.
  destruct (and_Terms a) as [|t rest]; [congruence|].
  rewrite last_name_cons. cbn [td_name table_rows].
  assert (H1 : advance tc 1 = (tc + 1)%N) by (apply advance_small; cbn [length] in Hb; lia).
  rewrite (@compile_more_terms_rows rest _ _ _ _ (advance tc 1) eq_refl).
  - rewrite String.eqb_refl. reflexivity.
  - lia.
  - rewrite H1. cbn [length] in Hb. lia.
Qed.

Lemma compile_more_conjunctions_rows (rest : list ASTAnd) :
  Forall (fun a => and_Terms a <> []) rest ->
  forall lhs tc c env j,
    lhs = table_name j -> (j <= tc)%N ->
    (tc + N.of_nat (2 * length (flat_map and_Terms rest)) < 2 ^ 32)%N ->
    rows (compile_more_conjunctions ToLower atBlock rest lhs tc c) env
      (last_name (compile_more_conjunctions ToLower atBlock rest lhs tc c) lhs)
    = env lhs || existsb (eval_ASTAnd rho) rest.
Proof.
  induction 1 as [|a r Ha _ IH]; intros lhs tc c env j Hl Hj Hb.
  - cbn. rewrite orb_false_r. reflexivity.
  - cbn [compile_more_conjunctions flat_map] in *.
    rewrite length_app in Hb.
    pose proof (@compile_and_length ToLower atBlock a tc c Ha) as Hlen.
    assert (Hpos : 0 < length (and_Terms a))
      by (destruct (and_Terms a); [congruence|cbn; lia]).
    set (tables := compile_and ToLower atBlock a tc c) in *.
    assert (Ht : advance tc (length tables)
                 = (tc + N.of_nat (length tables))%N)
      by (apply advance_small; lia).
    assert (Ht1 : advance (advance tc (length tables)) 1
                  = (tc + N.of_nat (length tables) + 1)%N)
      by (rewrite Ht; apply advance_small; lia).
    rewrite last_name_app, last_name_cons, table_rows_app. cbn [td_name table_rows].
    rewrite (IH _ _ _ _ (advance (advance tc (length tables)) 1) eq_refl).
    + rewrite String.eqb_refl. cbn [td_body body_rows existsb].
      rewrite Hl.
      rewrite (@table_rows_older tc j tables env
                 (@compile_and_names ToLower atBlock a tc c)) by lia.
      unfold tables. rewrite compile_and_rows by (try assumption; lia).
      rewrite orb_assoc. reflexivity.
    + lia.
    + rewrite Ht1. lia.
Qed.

Lemma compile_or_rows (x : ASTOr) (tc c : N) (env : string -> bool) :
  nonempty_conjunctions (or_Terms x) ->
  (tc + N.of_nat (2 * term_count x) < 2 ^ 32)%N ->
  rows (compile_or ToLower atBlock x tc c) env
    (last_name (compile_or ToLower atBlock x tc c) EmptyString)
  = eval_ASTOr rho x.
Proof.
  intros [Hne Hall] Hb. unfold compile_or, eval_ASTOr, term_count in *.
  destruct (or_Terms x) as [|a rest]; [congruence|].
  inversion Hall as [|? ? Ha Hrest]; subst.
  cbn [flat_map existsb] in *. rewrite length_app in Hb.
  pose proof (@compile_and_length ToLower atBlock a tc c Ha) as Hlen.
  assert (Hpos : 0 < length (and_Terms a))
    by (destruct (and_Terms a); [congruence|cbn; lia]).
  assert (Hnil : compile_and ToLower atBlock a tc c <> []).
  { intros H0. rewrite H0 in Hlen. cbn [length] in Hlen. lia. }
  set (tables := compile_and ToLower atBlock a tc c) in *.
  assert (Ht : advance tc (length tables) = (tc + N.of_nat (length tables))%N)
    by (apply advance_small; lia).
  rewrite last_name_app, table_rows_app.
  rewrite (@compile_more_conjunctions_rows rest Hrest _ _ _ _
             (advance tc (length tables))).
  - unfold tables. rewrite compile_and_rows by (try assumption; lia). reflexivity.
  - apply last_name_names; [apply compile_and_names|exact Hnil].
  - lia.
  - rewrite Ht. lia.
Qed.

End Rows.

(** ** [TablesEvaluator.EvaluateExpr] *)

Lemma tables_text_with_clause (ToLower : string -> string) (defs : list TableDef) :
  defs <> [] ->
  ("WITH " ++ tables_text ToLower false defs)%string = with_clause ToLower defs.
Proof.
  intros Hne. unfold with_clause. destruct defs as [|d r]; [congruence|].
  cbn [tables_text map]. rewrite strings_Join_cons. reflexivity.
Qed.

(** X13. On a normal form (a non-empty disjunction of non-empty
    conjunctions), with a builder that has written no table yet and whose
    table counter stays below 2^32, [EvaluateExpr] returns; it writes
    [WITH] and the definitions of [2 * n - 1] tables for [n] terms, named by
    the consecutive values of the counter, and pushes the arguments of the
    leaves in order; the table it returns is the last one defined, and an
    entity is a row of it exactly when the normal form holds of the
    entity. *)
Theorem EvaluateExpr_tables (ToLower : string -> string) (x : ASTExpr)
  (b : QueryBuilder) :
  wf_ASTExpr x ->
  needsComma b = false ->
  (tableCounter b + N.of_nat (2 * term_count (ast_Or x)) < 2 ^ 32)%N ->
  let defs :=
    compile_or ToLower (AtBlock (options b)) (ast_Or x) (tableCounter b)
      (argsCount b) in
  exists b',
    EvaluateExpr ToLower x b = Ok (last_name defs EmptyString, b')
    /\ queryBuilder b' = (queryBuilder b ++ with_clause ToLower defs)%string
    /\ args b' = args b ++ or_arguments ToLower (AtBlock (options b)) (ast_Or x)
    /\ tableCounter b' = (tableCounter b + N.of_nat (length defs))%N
    /\ length defs = 2 * term_count (ast_Or x) - 1
    /\ names_from (tableCounter b) defs
    /\ forall (rho : Assignment) (env : string -> bool),
         table_rows rho defs env (last_name defs EmptyString) = eval_ASTExpr rho x.
Proof.
  intros Hwf Hcomma Hb defs.
  pose proof (@compile_or_length ToLower (AtBlock (options b)) (ast_Or x)
                (tableCounter b) (argsCount b) Hwf) as Hlen.
  fold defs in Hlen.
  assert (Hpos : 0 < term_count (ast_Or x)).
  { destruct Hwf as [Hne Hall]. unfold term_count.
    destruct (or_Terms (ast_Or x)) as [|a rest]; [congruence|].
    inversion Hall as [|? ? Ha _]; subst. cbn [flat_map]. rewrite length_app.
    destruct (and_Terms a); [congruence|cbn; lia]. }
  assert (Hne : defs <> []).
  { intros H0. rewrite H0 in Hlen. cbn [length] in Hlen. lia. }
  eexists. split; [|split; [|split; [|split; [|split; [|split]]]]].
  - unfold EvaluateExpr. rewrite (@EvaluateOr_define ToLower (ast_Or x) _ Hwf).
    reflexivity.
  - unfold define, WriteString.
    cbn [queryBuilder args argsCount tableCounter needsComma needsWhere options
         sqlDialect].
    rewrite Hcomma. fold defs.
    rewrite string_append_assoc, (@tables_text_with_clause ToLower defs Hne).
    reflexivity.
  - reflexivity.
  - unfold define, WriteString.
    cbn [queryBuilder args argsCount tableCounter needsComma needsWhere options
         sqlDialect].
    fold defs. apply advance_small. lia.
  - exact Hlen.
  - apply compile_or_names.
  - intros rho env. unfold eval_ASTExpr.
    apply compile_or_rows; assumption.
Qed.

(** X13 at the normal form of [a = 1 || b = "x"], on the builder that has
    written nothing. *)
Lemma EvaluateExpr_tables_a_or_b :
  exists b',
    EvaluateExpr ToLower_ascii a_or_b_expr
      (mkQueryBuilder EmptyString [] 0 0 false true plain_options EmptyString)
    = Ok ("table_3"%string, b')
    /\ Forall2 (fun d n => td_name d = n)
         (compile_or ToLower_ascii (AtBlock plain_options) (ast_Or a_or_b_expr) 0 0)
         ["table_1"; "table_2"; "table_3"]%string
    /\ forall (rho : Assignment) (env : string -> bool),
         table_rows rho
           (compile_or ToLower_ascii (AtBlock plain_options) (ast_Or a_or_b_expr) 0 0)
           env "table_3"
         = eval_ASTExpr rho a_or_b_expr.
Proof.
  destruct (@EvaluateExpr_tables ToLower_ascii a_or_b_expr
              (mkQueryBuilder EmptyString [] 0 0 false true plain_options EmptyString)
              a_or_b_expr_wf eq_refl eq_refl)
    as [b' [H1 [_ [_ [_ [_ [_ H7]]]]]]].
  exists b'. split; [exact H1|]. split; [|exact H7].
  repeat constructor.
Defined.
(** End of the development. *)
